(** * KeyValueDB: a cached, namespaced accessor over AsyncStorage

    A shallow embedding of [src/index.ts] (class [KeyValueDB] and the helper
    [validateMigrationVersionNumbers]) together with the properties of its
    migration runner and of its read cache.

    Modelling conventions.
    - Every [async] method runs to completion: an [await] is a sequencing
      point, no other task is interleaved.
    - A method is a function from the world (the instance's private fields,
      the contents of AsyncStorage, the number of UUIDs drawn) to an outcome
      (a returned value or a thrown exception), the world afterwards and the
      events the method itself emitted (console output, migration functions
      it invoked).  An exception leaves the world as it was when thrown.
    - A migration function is any function from a world to an outcome and a
      world: it is handed the instance, can reach AsyncStorage, and ends.
    - AsyncStorage is a finite map from strings to strings together with the
      accesses it currently rejects; a rejected access throws and changes
      nothing.
    - JavaScript numbers are [NaN] or an exact integer.  This is exact for
      the integers a double represents exactly and prints in decimal digits
      (in particular up to 2^53 - 1, [MAX_SAFE_INTEGER]); [-0] is
      identified with [0], which the code cannot tell apart ([-0 <= 0], [-0]
      is falsy, and both print as the property key "0").
    - Strings are sequences of 8-bit characters; of the white space that
      [parseInt] skips only the ASCII characters are represented.
    - User data values are plain objects, as the schema type
      [DBShape = { [key: string]: object }] requires; a parameter of such a
      type may still be [null] or [undefined] at run time, which is what
      the [!v] tests of the code are for.  Objects are finite maps from
      property names to values and are compared by their contents; that the
      cache shares an object with its caller ([put] stores the caller's
      object, [get] hands it out, [update] assigns into it in place) is not
      represented.  The statements about a single key do not depend on it.
      Those about several keys are kept to what cannot tell a shared object
      from a copy: they claim nothing about the cached value of one key
      after an [update] of another, [update] being the one operation that
      changes an object in place.
    - [JSON.stringify] and [JSON.parse] belong to the runtime and are
      parameters of the development (class [JSON]), as is [randomUUID]. *)

From Stdlib Require Import ZArith Ascii String DecimalString DecimalPos.
From Stdlib Require Import Sorted Permutation.
From stdpp Require Import base option list gmap strings.

Set Warnings "-register-all".
Local Open Scope Z_scope.

(** ** Numbers *)

Inductive number :=
| NaN
| Int (z : Z).

Global Instance number_eq_dec : EqDecision number.
Proof. solve_decision. Defined.

(** [a - b] *)
Definition num_sub (a b : number) : number :=
  match a, b with
  | Int x, Int y => Int (x - y)
  | _, _ => NaN
  end.

(** [a <= b]; every comparison with [NaN] is false *)
Definition num_le (a b : number) : bool :=
  match a, b with
  | Int x, Int y => x <=? y
  | _, _ => false
  end.

(** [a >= b] *)
Definition num_ge (a b : number) : bool :=
  match a, b with
  | Int x, Int y => y <=? x
  | _, _ => false
  end.

(** ToBoolean on a number: [NaN] and [0] are falsy *)
Definition num_truthy (a : number) : bool :=
  match a with
  | NaN => false
  | Int z => negb (z =? 0)
  end.

(** ToBoolean on a string: only the empty string is falsy *)
Definition str_truthy (s : string) : bool :=
  match s with
  | EmptyString => false
  | String _ _ => true
  end.

(** ToString on a number, as used when a number indexes an object *)
Definition number_to_string (a : number) : string :=
  match a with
  | NaN => "NaN"
  | Int z => NilZero.string_of_int (Z.to_int z)
  end.

(** ** [parseInt(s, 10)] *)

Definition is_white_space (c : ascii) : bool :=
  let n := nat_of_ascii c in
  (n =? 9)%nat || (n =? 10)%nat || (n =? 11)%nat
  || (n =? 12)%nat || (n =? 13)%nat || (n =? 32)%nat.

Fixpoint trim_start (s : string) : string :=
  match s with
  | String c s' => if is_white_space c then trim_start s' else s
  | EmptyString => s
  end.

Definition digit_value (c : ascii) : option Z :=
  let n := Z.of_nat (nat_of_ascii c) in
  if (48 <=? n) && (n <=? 57) then Some (n - 48) else None.

(** the longest prefix of decimal digits, most significant first *)
Fixpoint leading_digits (s : string) : list Z :=
  match s with
  | String c s' =>
      match digit_value c with
      | Some d => d :: leading_digits s'
      | None => []
      end
  | EmptyString => []
  end.

Definition digits_to_Z (ds : list Z) : Z :=
  fold_left (fun acc d => 10 * acc + d) ds 0.

Definition split_sign (s : string) : Z * string :=
  match s with
  | String "-" r => (-1, r)
  | String "+" r => (1, r)
  | _ => (1, s)
  end.

Definition parseInt (s : string) : number :=
  let '(sign, body) := split_sign (trim_start s) in
  match leading_digits body with
  | [] => NaN
  | ds => Int (sign * digits_to_Z ds)
  end.

(** ** [Array.prototype.find] and [Array.prototype.sort]

    [sort] must be stable and reads a comparator result that is [NaN] as
    [+0].  For a comparator that is a consistent order on the elements the
    result is determined by the language; a stable insertion sort computes
    it.  (With [NaN] among two or more distinct integers [a - b] is not a
    consistent comparator and the language leaves the order to the engine;
    the insertion sort is then one admissible answer.) *)

Definition cmp_le_zero (v : number) : bool :=
  match v with
  | NaN => true
  | Int z => z <=? 0
  end.

Fixpoint sort_insert (cmp : number -> number -> number) (x : number)
    (l : list number) : list number :=
  match l with
  | [] => [x]
  | y :: l' =>
      if cmp_le_zero (cmp x y) then x :: l else y :: sort_insert cmp x l'
  end.

Definition Array_sort (cmp : number -> number -> number)
    (l : list number) : list number :=
  foldr (sort_insert cmp) [] l.

Definition Array_find (p : number -> bool) (l : list number) : option number :=
  List.find p l.

(** ToBoolean on the result of [find]: [undefined] is falsy *)
Definition found_truthy (r : option number) : bool :=
  match r with
  | None => false
  | Some v => num_truthy v
  end.

(** ** Data model *)

(** Plain data: what a property of a stored object may hold. *)
Inductive value :=
| VUndefined
| VNull
| VBool (b : bool)
| VNumber (n : number)
| VString (s : string)
| VObject (props : gmap string value).

(** A value of the schema type [DBSchema[K]]: an object. *)
Abbreviation object := (gmap string value).

(** What a parameter or a result of type [DBSchema[K]] can be at run time. *)
Inductive nullable (A : Type) :=
| undefined
| null
| defined (a : A).
Arguments undefined {A}.
Arguments null {A}.
Arguments defined {A} a.

(** ToBoolean; an object is truthy *)
Definition is_truthy {A} (v : nullable A) : bool :=
  match v with
  | defined _ => true
  | _ => false
  end.

(** ToString, for the error messages *)
Definition nullable_to_string {A} (v : nullable A) : string :=
  match v with
  | undefined => "undefined"
  | null => "null"
  | defined _ => "[object Object]"
  end.

(** [Object.assign(target, source)] on plain objects: every own property
    of [source] is written to [target]. *)
Definition Object_assign (target source : object) : object :=
  source ∪ target.

(** [types.ts]: [DBInfo] *)
#[projections(primitive)]
Record DBInfo := mkDBInfo {
  lastMigrationVersion : number;
  currUser : string
}.

(** [Partial<DBInfo>] *)
Record PartialDBInfo := mkPartial {
  lastMigrationVersion_opt : option number;
  currUser_opt : option string
}.

(** [Object.assign(m, p)] on the metadata record *)
Definition assign_meta (m : DBInfo) (p : PartialDBInfo) : DBInfo :=
  {| lastMigrationVersion :=
       default (lastMigrationVersion m) (lastMigrationVersion_opt p);
     currUser := default (currUser m) (currUser_opt p) |}.

(** a full [DBInfo] passed where a [Partial<DBInfo>] is expected *)
Definition as_partial (m : DBInfo) : PartialDBInfo :=
  {| lastMigrationVersion_opt := Some (lastMigrationVersion m);
     currUser_opt := Some (currUser m) |}.

Definition metaKey : string := "ns342xcv334Meta".
Definition installIdKey : string := "ns342xcv334InstallId".

(** The private fields of an instance.  [None] is a field that was never
    assigned ([undefined]). *)
#[projections(primitive)]
Record KeyValueDB := mkDB {
  defaultMeta : DBInfo;
  dbCache : option (gmap string object);
  dbMetaCache : option DBInfo;
  dbInstallId : option string
}.

(** The constructor only stores the default metadata. *)
Definition new_KeyValueDB (d : DBInfo) : KeyValueDB :=
  {| defaultMeta := d; dbCache := None; dbMetaCache := None;
     dbInstallId := None |}.

(** AsyncStorage: a string-to-string map whose operations can be rejected.
    [rejects a k] tells whether access [a] to key [k] currently fails. *)
Inductive access := Read | Write | Remove.

#[projections(primitive)]
Record AsyncStorage := mkStorage {
  items : gmap string string;
  rejects : access -> string -> bool
}.

#[projections(primitive)]
Record World := mkWorld {
  this : KeyValueDB;
  storage : AsyncStorage;
  uuids_drawn : nat
}.

Definition set_dbCache (c : option (gmap string object)) (w : World) : World :=
  {| this := {| defaultMeta := defaultMeta (this w); dbCache := c;
                dbMetaCache := dbMetaCache (this w);
                dbInstallId := dbInstallId (this w) |};
     storage := storage w; uuids_drawn := uuids_drawn w |}.

Definition set_dbMetaCache (m : option DBInfo) (w : World) : World :=
  {| this := {| defaultMeta := defaultMeta (this w); dbCache := dbCache (this w);
                dbMetaCache := m;
                dbInstallId := dbInstallId (this w) |};
     storage := storage w; uuids_drawn := uuids_drawn w |}.

Definition set_dbInstallId (i : option string) (w : World) : World :=
  {| this := {| defaultMeta := defaultMeta (this w); dbCache := dbCache (this w);
                dbMetaCache := dbMetaCache (this w);
                dbInstallId := i |};
     storage := storage w; uuids_drawn := uuids_drawn w |}.

Definition set_items (i : gmap string string) (w : World) : World :=
  {| this := this w;
     storage := {| items := i; rejects := rejects (storage w) |};
     uuids_drawn := uuids_drawn w |}.

Definition set_uuids_drawn (n : nat) (w : World) : World :=
  {| this := this w; storage := storage w; uuids_drawn := n |}.

(** ** Outcomes, events and the method monad *)

Inductive exn :=
| Error (msg : string)        (* [throw Error(msg)] *)
| TypeError                   (* a property of [undefined]; iterating [undefined] *)
| SyntaxError                 (* [JSON.parse] on malformed text *)
| StorageFailure (a : access) (k : string).  (* a rejected AsyncStorage call *)

Inductive outcome (A : Type) :=
| Ok (a : A)
| Throw (e : exn).
Arguments Ok {A} a.
Arguments Throw {A} e.

(** [MigrationFunction = (d: KeyValueDB<DBShape>) => Promise<boolean>]: it is
    handed the instance and may do anything with it and with AsyncStorage; the
    promise resolves to a boolean or rejects.  [mf_name] is the function's
    [name] property. *)
Record MigrationFunction := mkMF {
  mf_name : string;
  mf_body : World -> outcome bool * World
}.

Inductive event :=
| console_error (args : list string)
| console_error_exn (e : exn)
| console_info (args : list string)
| invoked (f : MigrationFunction).

#[projections(primitive)]
Record Res (A : Type) := mkRes {
  out : outcome A;
  after : World;
  log : list event
}.
Arguments mkRes {A} out after log.
Arguments out {A} r.
Arguments after {A} r.
Arguments log {A} r.

Definition M (A : Type) : Type := World -> Res A.

Global Instance M_ret : MRet M := fun A a w => mkRes (Ok a) w [].

Global Instance M_bind : MBind M := fun A B k m w =>
  let r := m w in
  match out r with
  | Ok a => let r' := k a (after r) in mkRes (out r') (after r') (log r ++ log r')
  | Throw e => mkRes (Throw e) (after r) (log r)
  end.

Definition throw {A} (e : exn) : M A := fun w => mkRes (Throw e) w [].

(** [try { body } catch (e) { handler e }] *)
Definition try_catch {A} (body : M A) (handler : exn -> M A) : M A := fun w =>
  let r := body w in
  match out r with
  | Ok a => r
  | Throw e =>
      let r' := handler e (after r) in
      mkRes (out r') (after r') (log r ++ log r')
  end.

Definition emit (e : event) : M unit := fun w => mkRes (Ok tt) w [e].
Definition get_world : M World := fun w => mkRes (Ok w) w [].
Definition modify (f : World -> World) : M unit := fun w => mkRes (Ok tt) (f w) [].

(** ** The runtime's collaborators *)

(** [JSON.stringify] and [JSON.parse] at a given type; [parse] is [None]
    where [JSON.parse] throws a [SyntaxError]. *)
Class JSON (A : Type) := {
  stringify : A -> string;
  parse : string -> option A
}.

Definition JSON_parse `{JSON A} (s : string) : M A :=
  match parse s with
  | Some a => mret a
  | None => throw SyntaxError
  end.

(** [AsyncStorage.getItem]: [null] (here [None]) for a missing key *)
Definition getItem (k : string) : M (option string) := fun w =>
  if rejects (storage w) Read k
  then mkRes (Throw (StorageFailure Read k)) w []
  else mkRes (Ok (items (storage w) !! k)) w [].

Definition setItem (k v : string) : M unit := fun w =>
  if rejects (storage w) Write k
  then mkRes (Throw (StorageFailure Write k)) w []
  else mkRes (Ok tt) (set_items (<[k := v]> (items (storage w))) w) [].

Definition removeItem (k : string) : M unit := fun w =>
  if rejects (storage w) Remove k
  then mkRes (Throw (StorageFailure Remove k)) w []
  else mkRes (Ok tt) (set_items (delete k (items (storage w))) w) [].

(** ** The migration table

    [{ [key: number]: MigrationFunction[] }]: an object, given by its own
    properties in the order [Object.keys] lists them.  Property names are
    strings; a number used as an index is converted with ToString. *)
Definition MigrationTable := list (string * list MigrationFunction).

Definition Object_keys (t : MigrationTable) : list string := map fst t.

Fixpoint property (t : MigrationTable) (k : string)
    : option (list MigrationFunction) :=
  match t with
  | [] => None
  | (k', fs) :: t' => if String.eqb k' k then Some fs else property t' k
  end.

(** [table[v]] *)
Definition table_at (t : MigrationTable) (v : number)
    : option (list MigrationFunction) :=
  property t (number_to_string v).

Record validation := mkValidation {
  passed : bool;
  sortedVersions : list number
}.

(** [validateMigrationVersionNumbers].  Nothing in its [try] block throws
    ([parseInt] answers [NaN] for text that is no number), so the [catch]
    block is never entered. *)
Definition validateMigrationVersionNumbers (allVersions : list string)
    : M validation :=
  let vArray := map parseInt allVersions in
  if found_truthy (Array_find (fun v => num_le v (Int 0)) vArray) then
    emit (console_error_exn
            (Error "Migration versions must be positive integers"));;
    mret {| passed := false; sortedVersions := [] |}
  else
    mret {| passed := true; sortedVersions := Array_sort num_sub vArray |}.

(** [await migrationF(this)] *)
Definition call (f : MigrationFunction) : M bool := fun w =>
  let '(o, w') := mf_body f w in mkRes o w' [invoked f].

(** ** The class [KeyValueDB] *)

Section KeyValueDB.
Context {JSON_DBInfo : JSON DBInfo} {JSON_object : JSON (gmap string value)}.

(** [randomUUID()], by the number of identifiers drawn before *)
Variable randomUUID : nat -> string.

Definition opt_str_truthy (o : option string) : bool :=
  match o with
  | Some s => str_truthy s
  | None => false
  end.

Definition getInstallId : M string :=
  w ← get_world;
  if opt_str_truthy (dbInstallId (this w)) then
    mret (default EmptyString (dbInstallId (this w)))
  else
    dbid ← getItem installIdKey;
    (if opt_str_truthy dbid then
       modify (set_dbInstallId dbid)
     else
       w1 ← get_world;
       let fresh := randomUUID (uuids_drawn w1) in
       modify (set_uuids_drawn (S (uuids_drawn w1)));;
       setItem installIdKey fresh;;
       modify (set_dbInstallId (Some fresh)));;
    w2 ← get_world;
    mret (default EmptyString (dbInstallId (this w2))).

Definition getMeta : M (option DBInfo) :=
  w ← get_world;
  match dbMetaCache (this w) with
  | Some m => mret (Some m)
  | None =>
      jsonValue ← getItem metaKey;
      (if opt_str_truthy jsonValue then
         m ← JSON_parse (default EmptyString jsonValue);
         modify (set_dbMetaCache (Some m))
       else mret tt);;
      w1 ← get_world;
      mret (dbMetaCache (this w1))
  end.

Definition putMeta (m : PartialDBInfo) : M unit :=
  w ← get_world;
  let merged :=
    match dbMetaCache (this w) with
    | None => assign_meta (defaultMeta (this w)) m
    | Some cached => assign_meta cached m
    end in
  modify (set_dbMetaCache (Some merged));;
  setItem metaKey (stringify merged).

(** [#init] *)
Definition init : M unit :=
  m ← getMeta;
  (match m with
   | None => w ← get_world; putMeta (as_partial (defaultMeta (this w)))
   | Some _ => mret tt
   end);;
  modify (set_dbCache (Some ∅)).

(** [if (!this.#dbCache) { await this.#init() }] *)
Definition ensure_init : M unit :=
  w ← get_world;
  match dbCache (this w) with
  | None => init
  | Some _ => mret tt
  end.

(** [#makeUserKey]; reading [currUser] of [undefined] is a [TypeError] *)
Definition makeUserKey (k : string) : M string :=
  m ← getMeta;
  match m with
  | Some m => mret (currUser m +:+ ":" +:+ k)
  | None => throw TypeError
  end.

(** [#cacheMakeUserKey] *)
Definition cacheMakeUserKey (k : string) : M string :=
  w ← get_world;
  match dbMetaCache (this w) with
  | None => mret EmptyString
  | Some m =>
      if str_truthy (currUser m) then mret (currUser m +:+ ":" +:+ k)
      else mret EmptyString
  end.

(** the object [this.#dbCache]; indexing [undefined] is a [TypeError] *)
Definition the_cache : M (gmap string object) :=
  w ← get_world;
  match dbCache (this w) with
  | Some c => mret c
  | None => throw TypeError
  end.

(** [this.#dbCache[userKey] = o]: the entry of [userKey] becomes [o].  (In
    the code the entry is the object itself, not a copy of it, see the
    conventions above.) *)
Definition cache_set (userKey : string) (o : object) : M unit :=
  c ← the_cache;
  modify (set_dbCache (Some (<[userKey := o]> c))).

(** [delete this.#dbCache[userKey]] *)
Definition cache_delete (userKey : string) : M unit :=
  c ← the_cache;
  modify (set_dbCache (Some (delete userKey c))).

Definition put (k : string) (v : nullable object) : M unit :=
  if negb (str_truthy k) || negb (is_truthy v) then
    throw (Error ("Key (" +:+ k +:+ ") or value ("
                  +:+ nullable_to_string v +:+ ") must be non-empty"))
  else
    match v with
    | defined o =>
        ensure_init;;
        userKey ← makeUserKey k;
        cache_set userKey o;;
        setItem userKey (stringify o)
    | _ => mret tt (* not reached: [v] is truthy *)
    end.

(** A namespaced key contains [':'], which no property of
    [Object.prototype] does: [userKey in this.#dbCache] asks for an own
    property of the cache. *)
Definition get (k : string) : M (nullable object) :=
  if negb (str_truthy k) then
    throw (Error ("Key (" +:+ k +:+ ") must be non-empty"))
  else
    ensure_init;;
    userKey ← makeUserKey k;
    c ← the_cache;
    match c !! userKey with
    | Some o => mret (defined o)
    | None =>
        try_catch
          (jsonValue ← getItem userKey;
           if opt_str_truthy jsonValue then
             o ← JSON_parse (default EmptyString jsonValue);
             cache_set userKey o;;
             mret (defined o)
           else mret undefined)
          (fun e => emit (console_error_exn e);; mret undefined)
    end.

Definition cacheGet (k : string) : M (nullable object) :=
  if negb (str_truthy k) then
    throw (Error ("Key (" +:+ k +:+ ") must be non-empty"))
  else
    w ← get_world;
    match dbCache (this w) with
    | None => mret null
    | Some c =>
        userKey ← cacheMakeUserKey k;
        if str_truthy userKey then
          mret (match c !! userKey with
                | Some o => defined o
                | None => undefined
                end)
        else mret null
    end.

Definition del (k : string) : M unit :=
  if negb (str_truthy k) then
    throw (Error ("Key (" +:+ k +:+ ") must be non-empty"))
  else
    ensure_init;;
    userKey ← makeUserKey k;
    cache_delete userKey;;
    removeItem userKey.

(** [Object.assign(this.#dbCache[userKey], v)] is modelled on the entry of
    [userKey]; in the code it changes the object in place, so the change
    also shows wherever else the caller holds or has filed that object. *)
Definition update (k : string) (v : nullable object) : M unit :=
  if negb (str_truthy k) || negb (is_truthy v) then
    throw (Error ("Key (" +:+ k +:+ ") or value ("
                  +:+ nullable_to_string v +:+ ") must be non-empty"))
  else
    match v with
    | defined p =>
        ensure_init;;
        userKey ← makeUserKey k;
        c ← the_cache;
        (match c !! userKey with
         | None => cache_set userKey ∅
         | Some _ => mret tt
         end);;
        c' ← the_cache;
        cache_set userKey (Object_assign (default ∅ (c' !! userKey)) p);;
        setItem userKey (stringify p)
    | _ => mret tt (* not reached: [v] is truthy *)
    end.

(** [storedMeta.lastMigrationVersion].  [storedMeta] is the object that
    [#dbMetaCache] refers to, and the field is never reassigned once it is
    set: the read sees every [putMeta] made since, so it is a read of the
    current [#dbMetaCache].  (No code of the class can clear the field; if
    a modelled migration function does, the object [storedMeta] still
    refers to is read.) *)
Definition stored_lastMigrationVersion (storedMeta : DBInfo) : M number :=
  w ← get_world;
  mret (lastMigrationVersion (default storedMeta (dbMetaCache (this w)))).

(** [for (const migrationF of fs) { ... }] *)
Fixpoint run_functions (fs : list MigrationFunction) : M unit :=
  match fs with
  | [] => mret tt
  | migrationF :: fs' =>
      ok ← call migrationF;
      (if negb ok then
         emit (console_error ["Migration function "; mf_name migrationF;
                 " returned false. Migration might have failed"])
       else mret tt);;
      run_functions fs'
  end.

(** [for (const v of sortedVersions) { ... }], returning the final [lmv];
    iterating [table[v]] when it is [undefined] is a [TypeError] *)
Fixpoint run_versions (t : MigrationTable) (storedMeta : DBInfo)
    (vs : list number) (lmv : number) : M number :=
  match vs with
  | [] => mret lmv
  | v :: vs' =>
      stored ← stored_lastMigrationVersion storedMeta;
      if num_ge stored v then run_versions t storedMeta vs' lmv
      else
        match table_at t v with
        | None => throw TypeError
        | Some fs => run_functions fs;; run_versions t storedMeta vs' v
        end
  end.

Definition migrate (migrationFunctionTable : nullable MigrationTable)
    : M bool :=
  try_catch
    (match migrationFunctionTable with
     | defined t =>
         storedMeta ← getMeta;
         match storedMeta with
         | None =>
             emit (console_info ["No database exists. Skipping migration."]);;
             mret false
         | Some storedMeta =>
             r ← validateMigrationVersionNumbers (Object_keys t);
             if negb (passed r) then mret false
             else
               (if (length (sortedVersions r) =? 0)%nat then
                  emit (console_info
                          ["Empty migration function table. Skipping migration"])
                else mret tt);;
               lmv ← run_versions t storedMeta (sortedVersions r) (Int 0);
               (if num_truthy lmv then
                  putMeta {| lastMigrationVersion_opt := Some lmv;
                             currUser_opt := None |}
                else mret tt);;
               mret true
         end
     | _ =>
         emit (console_error ["Migration function table must be non-empty"]);;
         mret false
     end)
    (fun e => emit (console_error_exn e);; mret false).

Definition getCache : M (option (gmap string object)) :=
  w ← get_world; mret (dbCache (this w)).

Definition purgeCache : M unit :=
  modify (set_dbCache (Some ∅)).

End KeyValueDB.

(** the methods are unfolded by name only *)
Arguments getInstallId : simpl never.
Arguments getMeta : simpl never.
Arguments putMeta : simpl never.
Arguments init : simpl never.
Arguments ensure_init : simpl never.
Arguments makeUserKey : simpl never.
Arguments cacheMakeUserKey : simpl never.
Arguments put : simpl never.
Arguments get : simpl never.
Arguments cacheGet : simpl never.
Arguments del : simpl never.
Arguments update : simpl never.
Arguments migrate : simpl never.

(** * Vocabulary of the properties

    What the statements below speak of: what a run did, valid tables, the
    beginning that [get], [put], [del] and [update] share and what each does
    after it, sequences of calls. *)

Section Vocabulary.
Context {JSON_DBInfo : JSON DBInfo} {JSON_object : JSON (gmap string value)}.
Variable randomUUID : nat -> string.

(** ** Decimal numerals *)

(** the digits of a numeral, most significant first *)
Fixpoint uint_digits (d : Decimal.uint) : list Z :=
  match d with
  | Decimal.Nil => []
  | Decimal.D0 d => 0 :: uint_digits d
  | Decimal.D1 d => 1 :: uint_digits d
  | Decimal.D2 d => 2 :: uint_digits d
  | Decimal.D3 d => 3 :: uint_digits d
  | Decimal.D4 d => 4 :: uint_digits d
  | Decimal.D5 d => 5 :: uint_digits d
  | Decimal.D6 d => 6 :: uint_digits d
  | Decimal.D7 d => 7 :: uint_digits d
  | Decimal.D8 d => 8 :: uint_digits d
  | Decimal.D9 d => 9 :: uint_digits d
  end.

(** ** What a run did *)

(** the value a run returned, if it returned *)
Definition out_value {A} (r : Res A) : option A :=
  match out r with
  | Ok a => Some a
  | Throw _ => None
  end.

(** the migration functions invoked, in order *)
Definition invoked_of (l : list event) : list MigrationFunction :=
  omap (fun e => match e with invoked f => Some f | _ => None end) l.

(** the console output among the events *)
Definition console_of (l : list event) : list event :=
  List.filter (fun e => match e with invoked _ => false | _ => true end) l.

(** the line [migrate] logs for a function that returned [false] *)
Definition failure_report (f : MigrationFunction) : event :=
  console_error ["Migration function "; mf_name f;
                 " returned false. Migration might have failed"].

(** The world after the functions [fs] ran one after the other from [w]. *)
Fixpoint thread (fs : list MigrationFunction) (w : World) : World :=
  match fs with
  | [] => w
  | f :: fs' => thread fs' (snd (mf_body f w))
  end.

(** Those of [fs], run one after the other from [w], that answer [false]. *)
Fixpoint failures (fs : list MigrationFunction) (w : World)
    : list MigrationFunction :=
  match fs with
  | [] => []
  | f :: fs' =>
      match fst (mf_body f w) with
      | Ok false => f :: failures fs' (snd (mf_body f w))
      | _ => failures fs' (snd (mf_body f w))
      end
  end.

(** ** Valid tables *)

Definition MAX_SAFE_INTEGER : Z := 2 ^ 53 - 1.

(** [k] is the property name of the version number [v]: the decimal numeral
    of a positive integer (that a double holds exactly). *)
Definition version_key (k : string) (v : Z) : Prop :=
  k = number_to_string (Int v) /\ 0 < v <= MAX_SAFE_INTEGER.

(** An object has each property name once. *)
Definition valid_table (t : MigrationTable) : Prop :=
  NoDup (Object_keys t)
  /\ Forall (fun k => exists v, version_key k v) (Object_keys t).

(** the version numbers of a table, in the order of its keys *)
Definition versions (t : MigrationTable) : list number :=
  map parseInt (Object_keys t).

(** the functions registered for version [v]; none when there is no entry *)
Definition functions_at (t : MigrationTable) (v : Z) : list MigrationFunction :=
  default [] (table_at t (Int v)).

(** ** Migration functions and the metadata record *)

(** Started in a world of [Inv], [f] resolves to a boolean and leaves a
    world of [Inv]. *)
Definition respects (Inv : World -> Prop) (f : MigrationFunction) : Prop :=
  forall w, Inv w ->
    (exists b, fst (mf_body f w) = Ok b) /\ Inv (snd (mf_body f w)).

(** the versions of [vs] above the stored one, in the order of [vs] *)
Definition above (N : Z) (vs : list Z) : list Z :=
  List.filter (fun v => N <? v) vs.

(** the metadata record once version [top] is recorded *)
Definition advanced (m : DBInfo) (top : Z) : DBInfo :=
  {| lastMigrationVersion := Int top; currUser := currUser m |}.

(** the world once [advanced top] is cached and written to the store *)
Definition persisted (m : DBInfo) (top : Z) (w : World) : World :=
  set_items (<[metaKey := stringify (advanced m top)]> (items (storage w)))
    (set_dbMetaCache (Some (advanced m top)) w).

(** the note [migrate] logs for a table without entries *)
Definition empty_note (t : MigrationTable) : list event :=
  match t with
  | [] => [console_info ["Empty migration function table. Skipping migration"]]
  | _ => []
  end.

(** every function registered in a table *)
Definition all_functions (t : MigrationTable) : list MigrationFunction :=
  concat (map snd t).

(** ** The key operations *)

(** the namespaced key of [k] for the user of [m] *)
Definition user_key (m : DBInfo) (k : string) : string :=
  currUser m +:+ ":" +:+ k.

(** the metadata record in the store, as [getMeta] would load it *)
Definition stored_meta (w : World) : option DBInfo :=
  match items (storage w) !! metaKey with
  | Some s => if str_truthy s then parse s else None
  | None => None
  end.

(** The metadata record the instance works with: the cached one, or else
    the one in the store. *)
Definition meta_view (w : World) : option DBInfo :=
  match dbMetaCache (this w) with
  | Some m => Some m
  | None => stored_meta w
  end.

(** metadata and cache are both in place *)
Definition initialized (w : World) (m : DBInfo) (c : gmap string object) : Prop :=
  dbMetaCache (this w) = Some m /\ dbCache (this w) = Some c.

(** [ensure_init] followed by [#makeUserKey] *)
Definition prelude (k : string) : M string :=
  ensure_init;; makeUserKey k.

(** what [get] does once the key is resolved *)
Definition get_tail (userKey : string) : M (nullable object) :=
  c ← the_cache;
  match c !! userKey with
  | Some o => mret (defined o)
  | None =>
      try_catch
        (jsonValue ← getItem userKey;
         if opt_str_truthy jsonValue then
           o ← JSON_parse (default EmptyString jsonValue);
           cache_set userKey o;;
           mret (defined o)
         else mret undefined)
        (fun e => emit (console_error_exn e);; mret undefined)
  end.

(** the cache entry under a namespaced key *)
Definition cached (w : World) (userKey : string) : option object :=
  match dbCache (this w) with
  | Some c => c !! userKey
  | None => None
  end.

(** what [put] does once the key is resolved *)
Definition put_tail (o : object) (userKey : string) : M unit :=
  cache_set userKey o;; setItem userKey (stringify o).

(** what [update] does once the key is resolved *)
Definition update_tail (p : object) (userKey : string) : M unit :=
  c ← the_cache;
  (match c !! userKey with
   | None => cache_set userKey ∅
   | Some _ => mret tt
   end);;
  c' ← the_cache;
  cache_set userKey (Object_assign (default ∅ (c' !! userKey)) p);;
  setItem userKey (stringify p).

(** what [del] does once the key is resolved *)
Definition del_tail (userKey : string) : M unit :=
  cache_delete userKey;; removeItem userKey.

(** ** Sequences of calls *)

(** a call of a public method *)
Inductive op :=
| op_getInstallId
| op_getMeta
| op_putMeta (m : PartialDBInfo)
| op_put (k : string) (v : nullable object)
| op_get (k : string)
| op_cacheGet (k : string)
| op_del (k : string)
| op_update (k : string) (v : nullable object)
| op_migrate (t : nullable MigrationTable)
| op_getCache
| op_purgeCache.

(** [f] leaves the cached metadata record as it is, however it ends. *)
Definition keeps_metadata (f : MigrationFunction) : Prop :=
  forall w, dbMetaCache (this (snd (mf_body f w))) = dbMetaCache (this w).

(** An operation other than [putMeta]; the migration functions handed to
    [migrate] do not touch the metadata record themselves. *)
Definition tame (o : op) : Prop :=
  match o with
  | op_putMeta _ => False
  | op_migrate (defined t) => Forall keeps_metadata (all_functions t)
  | _ => True
  end.

(** a computation that leaves an observation [proj] of the world as it is,
    however it ends *)
Definition preserves {A B} (proj : World -> B) (m : M A) : Prop :=
  forall w, proj (after (m w)) = proj w.

(** the cached metadata record *)
Definition cached_meta (w : World) : option DBInfo := dbMetaCache (this w).

(** the text stored under the metadata key *)
Definition meta_item (w : World) : option string :=
  items (storage w) !! metaKey.

(** the world after a call; what the call returned or threw is the
    caller's business *)
Definition run_op (o : op) (w : World) : World :=
  match o with
  | op_getInstallId => after (getInstallId randomUUID w)
  | op_getMeta => after (getMeta w)
  | op_putMeta m => after (putMeta m w)
  | op_put k v => after (put k v w)
  | op_get k => after (get k w)
  | op_cacheGet k => after (cacheGet k w)
  | op_del k => after (del k w)
  | op_update k v => after (update k v w)
  | op_migrate t => after (migrate t w)
  | op_getCache => after (getCache w)
  | op_purgeCache => after (purgeCache w)
  end.

Definition run_ops (os : list op) (w : World) : World :=
  fold_left (fun w o => run_op o w) os w.

(** the version number of the metadata record the instance works with *)
Definition version_view (w : World) : option number :=
  lastMigrationVersion <$> meta_view w.

(** ** Observations of the world *)

(** the store's entry for a key *)
Definition item (k : string) (w : World) : option string :=
  items (storage w) !! k.

(** the cached install id *)
Definition cached_install_id (w : World) : option string :=
  dbInstallId (this w).

(** the metadata record [m] is cached and is the one written in the store *)
Definition holds_metadata (w : World) (m : DBInfo) : Prop :=
  dbMetaCache (this w) = Some m
  /\ items (storage w) !! metaKey = Some (stringify m).

(** observations that do not look at the cache of values, at the cached
    metadata record, at the store's entry for a key *)
Definition ignores_cache {B} (proj : World -> B) : Prop :=
  forall c w, proj (set_dbCache c w) = proj w.

Definition ignores_meta_cache {B} (proj : World -> B) : Prop :=
  forall m w, proj (set_dbMetaCache m w) = proj w.

Definition ignores_item {B} (k : string) (proj : World -> B) : Prop :=
  (forall v w, proj (set_items (<[k := v]> (items (storage w))) w) = proj w)
  /\ (forall w, proj (set_items (delete k (items (storage w))) w) = proj w).

(** [f] leaves an observation of the world as it is, however it ends *)
Definition leaves {B} (proj : World -> B) (f : MigrationFunction) : Prop :=
  forall w, proj (snd (mf_body f w)) = proj w.


(** a computation that changes an observation of the world only when it
    returns [true] *)
Definition changes_only_on_true {B} (proj : World -> B) (m : M bool) : Prop :=
  forall w, out (m w) <> Ok true -> proj (after (m w)) = proj w.

(** a new instance, with default metadata [d], over the storage [w] left:
    the application started again *)
Definition restart (d : DBInfo) (w : World) : World :=
  {| this := new_KeyValueDB d; storage := storage w;
     uuids_drawn := uuids_drawn w |}.

(** [c] occurs in [s] *)
Fixpoint contains (c : ascii) (s : string) : bool :=
  match s with
  | EmptyString => false
  | String c' s' => Ascii.eqb c' c || contains c s'
  end.

(** ** Exceptions *)

(** every exception the computation can throw satisfies [P] *)
Definition throws_only {A} (P : exn -> Prop) (m : M A) : Prop :=
  forall w e, out (m w) = Throw e -> P e.

(** a call that was refused: it threw an [Error], changed nothing and
    logged nothing *)
Definition refused {A} (w : World) (r : Res A) : Prop :=
  exists msg, r = mkRes (Throw (Error msg)) w [].

(** an exception other than the [Error] of the argument checks *)
Definition not_an_Error (e : exn) : Prop :=
  match e with
  | Error _ => False
  | _ => True
  end.

(** ** The parts of [migrate] *)

(** what [migrate] does once the table is validated and found to hold the
    version numbers [vs] *)
Definition migrate_loop (t : MigrationTable) (storedMeta : DBInfo)
    (vs : list number) : M bool :=
  (if (length vs =? 0)%nat then
     emit (console_info ["Empty migration function table. Skipping migration"])
   else mret tt);;
  lmv ← run_versions t storedMeta vs (Int 0);
  (if num_truthy lmv then
     putMeta {| lastMigrationVersion_opt := Some lmv; currUser_opt := None |}
   else mret tt);;
  mret true.

(** the handler of [migrate] *)
Definition migrate_catch (e : exn) : M bool :=
  emit (console_error_exn e);; mret false.

(** ** More on sequences of calls *)

(** An operation whose migration functions, if it has any, leave the
    cached install id alone. *)
Definition unobtrusive (o : op) : Prop :=
  match o with
  | op_migrate (defined t) => Forall (leaves cached_install_id) (all_functions t)
  | _ => True
  end.



(** what [in_step] looks at *)
Definition metadata_state (w : World)
    : option DBInfo * option string * bool :=
  (cached_meta w, item metaKey w, rejects (storage w) Write metaKey).

(** the data of the callers: the cache of values and a store entry *)
Definition user_data (k : string) (w : World)
    : option (gmap string object) * option string :=
  (dbCache (this w), item k w).

(** An operation that does not write or delete the key [k], update a
    value, switch the user, empty the cache or run migration functions. *)
Definition away_from (k : string) (o : op) : Prop :=
  match o with
  | op_put k' _ | op_del k' => k' <> k
  | op_update _ _ | op_putMeta _ | op_migrate _ | op_purgeCache => False
  | _ => True
  end.

(** the cached metadata record is [m] and the cache holds [o] under [uk] *)
Definition filed (m : DBInfo) (uk : string) (o : object) (w : World) : Prop :=
  dbMetaCache (this w) = Some m /\ cached w uk = Some o.

(** [putMeta({ currUser: u })] *)
Definition switch_user (u : string) : PartialDBInfo :=
  {| lastMigrationVersion_opt := None; currUser_opt := Some u |}.

(** ** The persisted version *)

(** the version number of the metadata record in the store: the persisted
    [lastMigrationVersion] *)
Definition persisted_version (w : World) : option number :=
  lastMigrationVersion <$> stored_meta w.

(** what the metadata record consists of: the cached record and the text
    in the store *)
Definition metadata_record (w : World) : option DBInfo * option string :=
  (cached_meta w, item metaKey w).





End Vocabulary.

(** * Worlds and tables of the examples *)

(** A stand-in for the runtime's JSON on metadata records:
    ["<version>:<user>"]. *)
Definition demo_JSON_DBInfo : JSON DBInfo :=
  {| stringify m :=
       number_to_string (lastMigrationVersion m) +:+ ":" +:+ currUser m;
     parse s :=
       match parseInt s with
       | NaN => None
       | v => Some {| lastMigrationVersion := v;
                      currUser := String.substring
                                    (S (String.length (number_to_string v)))
                                    (String.length s) s |}
       end |}.

(** A stand-in for the runtime's JSON on the objects [{}] and [{ ver: n }]. *)
Definition demo_JSON_object : JSON (gmap string value) :=
  {| stringify o :=
       match o !! "ver" with
       | Some (VNumber n) => "ver=" +:+ number_to_string n
       | _ => "{}"
       end;
     parse s :=
       match s with
       | String "v" (String "e" (String "r" (String "=" r))) =>
           Some {["ver" := VNumber (parseInt r)]}
       | String "{" (String "}" EmptyString) => Some ∅
       | _ => None
       end |}.

Definition guest : DBInfo :=
  {| lastMigrationVersion := Int 0; currUser := "guest" |}.

(** a new instance over an empty, working AsyncStorage *)
Definition fresh_world : World :=
  {| this := new_KeyValueDB guest;
     storage := {| items := ∅; rejects := fun _ _ => false |};
     uuids_drawn := 0 |}.

(** [jest.fn(async () => result)]: resolves to [result], touches nothing *)
Definition mock (name : string) (result : bool) : MigrationFunction :=
  {| mf_name := name; mf_body := fun w => (Ok result, w) |}.

Definition migration1 : MigrationFunction := mock "migration1" true.

Definition migration2 : MigrationFunction := mock "migration2" true.

Definition migration3 : MigrationFunction := mock "migration3" true.

Definition failing2 : MigrationFunction := mock "migration2" false.

Definition ver3 : gmap string value := {["ver" := VNumber (Int 3)]}.

(** the world after [db.put('testing', { ver: 3 })] on a new instance *)
Definition world1 : World :=
  after (put (JSON_DBInfo := demo_JSON_DBInfo) (JSON_object := demo_JSON_object)
           "testing" (defined ver3) fresh_world).

(** [{ 1: [migration1, migration2], 2: [migration3] }] *)
Definition migTable2 : MigrationTable :=
  [("1", [migration1; migration2]); ("2", [migration3])].

(** [async (d) => { try { await d.put('testing', { ver: 4 }); return true }
    catch { return false } }]: a migration function that rewrites a value
    through the instance it is handed *)
Definition bumpTesting : MigrationFunction :=
  {| mf_name := "bumpTesting";
     mf_body := fun w =>
       let r := put (JSON_DBInfo := demo_JSON_DBInfo)
                  (JSON_object := demo_JSON_object)
                  "testing" (defined {["ver" := VNumber (Int 4)]}) w in
       (match out r with
        | Ok _ => Ok true
        | Throw _ => Ok false
        end, after r) |}.


(** [{ 1: [migration1, bumpTesting], 2: [migration3] }] *)
Definition migTableB : MigrationTable :=
  [("1", [migration1; bumpTesting]); ("2", [migration3])].

(** [{ 1: [migration1, failing2], 2: [migration3] }] *)
Definition migTableF : MigrationTable :=
  [("1", [migration1; failing2]); ("2", [migration3])].

Definition demo_put := put (JSON_DBInfo := demo_JSON_DBInfo)
                           (JSON_object := demo_JSON_object).

Definition demo_get := get (JSON_DBInfo := demo_JSON_DBInfo)
                           (JSON_object := demo_JSON_object).

Definition demo_update := update (JSON_DBInfo := demo_JSON_DBInfo)
                                 (JSON_object := demo_JSON_object).

(** [{ name: 'akshay', ver: 1 }] and the fragment [{ ver: 2 }] *)
Definition bigobj : gmap string value :=
  {["name" := VString "akshay"; "ver" := VNumber (Int 1)]}.

Definition fragment : gmap string value := {["ver" := VNumber (Int 2)]}.



(** a new instance over a store none of whose keys can be read *)
Definition unreadable_world : World :=
  {| this := new_KeyValueDB guest;
     storage := {| items := ∅;
                   rejects := fun a _ => match a with Read => true | _ => false end |};
     uuids_drawn := 0 |}.

(** [world1] with an emptied cache, a text under [guest:junk] that is no
    JSON, and a store that cannot read [guest:testing] *)
Definition world_faulty : World :=
  {| this := this (after (purgeCache world1));
     storage := {| items := <["guest:junk" := "not json"]> (items (storage world1));
                   rejects := fun a k =>
                     match a with
                     | Read => String.eqb k "guest:testing"
                     | _ => false
                     end |};
     uuids_drawn := 0 |}.

(** a store whose metadata names no user: [currUser] is the empty string *)
Definition nobody : DBInfo :=
  {| lastMigrationVersion := Int 0; currUser := EmptyString |}.


(** [randomUUID()] for the examples *)
Definition demo_uuid (n : nat) : string :=
  "uuid-" +:+ number_to_string (Int (Z.of_nat n)).


Definition demo_run_ops := run_ops (JSON_DBInfo := demo_JSON_DBInfo)
                                   (JSON_object := demo_JSON_object) demo_uuid.

Definition demo_version := version_view (JSON_DBInfo := demo_JSON_DBInfo).

Definition demo_persisted :=
  persisted_version (JSON_DBInfo := demo_JSON_DBInfo).

(** operations other than [putMeta], with a migration that writes a value *)
Definition store_ops : list op :=
  [op_get "testing"; op_migrate (defined migTableB); op_get "testing";
   op_purgeCache; op_migrate (defined migTableF);
   op_update "a" (defined fragment); op_del "a"; op_getInstallId;
   op_cacheGet "a"; op_getMeta; op_getCache; op_migrate (defined migTable2)].


Definition demo_ops : list op :=
  [op_put "a" (defined ver3); op_migrate (defined migTable2); op_get "a";
   op_purgeCache; op_migrate (defined migTableF); op_update "a" (defined fragment);
   op_del "a"; op_getInstallId; op_cacheGet "a"; op_getMeta; op_getCache].

(** [world1] over a store that can be read but accepts neither a write nor
    a removal *)
Definition world_locked : World :=
  {| this := this world1;
     storage := {| items := items (storage world1);
                   rejects := fun a _ =>
                     match a with Read => false | _ => true end |};
     uuids_drawn := 0 |}.

(** [async () => { throw Error('boom') }] *)
Definition throwing : MigrationFunction :=
  {| mf_name := "throwing";
     mf_body := fun w => (Throw (Error "boom"), w) |}.

(** [{ 1: [migration1, throwing, migration2], 2: [migration3] }] *)
Definition migTableT : MigrationTable :=
  [("1", [migration1; throwing; migration2]); ("2", [migration3])].




(** [putMeta({ lastMigrationVersion: 3 })] *)
Definition version3 : PartialDBInfo :=
  {| lastMigrationVersion_opt := Some (Int 3); currUser_opt := None |}.

Definition demo_del := del (JSON_DBInfo := demo_JSON_DBInfo).

Definition demo_getMeta := getMeta (JSON_DBInfo := demo_JSON_DBInfo).

Definition demo_putMeta := putMeta (JSON_DBInfo := demo_JSON_DBInfo).

Definition demo_migrate := migrate (JSON_DBInfo := demo_JSON_DBInfo).

(** the world after the first [getInstallId()] on a new instance *)
Definition world_installed : World :=
  after (getInstallId demo_uuid fresh_world).

(** operations that leave the key [testing] alone *)
Definition other_ops : list op :=
  [op_put "a" (defined ver3); op_get "a"; op_put "b" (defined fragment);
   op_del "a"; op_getInstallId; op_cacheGet "testing"; op_getMeta;
   op_getCache; op_get "testing"].

(** [world1] after [putMeta({ currUser: 'alice' })], and after
    [putMeta({ currUser: 'guest' })] on that *)
Definition world_alice : World :=
  after (demo_putMeta (switch_user "alice") world1).

Definition world_guest_again : World :=
  after (demo_putMeta (switch_user "guest") world_alice).

(** * Properties *)

(** ** Running the monad *)

Lemma run_bind {A B} (m : M A) (k : A -> M B) (w : World) :
  (m ≫= k) w =
  match out (m w) with
  | Ok a => mkRes (out (k a (after (m w)))) (after (k a (after (m w))))
                  (log (m w) ++ log (k a (after (m w))))
  | Throw e => mkRes (Throw e) (after (m w)) (log (m w))
  end.
Proof. reflexivity. Qed.

Lemma run_bind_ok {A B} (m : M A) (k : A -> M B) w a w1 l :
  m w = mkRes (Ok a) w1 l ->
  (m ≫= k) w = mkRes (out (k a w1)) (after (k a w1)) (l ++ log (k a w1)).
Proof. intros E. rewrite run_bind, E. reflexivity. Qed.

Lemma run_bind_throw {A B} (m : M A) (k : A -> M B) w e w1 l :
  m w = mkRes (Throw e) w1 l ->
  (m ≫= k) w = mkRes (Throw e) w1 l.
Proof. intros E. rewrite run_bind, E. reflexivity. Qed.

Lemma run_bind_pure {A B} (m : M A) (k : A -> M B) w a :
  m w = mkRes (Ok a) w [] -> (m ≫= k) w = k a w.
Proof. intros E. rewrite run_bind, E. reflexivity. Qed.

Lemma run_bind_assoc {A B C} (m : M A) (k : A -> M B) (h : B -> M C) w :
  ((m ≫= k) ≫= h) w = (m ≫= (fun a => k a ≫= h)) w.
Proof.
  rewrite !run_bind. simpl.
  destruct (out (m w)) as [a|e]; simpl; [|reflexivity].
  rewrite run_bind.
  destruct (out (k a (after (m w)))) as [b|e]; simpl.
  - by rewrite app_assoc.
  - reflexivity.
Qed.

Lemma run_try_ok {A} (body : M A) handler w a w1 l :
  body w = mkRes (Ok a) w1 l -> try_catch body handler w = mkRes (Ok a) w1 l.
Proof. intros E. unfold try_catch. rewrite E. reflexivity. Qed.

Lemma run_try_throw {A} (body : M A) handler w e w1 l :
  body w = mkRes (Throw e) w1 l ->
  try_catch body handler w =
  mkRes (out (handler e w1)) (after (handler e w1)) (l ++ log (handler e w1)).
Proof. intros E. unfold try_catch. rewrite E. reflexivity. Qed.

(** ** [parseInt] reads back what ToString prints *)

Lemma leading_digits_uint (d : Decimal.uint) :
  leading_digits (NilEmpty.string_of_uint d) = uint_digits d.
Proof. induction d; simpl; try done; by rewrite IHd. Qed.

Lemma fold_digits_acc (d : Decimal.uint) (acc : positive) :
  fold_left (fun a x => 10 * a + x) (uint_digits d) (Z.pos acc)
  = Z.pos (Pos.of_uint_acc d acc).
Proof.
  revert acc. induction d; intros acc; simpl; try done.
  all: rewrite <- IHd; f_equal; lia.
Qed.

Lemma digits_to_Z_uint (d : Decimal.uint) :
  digits_to_Z (uint_digits d) = Z.of_N (Pos.of_uint d).
Proof.
  unfold digits_to_Z. induction d; simpl; try done.
  all: apply (fold_digits_acc d _).
Qed.

Lemma parseInt_signed (sign : Z) (d : Decimal.uint) (s : string) :
  d <> Decimal.Nil ->
  trim_start s = s -> split_sign s = (sign, NilEmpty.string_of_uint d) ->
  parseInt s = Int (sign * Z.of_N (Pos.of_uint d)).
Proof.
  intros Hd Ht Hs. unfold parseInt. rewrite Ht, Hs, leading_digits_uint.
  rewrite <- digits_to_Z_uint. by destruct d.
Qed.

(** A number used as a property name and parsed back is the same number. *)
Lemma parseInt_number_to_string (z : Z) :
  parseInt (number_to_string (Int z)) = Int z.
Proof.
  destruct z as [|p|p]; [done| |].
  - pose proof (DecimalPos.Unsigned.to_uint_nonnil p) as Hn.
    pose proof (DecimalPos.Unsigned.of_to p) as Hp.
    unfold number_to_string. simpl Z.to_int.
    rewrite (parseInt_signed 1 (Pos.to_uint p)); [by rewrite Hp|done| |].
    all: unfold NilZero.string_of_int, NilZero.string_of_uint;
      by destruct (Pos.to_uint p).
  - pose proof (DecimalPos.Unsigned.to_uint_nonnil p) as Hn.
    pose proof (DecimalPos.Unsigned.of_to p) as Hp.
    unfold number_to_string. simpl Z.to_int.
    rewrite (parseInt_signed (-1) (Pos.to_uint p)); [by rewrite Hp|done| |].
    all: unfold NilZero.string_of_int, NilZero.string_of_uint;
      by destruct (Pos.to_uint p).
Qed.

Lemma number_to_string_inj (a b : Z) :
  number_to_string (Int a) = number_to_string (Int b) -> a = b.
Proof.
  intros H. assert (Int a = Int b) as [= ->]; [|done].
  by rewrite <- (parseInt_number_to_string a), H, parseInt_number_to_string.
Qed.

(** ** Validation and sorting of version numbers *)

Lemma sort_insert_ints (x : Z) (zs : list Z) :
  StronglySorted Z.le zs ->
  exists zs', sort_insert num_sub (Int x) (map Int zs) = map Int zs'
              /\ Permutation (x :: zs) zs' /\ StronglySorted Z.le zs'.
Proof.
  induction 1 as [|y zs Hs IH Hall]; simpl.
  - exists [x]. repeat split; repeat constructor.
  - destruct (x - y <=? 0) eqn:E.
    + exists (x :: y :: zs). split; [done|]. split; [done|].
      constructor; [by constructor|].
      constructor; [lia|]. eapply Forall_impl; [exact Hall|]. simpl. lia.
    + destruct IH as (zs' & E1 & P & S). exists (y :: zs').
      rewrite E1. split; [done|]. split.
      * rewrite <- P. apply perm_swap.
      * constructor; [done|]. rewrite <- P. constructor; [lia|done].
Qed.

(** On integers [sort((a, b) => a - b)] yields the ascending arrangement. *)
Lemma Array_sort_ints (zs : list Z) :
  exists zs', Array_sort num_sub (map Int zs) = map Int zs'
              /\ Permutation zs zs' /\ StronglySorted Z.le zs'.
Proof.
  unfold Array_sort. induction zs as [|x zs IH]; simpl.
  - exists []. repeat split; constructor.
  - destruct IH as (zs1 & E1 & P1 & S1).
    destruct (sort_insert_ints x zs1 S1) as (zs2 & E2 & P2 & S2).
    exists zs2. rewrite E1, E2.
    split; [done|]. split; [|done]. by rewrite <- P2, P1.
Qed.

Lemma Array_find_positive (zs : list Z) :
  Forall (fun z => 0 < z) zs ->
  Array_find (fun v => num_le v (Int 0)) (map Int zs) = None.
Proof.
  induction 1 as [|z zs Hz _ IH]; simpl; [done|].
  destruct (z <=? 0) eqn:E; [lia|done].
Qed.

(** ** What a run of [migrate] did, read off its events *)

Lemma thread_app fs1 fs2 w : thread (fs1 ++ fs2) w = thread fs2 (thread fs1 w).
Proof. revert w. induction fs1 as [|f fs1 IH]; intros w; simpl; [done|apply IH]. Qed.

Lemma failures_app fs1 fs2 w :
  failures (fs1 ++ fs2) w = failures fs1 w ++ failures fs2 (thread fs1 w).
Proof.
  revert w. induction fs1 as [|f fs1 IH]; intros w; simpl; [done|].
  rewrite IH. by destruct (fst (mf_body f w)) as [[|]|].
Qed.

Lemma invoked_of_app l1 l2 : invoked_of (l1 ++ l2) = invoked_of l1 ++ invoked_of l2.
Proof. apply omap_app. Qed.

Lemma console_of_app l1 l2 : console_of (l1 ++ l2) = console_of l1 ++ console_of l2.
Proof. apply List.filter_app. Qed.

(** ** Valid migration tables *)

Lemma property_is_Some (t : MigrationTable) (k : string) :
  k ∈ Object_keys t -> is_Some (property t k).
Proof.
  induction t as [|[k' fs] t IH]; simpl; [by intros ?%elem_of_nil|].
  intros [->|Hin]%elem_of_cons.
  - rewrite String.eqb_refl. eauto.
  - destruct (String.eqb k' k); eauto.
Qed.

Lemma valid_table_versions (t : MigrationTable) :
  valid_table t ->
  exists zs, versions t = map Int zs
    /\ NoDup zs
    /\ Forall (fun z => 0 < z) zs
    /\ Forall (fun z => is_Some (table_at t (Int z))) zs.
Proof.
  intros [Hnd Hall]. unfold versions, table_at.
  assert (Hsome : Forall (fun k => is_Some (property t k)) (Object_keys t)).
  { apply Forall_forall. intros k Hk. by apply property_is_Some. }
  revert Hnd Hall Hsome. generalize (Object_keys t) as ks.
  induction ks as [|k ks IH]; intros Hnd Hall Hsome.
  - exists []. repeat split; constructor.
  - apply NoDup_cons in Hnd as [Hk Hnd].
    apply Forall_cons in Hall as [(v & -> & Hv) Hall].
    apply Forall_cons in Hsome as [Hkk Hsome].
    destruct (IH Hnd Hall Hsome) as (zs & E & Hnd' & Hpos & Hat).
    exists (v :: zs). cbn [map]. rewrite parseInt_number_to_string, E.
    split; [done|]. split; [|split].
    + apply NoDup_cons. split; [|done]. intros Hin. apply Hk.
      assert (Hin' : Int v ∈ map parseInt ks).
      { rewrite E. apply list_elem_of_In, in_map, list_elem_of_In, Hin. }
      apply list_elem_of_In, in_map_iff in Hin' as (k' & Hk' & Hin').
      apply list_elem_of_In in Hin'.
      pose proof (proj1 (Forall_forall _ _) Hall k' Hin') as (v' & -> & _).
      rewrite parseInt_number_to_string in Hk'. by inversion Hk'; subst v'.
    + constructor; [lia|done].
    + by constructor.
Qed.

(** ** Ascending lists *)

Lemma StronglySorted_le_lt (zs : list Z) :
  NoDup zs -> StronglySorted Z.le zs -> StronglySorted Z.lt zs.
Proof.
  intros Hnd Hs. induction Hs as [|z zs Hs IH Hall]; [constructor|].
  apply NoDup_cons in Hnd as [Hz Hnd]. constructor; [by apply IH|].
  apply Forall_forall. intros y Hy.
  pose proof (proj1 (Forall_forall _ _) Hall y Hy) as Hle. simpl in Hle.
  assert (z <> y) by (by intros ->). lia.
Qed.

Lemma StronglySorted_filter (R : Z -> Z -> Prop) (p : Z -> bool) (zs : list Z) :
  StronglySorted R zs -> StronglySorted R (List.filter p zs).
Proof.
  induction 1 as [|z zs Hs IH Hall]; simpl; [constructor|].
  destruct (p z); [|done]. constructor; [done|].
  apply Forall_forall. intros y [Hy _]%list_elem_of_In%filter_In.
  apply (proj1 (Forall_forall _ _) Hall y). by apply list_elem_of_In.
Qed.

(** the top of an ascending list is its last element *)
Lemma StronglySorted_last (zs : list Z) (top : Z) :
  StronglySorted Z.lt zs -> last zs = Some top ->
  top ∈ zs /\ Forall (fun z => z <= top) zs.
Proof.
  induction 1 as [|z zs Hs IH Hall]; [done|].
  rewrite last_cons. destruct (last zs) as [y|] eqn:El.
  - intros [= ->]. destruct (IH eq_refl) as [Hin Hle]. split.
    + by apply elem_of_cons; right.
    + constructor; [|done].
      pose proof (proj1 (Forall_forall _ _) Hall top Hin). simpl in *. lia.
  - intros [= ->]. apply last_None in El as ->. split.
    + apply list_elem_of_singleton. done.
    + by repeat constructor.
Qed.

(** an ascending list is determined by its elements *)
Lemma StronglySorted_unique (l1 l2 : list Z) :
  StronglySorted Z.lt l1 -> StronglySorted Z.lt l2 ->
  (forall v, v ∈ l1 <-> v ∈ l2) -> l1 = l2.
Proof.
  revert l2. induction l1 as [|a l1 IH]; intros [|b l2] S1 S2 H; [done| | |].
  - exfalso. by apply (not_elem_of_nil b), H, elem_of_cons; left.
  - exfalso. by apply (not_elem_of_nil a), H, elem_of_cons; left.
  - apply StronglySorted_inv in S1 as [S1 F1].
    apply StronglySorted_inv in S2 as [S2 F2].
    assert (Ha : forall v, v ∈ l1 -> a < v)
      by (intros v Hv; apply (proj1 (Forall_forall _ _) F1 v Hv)).
    assert (Hb : forall v, v ∈ l2 -> b < v)
      by (intros v Hv; apply (proj1 (Forall_forall _ _) F2 v Hv)).
    assert (a = b) as ->.
    { assert (H1 : a ∈ b :: l2) by (by apply H, elem_of_cons; left).
      assert (H2 : b ∈ a :: l1) by (by apply H, elem_of_cons; left).
      apply elem_of_cons in H1 as [?|H1]; [done|].
      apply elem_of_cons in H2 as [?|H2]; [done|].
      apply Ha in H2. apply Hb in H1. lia. }
    f_equal. apply IH; [done|done|]. intros v. split; intros Hv.
    + assert (H1 : v ∈ b :: l2) by (by apply H, elem_of_cons; right).
      apply elem_of_cons in H1 as [->|H1]; [|done]. apply Ha in Hv. lia.
    + assert (H1 : v ∈ b :: l1) by (by apply H, elem_of_cons; right).
      apply elem_of_cons in H1 as [->|H1]; [|done]. apply Hb in Hv. lia.
Qed.

(** ** The metadata accessors *)

Section Metadata.
Context {JSON_DBInfo : JSON DBInfo}.

Lemma getMeta_cached (w : World) (m : DBInfo) :
  dbMetaCache (this w) = Some m -> getMeta w = mkRes (Ok (Some m)) w [].
Proof. intros E. unfold getMeta. rewrite run_bind. simpl. by rewrite E. Qed.

Lemma putMeta_cached (w : World) (m : DBInfo) (p : PartialDBInfo) :
  dbMetaCache (this w) = Some m ->
  rejects (storage w) Write metaKey = false ->
  putMeta p w =
    mkRes (Ok tt)
      (set_items (<[metaKey := stringify (assign_meta m p)]> (items (storage w)))
         (set_dbMetaCache (Some (assign_meta m p)) w)) [].
Proof.
  intros E R. unfold putMeta. rewrite run_bind. simpl. rewrite E.
  unfold setItem. simpl. by rewrite R.
Qed.

Lemma validate_positive (ks : list string) (zs : list Z) (w : World) :
  map parseInt ks = map Int zs -> Forall (fun z => 0 < z) zs ->
  validateMigrationVersionNumbers ks w =
    mkRes (Ok {| passed := true;
                 sortedVersions := Array_sort num_sub (map Int zs) |}) w [].
Proof.
  intros E Hpos. unfold validateMigrationVersionNumbers.
  by rewrite E, (Array_find_positive zs Hpos).
Qed.

End Metadata.

(** ** The migration runner on well-behaved functions *)

Section Migration.
Context {JSON_DBInfo : JSON DBInfo}.

(** [Inv] is what the caller knows of every world a migration function is
    started in; in such worlds the cached metadata record is [m]. *)
Variable Inv : World -> Prop.
Variable m : DBInfo.
Variable N : Z.
Hypothesis Inv_meta : forall w, Inv w -> dbMetaCache (this w) = Some m.
Hypothesis m_version : lastMigrationVersion m = Int N.

Lemma call_respects (f : MigrationFunction) (w : World) :
  Inv w -> respects Inv f ->
  exists b, call f w = mkRes (Ok b) (snd (mf_body f w)) [invoked f]
            /\ fst (mf_body f w) = Ok b /\ Inv (snd (mf_body f w)).
Proof.
  intros HI Hf. destruct (Hf w HI) as [[b Hb] HI']. exists b.
  unfold call. destruct (mf_body f w) as [o w']. simpl in *. by subst o.
Qed.

Lemma run_functions_respects (fs : list MigrationFunction) (w : World) :
  Inv w -> Forall (respects Inv) fs ->
  exists l, run_functions fs w = mkRes (Ok tt) (thread fs w) l
    /\ Inv (thread fs w)
    /\ invoked_of l = fs
    /\ console_of l = map failure_report (failures fs w).
Proof.
  intros HI Hfs. revert w HI.
  induction Hfs as [|f fs Hf _ IH]; intros w HI.
  - by exists [].
  - destruct (call_respects f w HI Hf) as (b & Ec & Eb & HI').
    destruct (IH _ HI') as (l & E & HI'' & E4 & E5).
    cbn [run_functions thread failures].
    rewrite (run_bind_ok _ _ _ _ _ _ Ec), Eb.
    destruct b; cbn [negb].
    + rewrite (run_bind_pure _ _ _ tt eq_refl), E. simpl.
      eexists. split; [reflexivity|]. simpl. by rewrite E4, E5.
    + rewrite (run_bind_ok (emit _) _ _ _ _ _ eq_refl), E. simpl.
      eexists. split; [reflexivity|]. simpl. by rewrite E4, E5.
Qed.

Variable t : MigrationTable.
Hypothesis pending_respect :
  forall v f, N < v -> Int v ∈ versions t -> f ∈ functions_at t v ->
    respects Inv f.

Lemma run_versions_respects (storedMeta : DBInfo) (vs : list Z) :
  Forall (fun v => Int v ∈ versions t /\ is_Some (table_at t (Int v))) vs ->
  forall (w : World) (lmv : number), Inv w ->
  let fs := concat (map (functions_at t) (above N vs)) in
  exists l,
    run_versions t storedMeta (map Int vs) lmv w =
      mkRes (Ok (from_option Int lmv (last (above N vs)))) (thread fs w) l
    /\ Inv (thread fs w)
    /\ invoked_of l = fs
    /\ console_of l = map failure_report (failures fs w).
Proof.
  induction 1 as [|v vs [Hvt [fs Hfs]] _ IH]; intros w lmv HI.
  - by exists [].
  - cbn [map run_versions].
    assert (Es : stored_lastMigrationVersion storedMeta w
                 = mkRes (Ok (Int N)) w []).
    { unfold stored_lastMigrationVersion. rewrite run_bind. simpl.
      rewrite (Inv_meta w HI). simpl. by rewrite m_version. }
    rewrite (run_bind_pure _ _ _ _ Es). unfold num_ge.
    change (above N (v :: vs)) with (if N <? v then v :: above N vs else above N vs).
    destruct (N <? v) eqn:Hv.
    + assert ((v <=? N) = false) as -> by lia.
      assert (Hfa : functions_at t v = fs)
        by (unfold functions_at; by rewrite Hfs).
      rewrite Hfs. cbn [map concat]. rewrite Hfa.
      assert (Hres : Forall (respects Inv) fs).
      { apply Forall_forall. intros f Hf.
        apply (pending_respect v); [lia|done|]. by rewrite Hfa. }
      destruct (run_functions_respects fs w HI Hres)
        as (l1 & E1 & HI1 & E4 & E5).
      destruct (IH (thread fs w) (Int v) HI1) as (l2 & E2 & HI2 & F4 & F5).
      rewrite (run_bind_ok _ _ _ _ _ _ E1), E2. simpl.
      eexists. split; [|split; [|split]].
      * rewrite thread_app. f_equal.
        rewrite last_cons. by destruct (last (above N vs)).
      * by rewrite thread_app.
      * by rewrite invoked_of_app, E4, F4.
      * by rewrite console_of_app, failures_app, E5, F5, map_app.
    + assert ((v <=? N) = true) as -> by lia.
      apply IH, HI.
Qed.

Hypothesis Inv_writable :
  forall w, Inv w -> (exists v, N < v /\ Int v ∈ versions t) ->
    rejects (storage w) Write metaKey = false.
Hypothesis t_valid : valid_table t.

(** A run of [migrate] on a valid table: the pending versions [zs] are
    those above the stored one, ascending; their functions run in that
    order; the highest one is recorded. *)
Lemma migrate_run (w : World) :
  Inv w ->
  exists (zs : list Z) (l : list event),
    StronglySorted Z.lt zs
    /\ (forall v, v ∈ zs <-> N < v /\ Int v ∈ versions t)
    /\ migrate (defined t) w =
         mkRes (Ok true)
           (let w' := thread (concat (map (functions_at t) zs)) w in
            from_option (fun top => persisted m top w') w' (last zs)) l
    /\ Inv (thread (concat (map (functions_at t) zs)) w)
    /\ invoked_of l = concat (map (functions_at t) zs)
    /\ console_of l =
         empty_note t
         ++ map failure_report (failures (concat (map (functions_at t) zs)) w).
Proof.
  intros HI.
  destruct (valid_table_versions t t_valid) as (zs0 & Ev & Hnd & Hpos & Hat).
  destruct (Array_sort_ints zs0) as (zs1 & Es & P & S).
  assert (Hlt : StronglySorted Z.lt (above N zs1)).
  { apply StronglySorted_filter, StronglySorted_le_lt; [by rewrite <- P|done]. }
  assert (Hmem : forall v, v ∈ above N zs1 <-> N < v /\ Int v ∈ versions t).
  { intros v. unfold above. rewrite list_elem_of_In, filter_In.
    rewrite <- list_elem_of_In, <- P, Ev. rewrite Z.ltb_lt.
    split.
    - intros [H1 H2]. split; [done|].
      by apply list_elem_of_In, in_map, list_elem_of_In.
    - intros [H1 H2]. split; [|done].
      apply list_elem_of_In, in_map_iff in H2 as (v' & [= ->] & H2).
      by apply list_elem_of_In. }
  assert (Hat1 : Forall (fun v => Int v ∈ versions t
                                  /\ is_Some (table_at t (Int v))) zs1).
  { rewrite <- P. apply Forall_forall. intros v Hv. split.
    - rewrite Ev. by apply list_elem_of_In, in_map, list_elem_of_In.
    - by apply (proj1 (Forall_forall _ _) Hat). }
  destruct (run_versions_respects m zs1 Hat1 w (Int 0) HI)
    as (l & Er & HI' & E4 & E5).
  exists (above N zs1). eexists. split; [done|]. split; [done|].
  set (fs := concat (map (functions_at t) (above N zs1))) in *.
  assert (Elen : (length (Array_sort num_sub (map Int zs0)) =? 0)%nat
                 = match t with [] => true | _ => false end).
  { rewrite Es, length_map, <- (Permutation_length P), <- (length_map Int), <- Ev.
    unfold versions, Object_keys. rewrite !length_map. by destruct t. }
  split.
  - unfold migrate. apply run_try_ok.
    rewrite (run_bind_pure _ _ _ _ (getMeta_cached w m (Inv_meta w HI))).
    rewrite (run_bind_pure _ _ _ _
               (validate_positive (Object_keys t) zs0 w Ev Hpos)).
    cbn [passed sortedVersions negb]. rewrite Elen.
    assert (Enote : forall k : unit -> M bool,
      ((if match t with [] => true | _ => false end then
          emit (console_info
                  ["Empty migration function table. Skipping migration"])
        else mret tt) ≫= k) w
      = mkRes (out (k tt w)) (after (k tt w)) ((empty_note t) ++ log (k tt w))).
    { intros k. unfold empty_note. by destruct t. }
    rewrite Enote, Es, (run_bind_ok _ _ _ _ _ _ Er).
    destruct (last (above N zs1)) as [top|] eqn:El; cbn [from_option].
    + destruct (StronglySorted_last _ _ Hlt El) as [Hin _].
      apply Hmem in Hin as [Hgt Hin].
      assert (0 < top).
      { rewrite Ev in Hin.
        apply list_elem_of_In, in_map_iff in Hin as (v' & [= ->] & Hin).
        apply (proj1 (Forall_forall _ _) Hpos). by apply list_elem_of_In. }
      assert (num_truthy (Int top) = true) as ->
        by (simpl; destruct (top =? 0) eqn:?; [lia|done]).
      rewrite (run_bind_ok _ _ _ _ _ _
                 (putMeta_cached _ m _ (Inv_meta _ HI')
                    (Inv_writable _ HI' (ex_intro _ top (conj Hgt Hin))))).
      simpl. rewrite !app_nil_r. reflexivity.
    + simpl. rewrite !app_nil_r. reflexivity.
  - split; [done|]. split.
    + rewrite invoked_of_app, E4. unfold empty_note. by destruct t.
    + rewrite console_of_app, E5. f_equal. unfold empty_note. by destruct t.
Qed.

End Migration.

(** ** Facts about the tables of the examples *)

Lemma functions_at_all (t : MigrationTable) (v : Z) (f : MigrationFunction) :
  f ∈ functions_at t v -> f ∈ all_functions t.
Proof.
  unfold functions_at, table_at, all_functions.
  generalize (number_to_string (Int v)) as k.
  induction t as [|[k' fs] t IH]; simpl; intros k.
  - by intros ?%elem_of_nil.
  - destruct (String.eqb k' k); simpl; intros H; apply elem_of_app.
    + by left.
    + right. by eapply IH.
Qed.

Lemma world1_meta : dbMetaCache (this world1) = Some guest.
Proof. vm_compute. reflexivity. Qed.

Lemma migTable2_valid : valid_table migTable2.
Proof.
  split.
  - apply (bool_decide_unpack _). vm_compute. exact I.
  - repeat constructor.
    + exists 1. split; [reflexivity|]. unfold MAX_SAFE_INTEGER. lia.
    + exists 2. split; [reflexivity|]. unfold MAX_SAFE_INTEGER. lia.
Qed.

(** ** C3: pending versions run in ascending order *)




(** The ordering example of the specification: from version 0,
    [{1: [f1, f2], 2: [f3]}] runs [f1], [f2], [f3] and leaves version 2. *)
Example migrate_ordering_example :
  let r := migrate (JSON_DBInfo := demo_JSON_DBInfo) (defined migTable2) world1 in
  out r = Ok true
  /\ invoked_of (log r) = [migration1; migration2; migration3]
  /\ lastMigrationVersion <$> dbMetaCache (this (after r)) = Some (Int 2).
Proof. vm_compute. repeat split. Qed.

(** ** C4: versions already applied are not run again *)

Lemma invoked_of_nil_console (l : list event) :
  invoked_of l = [] -> console_of l = l.
Proof.
  induction l as [|e l IH]; [done|]. destruct e; simpl; try done.
  all: intros H; f_equal; by apply IH.
Qed.

(** C4.  On a store whose metadata record holds version [N], a valid table
    whose versions are all at most [N] makes [migrate] invoke no function
    and leave the world, the stored version included, as it was; it
    returns [true]. *)
Theorem migrate_applied_versions_is_noop
    {JSON_DBInfo : JSON DBInfo} (m : DBInfo) (N : Z)
    (t : MigrationTable) (w : World) :
  dbMetaCache (this w) = Some m ->
  lastMigrationVersion m = Int N ->
  valid_table t ->
  (forall v, Int v ∈ versions t -> v <= N) ->
  out (migrate (defined t) w) = Ok true
  /\ invoked_of (log (migrate (defined t) w)) = []
  /\ after (migrate (defined t) w) = w
  /\ lastMigrationVersion <$> dbMetaCache (this (after (migrate (defined t) w)))
     = Some (Int N).
Proof.
  intros Hmeta Hm Hvalid Hle.
  destruct (migrate_run (fun w' => w' = w) m N) with (t := t) (w := w)
    as (zs & l & Hs & Hmem & E & _ & E4 & _); try done.
  { by intros w' ->. }
  { intros v f Hv Hin _. specialize (Hle v Hin). lia. }
  { intros w' -> (v & Hv & Hin). specialize (Hle v Hin). lia. }
  assert (zs = []) as ->.
  { destruct zs as [|v zs]; [done|]. exfalso.
    assert (Hv : v ∈ v :: zs) by (by apply elem_of_cons; left).
    apply Hmem in Hv as [Hv Hin]. specialize (Hle v Hin). lia. }
  rewrite E. simpl in *. rewrite Hmeta. simpl.
  repeat split; try done. by f_equal.
Qed.

Lemma migrate_applied_versions_is_noop_witness :
  let w := after (migrate (JSON_DBInfo := demo_JSON_DBInfo)
                    (defined migTable2) world1) in
  out (migrate (JSON_DBInfo := demo_JSON_DBInfo) (defined migTable2) w) = Ok true
  /\ invoked_of (log (migrate (JSON_DBInfo := demo_JSON_DBInfo)
                        (defined migTable2) w)) = []
  /\ after (migrate (JSON_DBInfo := demo_JSON_DBInfo) (defined migTable2) w) = w
  /\ lastMigrationVersion
       <$> dbMetaCache (this (after (migrate (JSON_DBInfo := demo_JSON_DBInfo)
                                       (defined migTable2) w)))
     = Some (Int 2).
Proof.
  apply (migrate_applied_versions_is_noop (JSON_DBInfo := demo_JSON_DBInfo)
           (advanced guest 2) 2).
  - vm_compute. reflexivity.
  - reflexivity.
  - exact migTable2_valid.
  - intros v Hv. vm_compute in Hv.
    apply elem_of_cons in Hv as [[= ->]|Hv]; [lia|].
    apply elem_of_cons in Hv as [[= ->]|Hv]; [lia|].
    by apply elem_of_nil in Hv.
Defined.

(** ** C5: a failing migration function does not stop the run *)





(** The failing function of the example is reported by name and the run
    goes on to version 2. *)
Example failing_migration_example :
  let r := migrate (JSON_DBInfo := demo_JSON_DBInfo) (defined migTableF) world1 in
  out r = Ok true
  /\ invoked_of (log r) = [migration1; failing2; migration3]
  /\ console_of (log r)
     = [console_error ["Migration function "; "migration2";
                       " returned false. Migration might have failed"]]
  /\ lastMigrationVersion <$> dbMetaCache (this (after r)) = Some (Int 2).
Proof. vm_compute. repeat split. Qed.

(** ** C1: version keys that are not positive integers *)

(** C1.  What the code does on tables with a version key that is not a
    positive integer, on the store [world1] (version 0).
    - [{ 0: [migration1] }]: [find] returns the offending element [0], which
      is falsy, so the validation passes; [migrate] returns [true].
    - [{ NaN: [migration1] }]: [parseInt] answers [NaN] without throwing and
      [NaN <= 0] is false, so the validation passes; [0 >= NaN] is false, so
      [migration1] is run; [migrate] returns [true].
    - [{ 1: [migration1], abc: [migration2] }]: the validation passes,
      [migration1] is run, and only then iterating [table[NaN]] throws;
      [migrate] returns [false] after having executed a migration function.
    In none of the three runs is the stored version changed. *)
Theorem migrate_accepts_invalid_version_keys :
  let run t := migrate (JSON_DBInfo := demo_JSON_DBInfo) (defined t) world1 in
  (out (run [("0", [migration1])]) = Ok true
   /\ invoked_of (log (run [("0", [migration1])])) = []
   /\ after (run [("0", [migration1])]) = world1)
  /\ (out (run [("NaN", [migration1])]) = Ok true
      /\ invoked_of (log (run [("NaN", [migration1])])) = [migration1]
      /\ after (run [("NaN", [migration1])]) = world1)
  /\ (out (run [("1", [migration1]); ("abc", [migration2])]) = Ok false
      /\ invoked_of (log (run [("1", [migration1]); ("abc", [migration2])]))
         = [migration1]
      /\ after (run [("1", [migration1]); ("abc", [migration2])]) = world1).
Proof. vm_compute. repeat split. Qed.

(** The validation itself: it rejects a negative key and lets [0] and text
    that is no number pass. *)
Example validation_examples :
  let passes ks := passed <$> out_value (validateMigrationVersionNumbers ks world1) in
  passes ["-1"] = Some false
  /\ passes ["0"] = Some true
  /\ passes ["abc"] = Some true
  /\ passes ["0"; "-1"] = Some true.
Proof. vm_compute. repeat split. Qed.

(** ** C2: a table without entries *)

(** C2 fails as stated: on the initialized store [world1], [migrate({})]
    returns [true]. *)
Lemma migrate_empty_table_counterexample :
  out (migrate (JSON_DBInfo := demo_JSON_DBInfo) (defined []) world1) = Ok true
  /\ out (migrate (JSON_DBInfo := demo_JSON_DBInfo) (defined []) world1)
     <> Ok false.
Proof. vm_compute. split; [reflexivity|discriminate]. Qed.

(** C2, amended.  A falsy table argument makes [migrate] log an error and
    return [false].  An empty table makes it invoke nothing and leave the
    world as it is; it returns [true], after an informational note, when the
    metadata record exists, and [false] when there is none. *)
Theorem migrate_without_entries {JSON_DBInfo : JSON DBInfo} (w : World) :
  (forall t : nullable MigrationTable, is_truthy t = false ->
     migrate t w =
       mkRes (Ok false) w
         [console_error ["Migration function table must be non-empty"]])
  /\ (forall m, dbMetaCache (this w) = Some m ->
        migrate (defined []) w =
          mkRes (Ok true) w
            [console_info ["Empty migration function table. Skipping migration"]])
  /\ (dbMetaCache (this w) = None ->
      items (storage w) !! metaKey = None ->
      rejects (storage w) Read metaKey = false ->
      migrate (defined []) w =
        mkRes (Ok false) w
          [console_info ["No database exists. Skipping migration."]]).
Proof.
  split; [|split].
  - by intros [| |t] Ht.
  - intros m Hm. unfold migrate. apply run_try_ok.
    by rewrite (run_bind_pure _ _ _ _ (getMeta_cached w m Hm)).
  - intros Hm Hi Hr. unfold migrate. apply run_try_ok.
    assert (E : getMeta w = mkRes (Ok None) w []).
    { unfold getMeta. rewrite run_bind. simpl. rewrite Hm.
      unfold getItem. rewrite run_bind. simpl. rewrite Hr, Hi. simpl.
      by rewrite Hm. }
    by rewrite (run_bind_pure _ _ _ _ E).
Qed.

Lemma migrate_without_entries_witness :
  migrate (JSON_DBInfo := demo_JSON_DBInfo) null world1 =
    mkRes (Ok false) world1
      [console_error ["Migration function table must be non-empty"]]
  /\ migrate (JSON_DBInfo := demo_JSON_DBInfo) (defined []) world1 =
       mkRes (Ok true) world1
         [console_info ["Empty migration function table. Skipping migration"]]
  /\ migrate (JSON_DBInfo := demo_JSON_DBInfo) (defined []) fresh_world =
       mkRes (Ok false) fresh_world
         [console_info ["No database exists. Skipping migration."]].
Proof.
  split; [|split].
  - apply (proj1 (migrate_without_entries (JSON_DBInfo := demo_JSON_DBInfo)
                    world1)).
    reflexivity.
  - apply (proj1 (proj2 (migrate_without_entries
                           (JSON_DBInfo := demo_JSON_DBInfo) world1)) guest).
    vm_compute. reflexivity.
  - apply (proj2 (proj2 (migrate_without_entries
                           (JSON_DBInfo := demo_JSON_DBInfo) fresh_world))).
    + reflexivity.
    + reflexivity.
    + reflexivity.
Defined.

(** ** The common beginning of [get], [put], [del] and [update] *)

Section Operations.
Context {JSON_DBInfo : JSON DBInfo} {JSON_object : JSON (gmap string value)}.

Lemma getMeta_cases (w : World) :
  (exists m, dbMetaCache (this w) = Some m
             /\ getMeta w = mkRes (Ok (Some m)) w [])
  \/ (dbMetaCache (this w) = None
      /\ ((exists e, getMeta w = mkRes (Throw e) w [])
          \/ (stored_meta w = None /\ getMeta w = mkRes (Ok None) w [])
          \/ (exists m, stored_meta w = Some m
                /\ getMeta w
                   = mkRes (Ok (Some m)) (set_dbMetaCache (Some m) w) []))).
Proof.
  destruct (dbMetaCache (this w)) as [m|] eqn:Em.
  - left. exists m. split; [done|]. by apply getMeta_cached.
  - right. split; [done|].
    unfold getMeta, stored_meta. rewrite run_bind. simpl. rewrite Em.
    rewrite run_bind. unfold getItem.
    destruct (rejects (storage w) Read metaKey); simpl; [left; eauto|].
    destruct (items (storage w) !! metaKey) as [s|]; simpl.
    + destruct (str_truthy s); simpl.
      * unfold JSON_parse. destruct (parse s) as [m|]; simpl.
        -- right. right. eauto.
        -- left. eauto.
      * right. left. by rewrite Em.
    + right. left. by rewrite Em.
Qed.

Lemma meta_view_cached (w : World) (m : DBInfo) :
  dbMetaCache (this w) = Some m -> meta_view w = Some m.
Proof. unfold meta_view. by intros ->. Qed.

Lemma meta_view_uncached (w : World) :
  dbMetaCache (this w) = None -> meta_view w = stored_meta w.
Proof. unfold meta_view. by intros ->. Qed.

(** What [getMeta] leaves behind: at most a freshly cached record, which is
    the one the instance was already working with. *)
Lemma getMeta_spec (w : World) :
  let r := getMeta w in
  log r = []
  /\ dbCache (this (after r)) = dbCache (this w)
  /\ (forall o, out r = Ok o -> dbMetaCache (this (after r)) = o)
  /\ (forall m, meta_view w = Some m ->
        meta_view (after r) = Some m
        /\ (forall o, out r = Ok o -> o = Some m)).
Proof.
  destruct (getMeta_cases w)
    as [(m & Em & E)|(Em & [(e & E)|[(Es & E)|(m & Es & E)]])];
    cbv zeta; rewrite E; simpl.
  - rewrite (meta_view_cached w m Em).
    repeat split; try done; by intros ? [= <-].
  - repeat split; done.
  - rewrite (meta_view_uncached w Em), Es.
    repeat split; try done. by intros ? [= <-].
  - rewrite (meta_view_uncached w Em), Es.
    repeat split; try done; by intros ? [= <-].
Qed.

Lemma init_spec (w : World) :
  let r := init w in
  log r = []
  /\ (out r = Ok tt -> exists m, initialized (after r) m ∅)
  /\ (forall m, meta_view w = Some m ->
        meta_view (after r) = Some m
        /\ (out r = Ok tt -> dbMetaCache (this (after r)) = Some m)).
Proof.
  unfold init.
  destruct (getMeta_cases w)
    as [(m & Em & E)|(Em & [(e & E)|[(Es & E)|(m & Es & E)]])]; cbv zeta.
  - rewrite (run_bind_pure _ _ _ _ E). simpl.
    rewrite (meta_view_cached w m Em).
    split; [done|]. split; [intros _; exists m; by split|].
    intros ? [= <-]. split; [by apply meta_view_cached|done].
  - rewrite (run_bind_throw _ _ _ _ _ _ E). simpl. by repeat split.
  - rewrite (run_bind_pure _ _ _ _ E), (meta_view_uncached w Em), Es.
    rewrite run_bind. unfold putMeta. rewrite !run_bind. simpl.
    rewrite Em. unfold setItem. simpl.
    destruct (rejects (storage w) Write metaKey); simpl.
    + by repeat split.
    + split; [done|]. split; [|done]. intros _. eexists. by split.
  - rewrite (run_bind_ok _ _ _ _ _ _ E). simpl.
    rewrite (meta_view_uncached w Em), Es.
    split; [done|]. split; [intros _; exists m; by split|].
    intros ? [= <-]. split; [by apply meta_view_cached|done].
Qed.

Lemma ensure_init_spec (w : World) :
  let r := ensure_init w in
  log r = []
  /\ (out r = Ok tt ->
        dbCache (this (after r)) = Some (default ∅ (dbCache (this w))))
  /\ (forall m, meta_view w = Some m -> meta_view (after r) = Some m).
Proof.
  unfold ensure_init. cbv zeta. rewrite run_bind. simpl.
  destruct (dbCache (this w)) as [c|] eqn:Ec; simpl.
  - by rewrite Ec.
  - destruct (init_spec w) as (Hl & Hok & Hv). cbv zeta in *.
    destruct (init w) as [o w0 l]. simpl in *. subst l.
    split; [done|]. split.
    + intros Ho. destruct (Hok Ho) as (m & _ & Hc). done.
    + intros m Hm. by apply Hv.
Qed.

Lemma makeUserKey_spec (k : string) (w : World) :
  let r := makeUserKey k w in
  log r = []
  /\ dbCache (this (after r)) = dbCache (this w)
  /\ (forall uk, out r = Ok uk ->
        exists m, dbMetaCache (this (after r)) = Some m /\ uk = user_key m k)
  /\ (forall m, meta_view w = Some m ->
        meta_view (after r) = Some m
        /\ (forall uk, out r = Ok uk -> dbMetaCache (this (after r)) = Some m)).
Proof.
  unfold makeUserKey. cbv zeta. rewrite run_bind.
  destruct (getMeta_spec w) as (Hl & Hc & Ho & Hv). cbv zeta in *.
  destruct (getMeta w) as [o w' l]. simpl in *. subst l.
  destruct o as [[m|]|e]; simpl.
  - split; [done|]. split; [done|]. split.
    + intros uk [= <-]. exists m. split; [by apply Ho|done].
    + intros m' Hm'. destruct (Hv m' Hm') as [Hv1 Hv2].
      split; [done|]. intros uk _. rewrite (Ho _ eq_refl).
      by apply Hv2.
  - split; [done|]. split; [done|]. split; [done|].
    intros m' Hm'. by destruct (Hv m' Hm').
  - split; [done|]. split; [done|]. split; [done|].
    intros m' Hm'. by destruct (Hv m' Hm').
Qed.

(** After a successful beginning the instance is initialized, the key is the
    user's, and the cache is the one there was (or a new, empty one). *)
Lemma prelude_spec (k : string) (w : World) :
  let r := prelude k w in
  log r = []
  /\ (forall uk, out r = Ok uk ->
        exists m, initialized (after r) m (default ∅ (dbCache (this w)))
                  /\ uk = user_key m k)
  /\ (forall m, meta_view w = Some m ->
        meta_view (after r) = Some m
        /\ (forall uk, out r = Ok uk -> dbMetaCache (this (after r)) = Some m)).
Proof.
  unfold prelude. cbv zeta. rewrite run_bind.
  destruct (ensure_init_spec w) as (Hl & Hc & Hv). cbv zeta in *.
  destruct (ensure_init w) as [o w0 l]. simpl in *. subst l.
  destruct o as [[]|e]; simpl.
  - destruct (makeUserKey_spec k w0) as (Hl' & Hc' & Ho' & Hv'). cbv zeta in *.
    destruct (makeUserKey k w0) as [o1 w1 l1]. simpl in *. subst l1.
    split; [done|]. split.
    + intros uk Huk. destruct (Ho' uk Huk) as (m & Hm & ->).
      exists m. split; [|done]. split; [done|]. by rewrite Hc', Hc.
    + intros m Hm. apply Hv', Hv, Hm.
  - split; [done|]. split; [done|]. intros m Hm.
    split; [by apply Hv|done].
Qed.

Lemma ensure_init_cached (w : World) c :
  dbCache (this w) = Some c -> ensure_init w = mkRes (Ok tt) w [].
Proof. intros Hc. unfold ensure_init. rewrite run_bind. simpl. by rewrite Hc. Qed.

Lemma makeUserKey_cached (k : string) (w : World) m :
  dbMetaCache (this w) = Some m ->
  makeUserKey k w = mkRes (Ok (user_key m k)) w [].
Proof.
  intros Hm. unfold makeUserKey.
  by rewrite (run_bind_pure _ _ _ _ (getMeta_cached w m Hm)).
Qed.

Lemma prelude_initialized (k : string) (w : World) m c :
  initialized w m c -> prelude k w = mkRes (Ok (user_key m k)) w [].
Proof.
  intros [Hm Hc]. unfold prelude.
  rewrite (run_bind_pure _ _ _ _ (ensure_init_cached w c Hc)).
  by apply makeUserKey_cached.
Qed.

Lemma the_cache_initialized (w : World) m c :
  initialized w m c -> the_cache w = mkRes (Ok c) w [].
Proof. intros [_ Hc]. unfold the_cache. rewrite run_bind. simpl. by rewrite Hc. Qed.

Lemma cache_set_initialized (uk : string) (o : object) (w : World) m c :
  initialized w m c ->
  cache_set uk o w = mkRes (Ok tt) (set_dbCache (Some (<[uk := o]> c)) w) [].
Proof.
  intros H. unfold cache_set.
  by rewrite (run_bind_pure _ _ _ _ (the_cache_initialized w m c H)).
Qed.

Lemma initialized_set_dbCache (w : World) m c c' :
  initialized w m c -> initialized (set_dbCache (Some c') w) m c'.
Proof. by intros [Hm _]. Qed.

Lemma bind_prelude {A} (tail : string -> M A) (k : string) (w : World) :
  (prelude k ≫= tail) w =
  match out (prelude k w) with
  | Ok uk => tail uk (after (prelude k w))
  | Throw e => mkRes (Throw e) (after (prelude k w)) []
  end.
Proof.
  rewrite run_bind. destruct (prelude_spec k w) as (Hl & _). cbv zeta in Hl.
  rewrite Hl. by destruct (out (prelude k w)).
Qed.

(** *** [get] *)

Lemma get_from_prelude (k : string) (w : World) :
  str_truthy k = true -> get k w = (prelude k ≫= get_tail) w.
Proof.
  intros Hk. unfold get. rewrite Hk. simpl. unfold prelude.
  by rewrite run_bind_assoc.
Qed.

(** [get] on any world is [get] on the world its beginning leaves. *)
Lemma get_after_prelude (k uk : string) (w : World) :
  str_truthy k = true -> out (prelude k w) = Ok uk ->
  get k w = get k (after (prelude k w)).
Proof.
  intros Hk Ho. rewrite !get_from_prelude, !bind_prelude by done.
  destruct (prelude_spec k w) as (_ & Hok & _). cbv zeta in Hok.
  destruct (Hok uk Ho) as (m & Hi & ->).
  by rewrite Ho, (prelude_initialized k _ m _ Hi).
Qed.

Lemma get_initialized (k : string) (w : World) m c :
  str_truthy k = true -> initialized w m c ->
  get k w = get_tail (user_key m k) w.
Proof.
  intros Hk Hi. rewrite get_from_prelude, bind_prelude by done.
  by rewrite (prelude_initialized k w m c Hi).
Qed.

Lemma get_tail_hit (uk : string) (w : World) m c o :
  initialized w m c -> c !! uk = Some o ->
  get_tail uk w = mkRes (Ok (defined o)) w [].
Proof.
  intros Hi Hc. unfold get_tail.
  rewrite (run_bind_pure _ _ _ _ (the_cache_initialized w m c Hi)).
  by rewrite Hc.
Qed.

Lemma get_tail_load (uk : string) (w : World) m c s o :
  initialized w m c -> c !! uk = None ->
  rejects (storage w) Read uk = false ->
  items (storage w) !! uk = Some s -> str_truthy s = true ->
  parse s = Some o ->
  get_tail uk w
  = mkRes (Ok (defined o)) (set_dbCache (Some (<[uk := o]> c)) w) [].
Proof.
  intros Hi Hc Hr Hs Ht Hp. unfold get_tail.
  rewrite (run_bind_pure _ _ _ _ (the_cache_initialized w m c Hi)), Hc.
  apply run_try_ok.
  assert (E : getItem uk w = mkRes (Ok (Some s)) w [])
    by (unfold getItem; by rewrite Hr, Hs).
  rewrite (run_bind_pure _ _ _ _ E). simpl. rewrite Ht.
  unfold JSON_parse. rewrite Hp.
  rewrite (run_bind_pure _ _ _ o eq_refl).
  by rewrite (run_bind_ok _ _ _ _ _ _ (cache_set_initialized uk o w m c Hi)).
Qed.

Lemma get_tail_absent (uk : string) (w : World) m c :
  initialized w m c -> c !! uk = None ->
  rejects (storage w) Read uk = false ->
  opt_str_truthy (items (storage w) !! uk) = false ->
  get_tail uk w = mkRes (Ok undefined) w [].
Proof.
  intros Hi Hc Hr Hs. unfold get_tail.
  rewrite (run_bind_pure _ _ _ _ (the_cache_initialized w m c Hi)), Hc.
  apply run_try_ok.
  assert (E : getItem uk w = mkRes (Ok (items (storage w) !! uk)) w [])
    by (unfold getItem; by rewrite Hr).
  by rewrite (run_bind_pure _ _ _ _ E), Hs.
Qed.

Lemma get_tail_read_fails (uk : string) (w : World) m c :
  initialized w m c -> c !! uk = None ->
  rejects (storage w) Read uk = true ->
  get_tail uk w
  = mkRes (Ok undefined) w [console_error_exn (StorageFailure Read uk)].
Proof.
  intros Hi Hc Hr. unfold get_tail.
  rewrite (run_bind_pure _ _ _ _ (the_cache_initialized w m c Hi)), Hc.
  assert (E : getItem uk w = mkRes (Throw (StorageFailure Read uk)) w [])
    by (unfold getItem; by rewrite Hr).
  rewrite (run_try_throw _ _ w (StorageFailure Read uk) w []); [done|].
  by apply run_bind_throw.
Qed.

Lemma get_tail_parse_fails (uk : string) (w : World) m c s :
  initialized w m c -> c !! uk = None ->
  rejects (storage w) Read uk = false ->
  items (storage w) !! uk = Some s -> str_truthy s = true ->
  parse (A := gmap string value) s = None ->
  get_tail uk w = mkRes (Ok undefined) w [console_error_exn SyntaxError].
Proof.
  intros Hi Hc Hr Hs Ht Hp. unfold get_tail.
  rewrite (run_bind_pure _ _ _ _ (the_cache_initialized w m c Hi)), Hc.
  assert (E : getItem uk w = mkRes (Ok (Some s)) w [])
    by (unfold getItem; by rewrite Hr, Hs).
  rewrite (run_try_throw _ _ w SyntaxError w []); [done|].
  rewrite (run_bind_pure _ _ _ _ E). simpl. rewrite Ht.
  apply run_bind_throw. unfold JSON_parse. by rewrite Hp.
Qed.

(** *** [put] *)

Lemma put_from_prelude (k : string) (o : object) (w : World) :
  str_truthy k = true ->
  put k (defined o) w = (prelude k ≫= put_tail o) w.
Proof.
  intros Hk. unfold put. rewrite Hk. simpl. unfold prelude.
  by rewrite run_bind_assoc.
Qed.

Lemma put_tail_ok (o : object) (uk : string) (w w1 : World) m c l :
  initialized w m c ->
  put_tail o uk w = mkRes (Ok tt) w1 l ->
  rejects (storage w) Write uk = false
  /\ w1 = set_items (<[uk := stringify o]> (items (storage w)))
            (set_dbCache (Some (<[uk := o]> c)) w)
  /\ l = [].
Proof.
  intros Hi. unfold put_tail.
  rewrite (run_bind_ok _ _ _ _ _ _ (cache_set_initialized uk o w m c Hi)).
  unfold setItem. simpl.
  destruct (rejects (storage w) Write uk); simpl; [done|].
  by intros [= <- <-].
Qed.

(** A [put] that returned left an initialized instance whose cache holds the
    value under the user's key and whose store holds its JSON text. *)
Lemma put_ok (k : string) (o : object) (w w1 : World) l :
  put k (defined o) w = mkRes (Ok tt) w1 l ->
  str_truthy k = true
  /\ l = []
  /\ exists m c, initialized w1 m c
       /\ c !! user_key m k = Some o
       /\ items (storage w1) !! user_key m k = Some (stringify o).
Proof.
  intros E. destruct (str_truthy k) eqn:Hk; [|by unfold put in E; rewrite Hk in E].
  split; [done|].
  rewrite put_from_prelude, bind_prelude in E by done.
  destruct (prelude_spec k w) as (_ & Hok & _). cbv zeta in Hok.
  destruct (out (prelude k w)) as [uk|e] eqn:Ho; [|done].
  destruct (Hok uk eq_refl) as (m & Hi & ->).
  destruct (put_tail_ok _ _ _ _ _ _ _ Hi E) as (Hr & -> & ->).
  split; [done|]. exists m. eexists. split; [|split].
  - by eapply initialized_set_dbCache.
  - apply lookup_insert_eq.
  - apply lookup_insert_eq.
Qed.

(** *** [update] *)

Lemma update_from_prelude (k : string) (p : object) (w : World) :
  str_truthy k = true ->
  update k (defined p) w = (prelude k ≫= update_tail p) w.
Proof.
  intros Hk. unfold update. rewrite Hk. simpl. unfold prelude.
  by rewrite run_bind_assoc.
Qed.



(** [Object.assign] is a shallow merge: a property of the source wins, any
    other property of the target stays. *)
Lemma Object_assign_lookup (target source : object) (f : string) :
  Object_assign target source !! f
  = match source !! f with
    | Some x => Some x
    | None => target !! f
    end.
Proof.
  unfold Object_assign. rewrite lookup_union.
  by destruct (source !! f), (target !! f).
Qed.

(** ** C9: [put] then [get] *)

(** C9.  After a [put(k, o)] that returned, [get(k)] returns [o] from the
    cache, changing nothing.  If the runtime's JSON reads back [o] from the
    text it prints for it and the store can be read, then [get(k)] after
    [purgeCache()] returns [o] as well, and the cache holds [o] again under
    the user's key. *)
Theorem put_then_get_returns_the_value
    (k : string) (o : object) (w w1 : World) (l : list event) :
  put k (defined o) w = mkRes (Ok tt) w1 l ->
  exists m, dbMetaCache (this w1) = Some m
    /\ cached w1 (user_key m k) = Some o
    /\ get k w1 = mkRes (Ok (defined o)) w1 []
    /\ (parse (stringify o) = Some o ->
        str_truthy (stringify o) = true ->
        rejects (storage w1) Read (user_key m k) = false ->
        get k (after (purgeCache w1))
        = mkRes (Ok (defined o))
            (set_dbCache (Some {[user_key m k := o]}) w1) []).
Proof.
  intros E. destruct (put_ok _ _ _ _ _ E) as (Hk & _ & m & c & Hi & Hc & Hs).
  exists m. split; [by destruct Hi|]. split.
  { unfold cached. destruct Hi as [_ ->]. done. }
  split.
  - rewrite (get_initialized k w1 m c Hk Hi). by eapply get_tail_hit.
  - intros Hp Ht Hr.
    assert (Hi' : initialized (after (purgeCache w1)) m ∅) by (by destruct Hi).
    rewrite (get_initialized k _ m ∅ Hk Hi').
    rewrite (get_tail_load _ _ m ∅ (stringify o) o Hi'); try done.
    all: by rewrite ?insert_empty.
Qed.

(** ** C7: [update] merges in the cache and stores the fragment *)


(** ** C8: failures while [get] reads the value *)

(** C8, amended.  Let the beginning of [get(k)] (initialization and key
    resolution) succeed with key [uk], leaving world [w0], and let the cache
    have no entry for [uk].  If reading [uk] from the store fails, or the
    text found there is no JSON, [get] logs the exception and returns
    [undefined] in world [w0]: the value and the world that a never-stored
    key gives.  But if the metadata record is not cached and reading it
    fails, [get] throws that failure. *)
Theorem get_swallows_failures_of_the_value_read (k : string) (w : World) :
  str_truthy k = true ->
  (forall uk, out (prelude k w) = Ok uk ->
     let w0 := after (prelude k w) in
     cached w0 uk = None ->
     (rejects (storage w0) Read uk = true ->
        get k w = mkRes (Ok undefined) w0
                    [console_error_exn (StorageFailure Read uk)])
     /\ (rejects (storage w0) Read uk = false ->
         forall s, items (storage w0) !! uk = Some s -> str_truthy s = true ->
         parse (A := gmap string value) s = None ->
         get k w = mkRes (Ok undefined) w0 [console_error_exn SyntaxError])
     /\ (rejects (storage w0) Read uk = false ->
         items (storage w0) !! uk = None ->
         get k w = mkRes (Ok undefined) w0 []))
  /\ (dbMetaCache (this w) = None ->
      rejects (storage w) Read metaKey = true ->
      get k w = mkRes (Throw (StorageFailure Read metaKey)) w []).
Proof.
  intros Hk. split.
  - intros uk Ho w0 Hc. subst w0.
    destruct (prelude_spec k w) as (_ & Hok & _). cbv zeta in Hok.
    destruct (Hok uk Ho) as (m & Hi & ->).
    rewrite (get_after_prelude k _ w Hk Ho).
    rewrite (get_initialized k _ m _ Hk Hi).
    assert (Hc' : default ∅ (dbCache (this w)) !! user_key m k = None).
    { unfold cached in Hc. destruct Hi as [_ Hi]. by rewrite Hi in Hc. }
    split; [|split].
    + intros Hr. by eapply get_tail_read_fails.
    + intros Hr s Hs Ht Hp. by eapply get_tail_parse_fails.
    + intros Hr Hs. eapply get_tail_absent; try done. by rewrite Hs.
  - intros Hm Hr.
    assert (E : getMeta w = mkRes (Throw (StorageFailure Read metaKey)) w []).
    { unfold getMeta. rewrite run_bind. simpl. rewrite Hm.
      apply run_bind_throw. unfold getItem. by rewrite Hr. }
    rewrite get_from_prelude by done. apply run_bind_throw.
    unfold prelude, ensure_init. rewrite !run_bind. simpl.
    destruct (dbCache (this w)) as [c|]; simpl.
    + unfold makeUserKey. by rewrite (run_bind_throw _ _ _ _ _ _ E).
    + unfold init. by rewrite (run_bind_throw _ _ _ _ _ _ E).
Qed.

(** ** C10: [cacheGet] *)


End Operations.

(** ** A migration function that uses the store *)

Section StoreUsers.
Context {JSON_DBInfo : JSON DBInfo} {JSON_object : JSON (gmap string value)}.

(** With the metadata record cached, the beginning of an operation at most
    creates the cache. *)
Lemma prelude_meta_cached (k : string) (w : World) m :
  dbMetaCache (this w) = Some m ->
  prelude k w
  = mkRes (Ok (user_key m k))
      (set_dbCache (Some (default ∅ (dbCache (this w)))) w) [].
Proof.
  intros Hm. destruct (dbCache (this w)) as [c|] eqn:Hc.
  - rewrite (prelude_initialized k w m c (conj Hm Hc)). simpl.
    by rewrite <- Hc.
  - unfold prelude.
    assert (E : ensure_init w = mkRes (Ok tt) (set_dbCache (Some ∅) w) []).
    { unfold ensure_init. rewrite run_bind. simpl. rewrite Hc. unfold init.
      by rewrite (run_bind_pure _ _ _ _ (getMeta_cached w m Hm)). }
    rewrite (run_bind_ok _ _ _ _ _ _ E). simpl.
    by rewrite (makeUserKey_cached k (set_dbCache (Some ∅) w) m).
Qed.


End StoreUsers.



(** Version 1 rewrites the stored value, version 2 runs after it, and the
    value read afterwards is the rewritten one. *)
Example migrate_with_a_function_that_uses_the_store :
  let r := migrate (JSON_DBInfo := demo_JSON_DBInfo) (defined migTableB) world1 in
  out r = Ok true
  /\ map mf_name (invoked_of (log r))
     = ["migration1"; "bumpTesting"; "migration3"]
  /\ lastMigrationVersion <$> dbMetaCache (this (after r)) = Some (Int 2)
  /\ out (demo_get "testing" (after r))
     = Ok (defined {["ver" := VNumber (Int 4)]}).
Proof. vm_compute. repeat split. Qed.

(** ** Examples for the key operations *)

Lemma put_then_get_returns_the_value_witness :
  demo_get "testing" world1 = mkRes (Ok (defined ver3)) world1 []
  /\ demo_get "testing" (after (purgeCache world1))
     = mkRes (Ok (defined ver3))
         (set_dbCache (Some {["guest:testing" := ver3]}) world1) [].
Proof.
  destruct (put_then_get_returns_the_value
              (JSON_DBInfo := demo_JSON_DBInfo) (JSON_object := demo_JSON_object)
              "testing" ver3 fresh_world world1 [] eq_refl)
    as (m & Hm & _ & Hget & Hpurged).
  rewrite world1_meta in Hm. injection Hm as <-.
  split; [exact Hget|]. apply Hpurged; reflexivity.
Defined.


(** C8 fails as stated: on a new instance over a store that cannot be read,
    [get('testing')] throws the failure of the metadata read. *)
Lemma get_propagates_metadata_failure_counterexample :
  out (demo_get "testing" unreadable_world)
  = Throw (StorageFailure Read metaKey)
  /\ out (demo_get "testing" unreadable_world) <> Ok undefined.
Proof. vm_compute. split; [reflexivity|discriminate]. Qed.

Lemma get_swallows_failures_of_the_value_read_witness :
  demo_get "testing" world_faulty
  = mkRes (Ok undefined) world_faulty
      [console_error_exn (StorageFailure Read "guest:testing")]
  /\ demo_get "junk" world_faulty
     = mkRes (Ok undefined) world_faulty [console_error_exn SyntaxError]
  /\ demo_get "absent" world_faulty = mkRes (Ok undefined) world_faulty []
  /\ demo_get "testing" unreadable_world
     = mkRes (Throw (StorageFailure Read metaKey)) unreadable_world [].
Proof.
  split; [|split; [|split]].
  - apply (proj1 (proj1 (get_swallows_failures_of_the_value_read
                           (JSON_DBInfo := demo_JSON_DBInfo)
                           (JSON_object := demo_JSON_object)
                           "testing" world_faulty eq_refl)
                    "guest:testing" eq_refl eq_refl)).
    reflexivity.
  - apply (proj1 (proj2 (proj1 (get_swallows_failures_of_the_value_read
                                  (JSON_DBInfo := demo_JSON_DBInfo)
                                  (JSON_object := demo_JSON_object)
                                  "junk" world_faulty eq_refl)
                           "guest:junk" eq_refl eq_refl)) eq_refl "not json");
      reflexivity.
  - apply (proj2 (proj2 (proj1 (get_swallows_failures_of_the_value_read
                                  (JSON_DBInfo := demo_JSON_DBInfo)
                                  (JSON_object := demo_JSON_object)
                                  "absent" world_faulty eq_refl)
                           "guest:absent" eq_refl eq_refl)));
      reflexivity.
  - apply (proj2 (get_swallows_failures_of_the_value_read
                    (JSON_DBInfo := demo_JSON_DBInfo)
                    (JSON_object := demo_JSON_object)
                    "testing" unreadable_world eq_refl));
      reflexivity.
Defined.


(** ** Sequences of public operations *)

Lemma preserves_bind {A B C} (proj : World -> C) (m : M A) (k : A -> M B) :
  preserves proj m -> (forall a, preserves proj (k a)) ->
  preserves proj (m ≫= k).
Proof.
  intros Hm Hk w. rewrite run_bind. specialize (Hm w).
  destruct (m w) as [[a|e] w' l]; simpl in *; [|done].
  by rewrite (Hk a w').
Qed.

Lemma preserves_ret {A B} (proj : World -> B) (a : A) : preserves proj (mret a).
Proof. done. Qed.

Lemma preserves_throw {A B} (proj : World -> B) (e : exn) :
  preserves proj (throw (A := A) e).
Proof. done. Qed.

Lemma preserves_emit {B} (proj : World -> B) (e : event) :
  preserves proj (emit e).
Proof. done. Qed.

Lemma preserves_get_world {B} (proj : World -> B) : preserves proj get_world.
Proof. done. Qed.

Lemma preserves_try {A B} (proj : World -> B) (body : M A)
    (handler : exn -> M A) :
  preserves proj body -> (forall e, preserves proj (handler e)) ->
  preserves proj (try_catch body handler).
Proof.
  intros Hb Hh w. unfold try_catch. specialize (Hb w).
  destruct (body w) as [[a|e] w' l]; simpl in *; [done|].
  by rewrite (Hh e w').
Qed.

Lemma preserves_if {A B} (proj : World -> B) (b : bool) (m1 m2 : M A) :
  preserves proj m1 -> preserves proj m2 ->
  preserves proj (if b then m1 else m2).
Proof. by destruct b. Qed.

Lemma preserves_modify {B} (proj : World -> B) (f : World -> World) :
  (forall w, proj (f w) = proj w) -> preserves proj (modify f).
Proof. intros Hf w. apply Hf. Qed.

Lemma preserves_getItem {B} (proj : World -> B) k : preserves proj (getItem k).
Proof. intros w. unfold getItem. by destruct (rejects (storage w) Read k). Qed.

Lemma preserves_setItem {B} (proj : World -> B) k v :
  (forall w, proj (set_items (<[k := v]> (items (storage w))) w) = proj w) ->
  preserves proj (setItem k v).
Proof.
  intros H w. unfold setItem.
  destruct (rejects (storage w) Write k); [done|apply H].
Qed.

Lemma preserves_removeItem {B} (proj : World -> B) k :
  (forall w, proj (set_items (delete k (items (storage w))) w) = proj w) ->
  preserves proj (removeItem k).
Proof.
  intros H w. unfold removeItem.
  destruct (rejects (storage w) Remove k); [done|apply H].
Qed.

Lemma preserves_JSON_parse `{JSON A} {B} (proj : World -> B) s :
  preserves proj (JSON_parse (A := A) s).
Proof. intros w. unfold JSON_parse. by destruct (parse s). Qed.

Lemma preserves_call f : keeps_metadata f -> preserves cached_meta (call f).
Proof.
  intros Hf w. unfold call. specialize (Hf w).
  by destruct (mf_body f w) as [o w'].
Qed.

Ltac preserves := repeat (intros; first
  [ apply preserves_bind | apply preserves_try | apply preserves_if
  | apply preserves_ret | apply preserves_throw | apply preserves_emit
  | apply preserves_get_world | apply preserves_getItem
  | apply preserves_JSON_parse
  | apply preserves_modify; done
  | apply preserves_setItem; done
  | apply preserves_removeItem; done
  | match goal with
    | |- preserves _ (match ?x with _ => _ end) => destruct x
    end
  | assumption
  | match goal with H : forall _, preserves _ _ |- _ => apply H end
  | match goal with H : forall _ _, preserves _ _ |- _ => apply H end ]).

Section Sequences.
Context {JSON_DBInfo : JSON DBInfo} {JSON_object : JSON (gmap string value)}.
Variable randomUUID : nat -> string.

Lemma keeps_the_cache : preserves cached_meta the_cache.
Proof. unfold the_cache. preserves. Qed.

Lemma keeps_cache_set uk o : preserves cached_meta (cache_set uk o).
Proof. unfold cache_set. pose proof keeps_the_cache. preserves. Qed.

Lemma keeps_cache_delete uk : preserves cached_meta (cache_delete uk).
Proof. unfold cache_delete. pose proof keeps_the_cache. preserves. Qed.

Lemma keeps_put_tail o uk : preserves cached_meta (put_tail o uk).
Proof. unfold put_tail. pose proof keeps_cache_set. preserves. Qed.

Lemma keeps_get_tail uk : preserves cached_meta (get_tail uk).
Proof.
  unfold get_tail. pose proof keeps_the_cache. pose proof keeps_cache_set.
  preserves.
Qed.

Lemma keeps_update_tail p uk : preserves cached_meta (update_tail p uk).
Proof.
  unfold update_tail. pose proof keeps_the_cache. pose proof keeps_cache_set.
  preserves.
Qed.

Lemma keeps_del_tail uk : preserves cached_meta (del_tail uk).
Proof. unfold del_tail. pose proof keeps_cache_delete. preserves. Qed.

Lemma del_from_prelude (k : string) (w : World) :
  str_truthy k = true -> del k w = (prelude k ≫= del_tail) w.
Proof.
  intros Hk. unfold del. rewrite Hk. simpl. unfold prelude.
  by rewrite run_bind_assoc.
Qed.

(** An operation that begins like [get] and then leaves the cached metadata
    alone does not change the metadata record the instance works with. *)
Lemma prelude_then_keeps_view {A} (tail : string -> M A) (k : string)
    (w : World) (m : DBInfo) :
  (forall uk, preserves cached_meta (tail uk)) ->
  meta_view w = Some m ->
  meta_view (after ((prelude k ≫= tail) w)) = Some m.
Proof.
  intros Ht Hm. rewrite bind_prelude.
  destruct (prelude_spec k w) as (_ & _ & Hv). cbv zeta in Hv.
  destruct (Hv m Hm) as [Hv1 Hv2].
  destruct (out (prelude k w)) as [uk|e]; [|done].
  apply meta_view_cached. fold (cached_meta (after (tail uk (after (prelude k w))))).
  rewrite (Ht uk). by apply (Hv2 uk).
Qed.

Lemma put_keeps_view k v w m :
  meta_view w = Some m -> meta_view (after (put k v w)) = Some m.
Proof.
  intros Hm. destruct (str_truthy k) eqn:Hk.
  - destruct v as [| |o]; [by unfold put; rewrite Hk..|].
    rewrite put_from_prelude by done.
    apply prelude_then_keeps_view; [apply keeps_put_tail|done].
  - by unfold put; rewrite Hk.
Qed.

Lemma update_keeps_view k v w m :
  meta_view w = Some m -> meta_view (after (update k v w)) = Some m.
Proof.
  intros Hm. destruct (str_truthy k) eqn:Hk.
  - destruct v as [| |o]; [by unfold update; rewrite Hk..|].
    rewrite update_from_prelude by done.
    apply prelude_then_keeps_view; [apply keeps_update_tail|done].
  - by unfold update; rewrite Hk.
Qed.

Lemma get_keeps_view k w m :
  meta_view w = Some m -> meta_view (after (get k w)) = Some m.
Proof.
  intros Hm. destruct (str_truthy k) eqn:Hk.
  - rewrite get_from_prelude by done.
    apply prelude_then_keeps_view; [apply keeps_get_tail|done].
  - by unfold get; rewrite Hk.
Qed.

Lemma del_keeps_view k w m :
  meta_view w = Some m -> meta_view (after (del k w)) = Some m.
Proof.
  intros Hm. destruct (str_truthy k) eqn:Hk.
  - rewrite del_from_prelude by done.
    apply prelude_then_keeps_view; [apply keeps_del_tail|done].
  - by unfold del; rewrite Hk.
Qed.

Lemma cacheGet_keeps_world k w : after (cacheGet k w) = w.
Proof.
  unfold cacheGet. destruct (str_truthy k); simpl; [|done].
  destruct (dbCache (this w)) as [c|]; [|done].
  unfold cacheMakeUserKey. rewrite !run_bind. simpl.
  destruct (dbMetaCache (this w)) as [m|]; simpl; [|done].
  destruct (str_truthy (currUser m)); simpl; [|done].
  by destruct (str_truthy _).
Qed.

Lemma getInstallId_keeps_view w m :
  meta_view w = Some m ->
  meta_view (after (getInstallId randomUUID w)) = Some m.
Proof.
  assert (Hc : preserves cached_meta (getInstallId randomUUID))
    by (unfold getInstallId; preserves).
  assert (Hi : preserves meta_item (getInstallId randomUUID)).
  { unfold getInstallId. preserves.
    apply preserves_setItem. intros w'. unfold meta_item. simpl.
    by rewrite lookup_insert_ne. }
  unfold meta_view, stored_meta.
  fold (cached_meta w) (meta_item w).
  fold (cached_meta (after (getInstallId randomUUID w))).
  fold (meta_item (after (getInstallId randomUUID w))).
  by rewrite Hc, Hi.
Qed.

(** *** [migrate] *)

Lemma property_functions (t : MigrationTable) (k : string) fs f :
  property t k = Some fs -> f ∈ fs -> f ∈ all_functions t.
Proof.
  unfold all_functions. induction t as [|[k' fs'] t IH]; simpl; [done|].
  destruct (String.eqb k' k).
  - intros [= ->] Hf. apply elem_of_app. by left.
  - intros Hp Hf. apply elem_of_app. right. by apply IH.
Qed.

Lemma run_functions_keeps fs :
  Forall keeps_metadata fs -> preserves cached_meta (run_functions fs).
Proof.
  induction 1 as [|f fs Hf _ IH]; cbn [run_functions]; preserves.
  by apply preserves_call.
Qed.

Lemma run_versions_keeps (t : MigrationTable) storedMeta vs :
  Forall keeps_metadata (all_functions t) ->
  forall lmv, preserves cached_meta (run_versions t storedMeta vs lmv).
Proof.
  intros Ht. induction vs as [|v vs IH]; intros lmv; cbn [run_versions].
  - preserves.
  - apply preserves_bind; [unfold stored_lastMigrationVersion; preserves|].
    intros stored. apply preserves_if; [apply IH|].
    destruct (table_at t v) as [fs|] eqn:Et; [|preserves].
    apply preserves_bind; [|intros; apply IH].
    apply run_functions_keeps, Forall_forall. intros f Hf.
    apply (proj1 (Forall_forall _ _) Ht). by eapply property_functions.
Qed.

(** The [lmv] a run of the loop ends with is the one it started with, or
    is not a number, or is above the stored version. *)
Lemma run_versions_result (t : MigrationTable) storedMeta vs m n :
  Forall keeps_metadata (all_functions t) ->
  lastMigrationVersion m = Int n ->
  forall lmv w v,
    dbMetaCache (this w) = Some m ->
    out (run_versions t storedMeta vs lmv w) = Ok v ->
    v = lmv \/ v = NaN \/ exists z, v = Int z /\ n < z.
Proof.
  intros Ht Hn. induction vs as [|v0 vs IH]; intros lmv w v Hm;
    cbn [run_versions].
  - intros [= <-]. by left.
  - assert (Es : stored_lastMigrationVersion storedMeta w
                 = mkRes (Ok (Int n)) w []).
    { unfold stored_lastMigrationVersion. rewrite run_bind. simpl.
      rewrite Hm. simpl. by rewrite Hn. }
    rewrite (run_bind_pure _ _ _ _ Es).
    destruct (num_ge (Int n) v0) eqn:Hge; [by apply IH|].
    destruct (table_at t v0) as [fs|] eqn:Et; [|done].
    rewrite run_bind.
    assert (Hk : dbMetaCache (this (after (run_functions fs w))) = Some m).
    { rewrite <- Hm. apply (run_functions_keeps fs).
      apply Forall_forall. intros f Hf.
      apply (proj1 (Forall_forall _ _) Ht). by eapply property_functions. }
    destruct (run_functions fs w) as [[[]|e] w' l]; simpl in *; [|done].
    intros Ho.
    assert (Ho' : out (run_versions t storedMeta vs v0 w') = Ok v)
      by (by destruct (run_versions t storedMeta vs v0 w') as [o ? ?]).
    destruct (IH v0 w' v Hk Ho') as [->|H]; [|by right].
    right. destruct v0 as [|z]; [by left|]. right. exists z.
    split; [done|]. simpl in Hge. lia.
Qed.

Lemma validate_frame (ks : list string) (w : World) :
  exists r l, validateMigrationVersionNumbers ks w = mkRes (Ok r) w l.
Proof.
  unfold validateMigrationVersionNumbers.
  destruct (found_truthy _); eauto.
Qed.

Lemma putMeta_cache (p : PartialDBInfo) (w : World) m :
  dbMetaCache (this w) = Some m ->
  dbMetaCache (this (after (putMeta p w))) = Some (assign_meta m p).
Proof.
  intros Hm. unfold putMeta. rewrite run_bind. simpl. rewrite Hm.
  unfold setItem. simpl.
  by destruct (rejects (storage w) Write metaKey).
Qed.

(** [migrate] leaves the metadata record as it is or raises its version. *)
Lemma migrate_view (t : nullable MigrationTable) (w : World) m n :
  tame (op_migrate t) ->
  meta_view w = Some m -> lastMigrationVersion m = Int n ->
  meta_view (after (migrate t w)) = Some m
  \/ exists z, n < z
       /\ meta_view (after (migrate t w))
          = Some {| lastMigrationVersion := Int z; currUser := currUser m |}.
Proof.
  intros Ht Hm Hn. unfold migrate.
  set (body := match t with defined _ => _ | _ => _ end).
  assert (Hafter : after (try_catch body
                      (fun e => emit (console_error_exn e);; mret false) w)
                   = after (body w)).
  { unfold try_catch. by destruct (body w) as [[a|e] w' l]. }
  rewrite Hafter. subst body.
  destruct t as [| |t]; [by left..|]. simpl in Ht.
  rewrite run_bind.
  destruct (getMeta_spec w) as (_ & _ & Ho & Hv). cbv zeta in *.
  destruct (Hv m Hm) as [Hv1 Hv2]. clear Hv.
  destruct (getMeta w) as [o w' l]. simpl in *.
  destruct o as [o|e]; simpl; [|by left].
  rewrite (Hv2 o eq_refl) in *. specialize (Ho _ eq_refl). simpl.
  destruct (validate_frame (Object_keys t) w') as (r & l' & Er).
  rewrite (run_bind_ok _ _ _ _ _ _ Er). simpl.
  destruct (passed r); simpl; [|by left].
  assert (Enote : exists l0, forall k : unit -> M bool,
    ((if (length (sortedVersions r) =? 0)%nat then
        emit (console_info
                ["Empty migration function table. Skipping migration"])
      else mret tt) ≫= k) w'
    = mkRes (out (k tt w')) (after (k tt w')) (l0 ++ log (k tt w'))).
  { destruct (length (sortedVersions r) =? 0)%nat; eexists; intros k;
      by rewrite run_bind. }
  destruct Enote as (l0 & Enote). rewrite Enote. simpl.
  rewrite run_bind.
  pose proof (run_versions_keeps t m (sortedVersions r) Ht (Int 0) w') as Hk.
  pose proof (run_versions_result t m (sortedVersions r) m n Ht Hn
                (Int 0) w') as Hres.
  unfold cached_meta in Hk. rewrite Ho in Hk.
  destruct (run_versions t m (sortedVersions r) (Int 0) w') as [o2 w2 l2].
  simpl in *. destruct o2 as [lmv|e]; simpl; [|left; by apply meta_view_cached].
  rewrite run_bind.
  destruct (num_truthy lmv) eqn:Htr.
  - destruct (Hres lmv Ho eq_refl) as [->|[->|(z & -> & Hz)]]; [done|done|].
    right. exists z. split; [done|].
    pose proof (putMeta_cache {| lastMigrationVersion_opt := Some (Int z);
                                 currUser_opt := None |} w2 m Hk) as Hp.
    destruct (putMeta _ w2) as [[[]|e] w3 l3]; simpl in *;
      by apply meta_view_cached.
  - left. by apply meta_view_cached.
Qed.

(** ** The version the instance works with, over sequences of operations *)

Lemma version_view_Some (w : World) (v : number) :
  version_view w = Some v <->
  exists m, meta_view w = Some m /\ lastMigrationVersion m = v.
Proof.
  unfold version_view. destruct (meta_view w) as [m|]; simpl.
  - split; [intros [= <-]; eauto|]. by intros (m' & [= <-] & <-).
  - split; [done|]. by intros (m' & ? & _).
Qed.

(** One operation other than [putMeta] leaves the metadata record as it is,
    or is a [migrate] that raises its version. *)
Lemma run_op_view (o : op) (w : World) m n :
  tame o -> meta_view w = Some m -> lastMigrationVersion m = Int n ->
  meta_view (run_op randomUUID o w) = Some m
  \/ exists t z, o = op_migrate t /\ n < z
       /\ meta_view (run_op randomUUID o w)
          = Some {| lastMigrationVersion := Int z; currUser := currUser m |}.
Proof.
  intros Ht Hm Hn. destruct o; simpl in *; try done.
  - left. by apply getInstallId_keeps_view.
  - left. by apply getMeta_spec.
  - left. by apply put_keeps_view.
  - left. by apply get_keeps_view.
  - left. by rewrite cacheGet_keeps_world.
  - left. by apply del_keeps_view.
  - left. by apply update_keeps_view.
  - destruct (migrate_view t w m n Ht Hm Hn) as [H|(z & Hz & H)]; [by left|].
    right. by exists t, z.
  - by left.
  - by left.
Qed.

Lemma run_ops_view (os : list op) (w : World) m n :
  Forall tame os -> meta_view w = Some m -> lastMigrationVersion m = Int n ->
  exists m' n', meta_view (run_ops randomUUID os w) = Some m'
    /\ lastMigrationVersion m' = Int n' /\ n <= n'.
Proof.
  intros Hos. revert w m n.
  induction Hos as [|o os Ho _ IH]; intros w m n Hm Hn; simpl.
  - exists m, n. by repeat split.
  - destruct (run_op_view o w m n Ho Hm Hn) as [H|(t & z & _ & Hz & H)].
    + by apply (IH _ m n).
    + destruct (IH _ _ z H eq_refl) as (m' & n' & H1 & H2 & H3).
      exists m', n'. repeat split; try done. lia.
Qed.

End Sequences.

(** ** Examples for sequences of operations *)


(** the run of the example ends at version 2 *)
Example demo_ops_version :
  demo_version (demo_run_ops demo_ops world1) = Some (Int 2).
Proof. vm_compute. reflexivity. Qed.

(** * Further properties

    Properties of the parts of the class that the statements above do not
    reach: the metadata accessors, the lazy initialization, [del], the
    install id, the argument checks, what happens when the store rejects an
    access, and the runs of [migrate] that end in an exception. *)

(** ** The metadata accessors *)

Section MetadataAccessors.
Context {JSON_DBInfo : JSON DBInfo} {JSON_object : JSON (gmap string value)}.

(** X1.  [getMeta] logs nothing and changes neither the store nor the cache
    of values.  When it returns, its result is the metadata record the
    instance works with (the cached record, else the one the stored text
    parses to, else [undefined]); that result is what the field
    [#dbMetaCache] then holds; and a repeated call returns it again and
    changes nothing. *)
Theorem getMeta_reads_and_caches (w : World) :
  let r := getMeta w in
  log r = []
  /\ storage (after r) = storage w
  /\ dbCache (this (after r)) = dbCache (this w)
  /\ forall o, out r = Ok o ->
       o = meta_view w
       /\ dbMetaCache (this (after r)) = o
       /\ getMeta (after r) = mkRes (Ok o) (after r) [].
Proof.
  destruct (getMeta_cases w)
    as [(m & Em & E)|(Em & [(e & E)|[(Es & E)|(m & Es & E)]])];
    cbv zeta; rewrite E; simpl;
    (split; [done|]); (split; [done|]); (split; [done|]).
  - intros ? [= <-]. by rewrite (meta_view_cached w m Em).
  - done.
  - intros ? [= <-]. by rewrite (meta_view_uncached w Em).
  - intros ? [= <-]. rewrite (meta_view_uncached w Em).
    split; [done|]. split; [done|]. by apply getMeta_cached.
Qed.

Lemma putMeta_ok (p : PartialDBInfo) (w w1 : World) (l : list event) :
  putMeta p w = mkRes (Ok tt) w1 l ->
  let merged :=
    assign_meta (default (defaultMeta (this w)) (dbMetaCache (this w))) p in
  l = []
  /\ rejects (storage w) Write metaKey = false
  /\ w1 = set_items (<[metaKey := stringify merged]> (items (storage w)))
            (set_dbMetaCache (Some merged) w).
Proof.
  unfold putMeta. rewrite run_bind. simpl. unfold setItem. simpl.
  destruct (rejects (storage w) Write metaKey); simpl; [done|].
  intros [= <- <-]. by destruct (dbMetaCache (this w)).
Qed.

Lemma getMeta_restart (d : DBInfo) (w : World) (m : DBInfo) :
  items (storage w) !! metaKey = Some (stringify m) ->
  parse (stringify m) = Some m ->
  str_truthy (stringify m) = true ->
  rejects (storage w) Read metaKey = false ->
  getMeta (restart d w)
  = mkRes (Ok (Some m)) (set_dbMetaCache (Some m) (restart d w)) [].
Proof.
  intros Hi Hp Ht Hr. unfold getMeta. rewrite run_bind. simpl.
  rewrite run_bind. unfold getItem. simpl. rewrite Hr, Hi. simpl.
  rewrite Ht. unfold JSON_parse. by rewrite Hp.
Qed.

(** X2.  After a [putMeta(p)] that returned, the metadata record is the
    record that was cached (the constructor's default when none was cached,
    whatever the store holds) with the properties of [p] assigned over it:
    it is cached, its JSON text is in the store, and [getMeta] returns it
    without touching anything.  Where that text reads back as the record
    and the store can be read, [getMeta] on a new instance over the same
    store returns the same record. *)
Theorem putMeta_then_getMeta (p : PartialDBInfo) (w w1 : World)
    (l : list event) :
  putMeta p w = mkRes (Ok tt) w1 l ->
  let merged :=
    assign_meta (default (defaultMeta (this w)) (dbMetaCache (this w))) p in
  holds_metadata w1 merged
  /\ getMeta w1 = mkRes (Ok (Some merged)) w1 []
  /\ (parse (stringify merged) = Some merged ->
      str_truthy (stringify merged) = true ->
      rejects (storage w1) Read metaKey = false ->
      forall d, out (getMeta (restart d w1)) = Ok (Some merged)).
Proof.
  intros E. destruct (putMeta_ok p w w1 l E) as (_ & _ & Hw1). cbv zeta in *.
  set (merged := assign_meta _ p) in *.
  assert (Hh : holds_metadata w1 merged).
  { subst w1. split; [done|]. apply lookup_insert_eq. }
  split; [done|]. split.
  - apply getMeta_cached, Hh.
  - intros Hp Ht Hr d.
    by rewrite (getMeta_restart d w1 merged (proj2 Hh) Hp Ht Hr).
Qed.

End MetadataAccessors.

(** ** Namespaced keys *)

Lemma contains_app_colon (a b : string) : contains ":" (a +:+ ":" +:+ b) = true.
Proof. induction a as [|c a IH]; simpl; [done|]. rewrite IH. by destruct (Ascii.eqb c ":"). Qed.

Lemma user_key_not_metaKey (m : DBInfo) (k : string) : user_key m k <> metaKey.
Proof.
  intros H. pose proof (contains_app_colon (currUser m) k) as Hc.
  unfold user_key in H. rewrite H in Hc. done.
Qed.


Lemma append_inj_r (a b c : string) : a +:+ b = a +:+ c -> b = c.
Proof. induction a as [|x a IH]; simpl; [done|]. intros [= H]. by apply IH. Qed.

Lemma user_key_inj (m : DBInfo) (k k' : string) :
  user_key m k = user_key m k' -> k = k'.
Proof.
  unfold user_key. intros H. apply append_inj_r in H. by apply (append_inj_r ":") in H.
Qed.

(** ** Frames *)

Ltac frames := repeat (intros; first
  [ solve [auto]
  | apply preserves_bind | apply preserves_try | apply preserves_if
  | apply preserves_ret | apply preserves_throw | apply preserves_emit
  | apply preserves_get_world | apply preserves_getItem
  | apply preserves_JSON_parse
  | apply preserves_modify; solve [auto]
  | apply preserves_setItem; solve [auto]
  | apply preserves_removeItem; solve [auto]
  | match goal with
    | |- preserves _ (match ?x with _ => _ end) => destruct x
    end ]).

Section Frames.
Context {JSON_DBInfo : JSON DBInfo} {JSON_object : JSON (gmap string value)}.
Context {B : Type} (proj : World -> B).

Lemma preserves_the_cache : preserves proj the_cache.
Proof. unfold the_cache. frames. Qed.

Lemma preserves_cache_set uk o :
  ignores_cache proj -> preserves proj (cache_set uk o).
Proof.
  unfold ignores_cache. intros Hc. unfold cache_set.
  pose proof preserves_the_cache. frames.
Qed.

Lemma preserves_cache_delete uk :
  ignores_cache proj -> preserves proj (cache_delete uk).
Proof.
  unfold ignores_cache. intros Hc. unfold cache_delete.
  pose proof preserves_the_cache. frames.
Qed.

Lemma preserves_get_tail uk : ignores_cache proj -> preserves proj (get_tail uk).
Proof.
  intros Hc. unfold get_tail.
  pose proof preserves_the_cache. pose proof (fun uk o => preserves_cache_set uk o Hc).
  frames.
Qed.

Lemma preserves_put_tail o uk :
  ignores_cache proj -> ignores_item uk proj -> preserves proj (put_tail o uk).
Proof.
  intros Hc [Hi _]. unfold put_tail.
  pose proof (fun uk o => preserves_cache_set uk o Hc). frames.
Qed.

Lemma preserves_update_tail p uk :
  ignores_cache proj -> ignores_item uk proj -> preserves proj (update_tail p uk).
Proof.
  intros Hc [Hi _]. unfold update_tail.
  pose proof preserves_the_cache. pose proof (fun uk o => preserves_cache_set uk o Hc).
  frames.
Qed.

Lemma preserves_del_tail uk :
  ignores_cache proj -> ignores_item uk proj -> preserves proj (del_tail uk).
Proof.
  intros Hc [_ Hi]. unfold del_tail.
  pose proof (fun uk => preserves_cache_delete uk Hc). frames.
Qed.

Lemma preserves_getMeta : ignores_meta_cache proj -> preserves proj getMeta.
Proof. unfold ignores_meta_cache. intros Hm. unfold getMeta. frames. Qed.

Lemma preserves_putMeta p :
  ignores_meta_cache proj -> ignores_item metaKey proj ->
  preserves proj (putMeta p).
Proof.
  unfold ignores_meta_cache. intros Hm [Hi _]. unfold putMeta. frames.
Qed.

Lemma preserves_prelude k :
  ignores_cache proj -> ignores_meta_cache proj -> ignores_item metaKey proj ->
  preserves proj (prelude k).
Proof.
  intros Hc Hm Hi. pose proof (preserves_getMeta Hm) as HgetMeta.
  pose proof (fun p => preserves_putMeta p Hm Hi) as HputMeta.
  unfold ignores_cache in Hc.
  unfold prelude, ensure_init, init, makeUserKey. frames.
Qed.

(** an operation made of the common beginning and a tail *)
Lemma prelude_then_preserves {A} (tail : string -> M A) (k : string) :
  preserves proj (prelude k) ->
  (forall m, preserves proj (tail (user_key m k))) ->
  preserves proj (prelude k ≫= tail).
Proof.
  intros Hp Ht w. rewrite bind_prelude. specialize (Hp w).
  destruct (prelude_spec k w) as (_ & Hok & _). cbv zeta in Hok.
  destruct (out (prelude k w)) as [uk|e]; [|done].
  destruct (Hok uk eq_refl) as (m & _ & ->). by rewrite (Ht m).
Qed.

Lemma preserves_call_leaves f : leaves proj f -> preserves proj (call f).
Proof.
  intros Hf w. unfold call. specialize (Hf w).
  by destruct (mf_body f w) as [o w'].
Qed.

Lemma preserves_run_functions fs :
  Forall (leaves proj) fs -> preserves proj (run_functions fs).
Proof.
  induction 1 as [|f fs Hf _ IH]; cbn [run_functions]; frames.
  by apply preserves_call_leaves.
Qed.

Lemma preserves_run_versions (t : MigrationTable) storedMeta vs :
  Forall (leaves proj) (all_functions t) ->
  forall lmv, preserves proj (run_versions t storedMeta vs lmv).
Proof.
  intros Ht. induction vs as [|v vs IH]; intros lmv; cbn [run_versions].
  - frames.
  - apply preserves_bind; [unfold stored_lastMigrationVersion; frames|].
    intros stored. apply preserves_if; [apply IH|].
    destruct (table_at t v) as [fs|] eqn:Et; [|frames].
    apply preserves_bind; [|intros; apply IH].
    apply preserves_run_functions, Forall_forall. intros f Hf.
    apply (proj1 (Forall_forall _ _) Ht). by eapply property_functions.
Qed.

Lemma preserves_validate ks :
  preserves proj (validateMigrationVersionNumbers ks).
Proof. unfold validateMigrationVersionNumbers. frames. Qed.

Lemma preserves_migrate (t : nullable MigrationTable) :
  ignores_meta_cache proj -> ignores_item metaKey proj ->
  match t with
  | defined t => Forall (leaves proj) (all_functions t)
  | _ => True
  end ->
  preserves proj (migrate t).
Proof.
  intros Hm Hi Ht. pose proof (preserves_getMeta Hm) as HgetMeta.
  pose proof (fun p => preserves_putMeta p Hm Hi) as HputMeta.
  pose proof preserves_validate as Hval.
  unfold migrate. apply preserves_try; [|frames].
  destruct t as [| |t]; [frames..|].
  pose proof (fun s vs => preserves_run_versions t s vs Ht) as Hrun.
  frames.
Qed.

End Frames.

(** ** Observations and what they ignore *)

Lemma item_ignores_cache (k : string) : ignores_cache (item k).
Proof. done. Qed.

Lemma item_ignores_meta_cache (k : string) : ignores_meta_cache (item k).
Proof. done. Qed.

Lemma item_ignores_item (k k' : string) : k <> k' -> ignores_item k (item k').
Proof.
  intros Hk. split; intros; unfold item; simpl.
  - by rewrite lookup_insert_ne.
  - by rewrite lookup_delete_ne.
Qed.

Lemma cached_meta_ignores_cache : ignores_cache cached_meta.
Proof. done. Qed.

Lemma cached_meta_ignores_item (k : string) : ignores_item k cached_meta.
Proof. done. Qed.

Lemma cached_install_id_ignores_cache : ignores_cache cached_install_id.
Proof. done. Qed.

Lemma cached_install_id_ignores_meta_cache : ignores_meta_cache cached_install_id.
Proof. done. Qed.

Lemma cached_install_id_ignores_item (k : string) :
  ignores_item k cached_install_id.
Proof. done. Qed.

(** a computation that returned without logging is transparent to what
    follows it *)
Lemma run_bind_quiet {A B} (m : M A) (k : A -> M B) w a w1 :
  m w = mkRes (Ok a) w1 [] -> (m ≫= k) w = k a w1.
Proof. intros E. rewrite run_bind, E. reflexivity. Qed.

(** ** Lazy initialization *)

Section Initialization.
Context {JSON_DBInfo : JSON DBInfo} {JSON_object : JSON (gmap string value)}.

Lemma getMeta_absent (w : World) :
  dbMetaCache (this w) = None ->
  opt_str_truthy (items (storage w) !! metaKey) = false ->
  rejects (storage w) Read metaKey = false ->
  getMeta w = mkRes (Ok None) w [].
Proof.
  intros Hm Hi Hr. unfold getMeta. rewrite run_bind. simpl. rewrite Hm.
  rewrite run_bind. unfold getItem. rewrite Hr. simpl. rewrite Hi. simpl.
  by rewrite Hm.
Qed.

Lemma getMeta_loads (w : World) (m : DBInfo) :
  dbMetaCache (this w) = None -> stored_meta w = Some m ->
  rejects (storage w) Read metaKey = false ->
  getMeta w = mkRes (Ok (Some m)) (set_dbMetaCache (Some m) w) [].
Proof.
  intros Hm Hs Hr. unfold stored_meta in Hs.
  unfold getMeta. rewrite run_bind. simpl. rewrite Hm.
  rewrite run_bind. unfold getItem. rewrite Hr. simpl.
  destruct (items (storage w) !! metaKey) as [s|]; [|done]. simpl.
  destruct (str_truthy s); [|done]. unfold JSON_parse. by rewrite Hs.
Qed.

Lemma getMeta_unreadable (w : World) :
  dbMetaCache (this w) = None ->
  rejects (storage w) Read metaKey = true ->
  getMeta w = mkRes (Throw (StorageFailure Read metaKey)) w [].
Proof.
  intros Hm Hr. unfold getMeta. rewrite run_bind. simpl. rewrite Hm.
  apply run_bind_throw. unfold getItem. by rewrite Hr.
Qed.

(** The beginning of the first operation on a store without metadata
    record writes the default one. *)
Lemma prelude_creates (k : string) (w : World) :
  dbCache (this w) = None -> dbMetaCache (this w) = None ->
  opt_str_truthy (items (storage w) !! metaKey) = false ->
  rejects (storage w) Read metaKey = false ->
  rejects (storage w) Write metaKey = false ->
  let d := defaultMeta (this w) in
  prelude k w
  = mkRes (Ok (user_key d k))
      (set_dbCache (Some ∅)
         (set_items (<[metaKey := stringify d]> (items (storage w)))
            (set_dbMetaCache (Some d) w))) [].
Proof.
  intros Hc Hm Hi Hr Hw d. unfold prelude.
  assert (E : ensure_init w
              = mkRes (Ok tt)
                  (set_dbCache (Some ∅)
                     (set_items (<[metaKey := stringify d]> (items (storage w)))
                        (set_dbMetaCache (Some d) w))) []).
  { unfold ensure_init. rewrite run_bind. simpl. rewrite Hc. unfold init.
    rewrite (run_bind_pure _ _ _ _ (getMeta_absent w Hm Hi Hr)).
    rewrite run_bind. unfold putMeta. rewrite !run_bind. simpl.
    rewrite Hm. unfold setItem. simpl. by rewrite Hw. }
  rewrite (run_bind_ok _ _ _ _ _ _ E).
  by rewrite (makeUserKey_cached k _ d) by done.
Qed.

(** With a metadata record in the store and none cached, the beginning of
    an operation loads the stored one. *)
Lemma prelude_loads (k : string) (w : World) (m : DBInfo) :
  dbMetaCache (this w) = None -> stored_meta w = Some m ->
  rejects (storage w) Read metaKey = false ->
  prelude k w
  = mkRes (Ok (user_key m k))
      (set_dbCache (Some (default ∅ (dbCache (this w))))
         (set_dbMetaCache (Some m) w)) [].
Proof.
  intros Hm Hs Hr. pose proof (getMeta_loads w m Hm Hs Hr) as E.
  unfold prelude. destruct (dbCache (this w)) as [c|] eqn:Hc.
  - rewrite (run_bind_pure _ _ _ _ (ensure_init_cached w c Hc)).
    unfold makeUserKey. rewrite (run_bind_ok _ _ _ _ _ _ E). simpl.
    by rewrite <- Hc.
  - assert (E' : ensure_init w
                 = mkRes (Ok tt)
                     (set_dbCache (Some ∅) (set_dbMetaCache (Some m) w)) []).
    { unfold ensure_init. rewrite run_bind. simpl. rewrite Hc. unfold init.
      by rewrite (run_bind_ok _ _ _ _ _ _ E). }
    rewrite (run_bind_ok _ _ _ _ _ _ E').
    by rewrite (makeUserKey_cached k _ m) by done.
Qed.

(** Once the key is resolved, no operation touches the metadata record. *)
Lemma tail_holds_metadata {A} (tail : M A) (w : World) (m : DBInfo) :
  preserves cached_meta tail -> preserves (item metaKey) tail ->
  holds_metadata w m -> holds_metadata (after (tail w)) m.
Proof.
  intros Hc Hi [H1 H2]. split.
  - fold (cached_meta (after (tail w))). by rewrite Hc.
  - fold (item metaKey (after (tail w))). by rewrite Hi.
Qed.

Lemma get_tail_holds_metadata uk w m :
  holds_metadata w m -> holds_metadata (after (get_tail uk w)) m.
Proof.
  apply tail_holds_metadata;
    apply preserves_get_tail; done.
Qed.

Lemma put_tail_holds_metadata o m' k w m :
  holds_metadata w m -> holds_metadata (after (put_tail o (user_key m' k) w)) m.
Proof.
  apply tail_holds_metadata; apply preserves_put_tail; try done.
  apply item_ignores_item, user_key_not_metaKey.
Qed.

Lemma update_tail_holds_metadata p m' k w m :
  holds_metadata w m ->
  holds_metadata (after (update_tail p (user_key m' k) w)) m.
Proof.
  apply tail_holds_metadata; apply preserves_update_tail; try done.
  apply item_ignores_item, user_key_not_metaKey.
Qed.

Lemma del_tail_holds_metadata m' k w m :
  holds_metadata w m -> holds_metadata (after (del_tail (user_key m' k) w)) m.
Proof.
  apply tail_holds_metadata; apply preserves_del_tail; try done.
  apply item_ignores_item, user_key_not_metaKey.
Qed.

(** X3.  On a new instance over a store without metadata record, whose
    metadata key can be read and written, the first [get], [put], [update]
    or [del] of a non-empty key creates the record from the constructor's
    default: afterwards the default is cached and its JSON text is in the
    store, however the rest of the operation ends. *)
Theorem first_use_creates_the_metadata_record
    (k : string) (o : object) (w : World) :
  str_truthy k = true ->
  dbCache (this w) = None -> dbMetaCache (this w) = None ->
  opt_str_truthy (items (storage w) !! metaKey) = false ->
  rejects (storage w) Read metaKey = false ->
  rejects (storage w) Write metaKey = false ->
  let d := defaultMeta (this w) in
  holds_metadata (after (get k w)) d
  /\ holds_metadata (after (put k (defined o) w)) d
  /\ holds_metadata (after (update k (defined o) w)) d
  /\ holds_metadata (after (del k w)) d.
Proof.
  intros Hk Hc Hm Hi Hr Hw d.
  pose proof (prelude_creates k w Hc Hm Hi Hr Hw) as E. cbv zeta in E.
  fold d in E.
  assert (Hh : holds_metadata (after (prelude k w)) d).
  { rewrite E. split; [done|]. apply lookup_insert_eq. }
  rewrite E in Hh.
  rewrite get_from_prelude, put_from_prelude, update_from_prelude,
    del_from_prelude by done.
  rewrite !(run_bind_quiet _ _ _ _ _ E).
  split; [by apply get_tail_holds_metadata|].
  split; [by apply put_tail_holds_metadata|].
  split; [by apply update_tail_holds_metadata|].
  by apply del_tail_holds_metadata.
Qed.

(** X4.  When the store already holds a metadata record [m] and none is
    cached (an instance created over an existing store), [put] works with
    [m], not with the constructor's default: it returns, caches [m], files
    the value in the cache and in the store under the key of the user of
    [m], and leaves the stored metadata text as it is. *)
Theorem stored_metadata_wins_over_the_default
    (k : string) (o : object) (w : World) (m : DBInfo) :
  str_truthy k = true ->
  dbMetaCache (this w) = None -> stored_meta w = Some m ->
  rejects (storage w) Read metaKey = false ->
  rejects (storage w) Write (user_key m k) = false ->
  exists w1, put k (defined o) w = mkRes (Ok tt) w1 []
    /\ dbMetaCache (this w1) = Some m
    /\ cached w1 (user_key m k) = Some o
    /\ items (storage w1) !! user_key m k = Some (stringify o)
    /\ items (storage w1) !! metaKey = items (storage w) !! metaKey.
Proof.
  intros Hk Hm Hs Hr Hw.
  rewrite put_from_prelude by done.
  rewrite (run_bind_quiet _ _ _ _ _ (prelude_loads k w m Hm Hs Hr)).
  unfold put_tail.
  erewrite run_bind_ok;
    [|by eapply (cache_set_initialized _ _ _ m (default ∅ (dbCache (this w))))].
  unfold setItem. simpl. rewrite Hw. simpl.
  eexists. split; [reflexivity|]. simpl. split; [done|].
  split; [unfold cached; simpl; apply lookup_insert_eq|].
  split; [apply lookup_insert_eq|].
  apply lookup_insert_ne, user_key_not_metaKey.
Qed.

End Initialization.

(** ** [del], and reads that follow it *)

Section Deleting.
Context {JSON_DBInfo : JSON DBInfo} {JSON_object : JSON (gmap string value)}.

Lemma cache_delete_initialized (uk : string) (w : World) m c :
  initialized w m c ->
  cache_delete uk w = mkRes (Ok tt) (set_dbCache (Some (delete uk c)) w) [].
Proof.
  intros H. unfold cache_delete.
  by rewrite (run_bind_pure _ _ _ _ (the_cache_initialized w m c H)).
Qed.

Lemma del_tail_ok (uk : string) (w w1 : World) m c l :
  initialized w m c ->
  del_tail uk w = mkRes (Ok tt) w1 l ->
  rejects (storage w) Remove uk = false
  /\ w1 = set_items (delete uk (items (storage w)))
            (set_dbCache (Some (delete uk c)) w)
  /\ l = [].
Proof.
  intros Hi. unfold del_tail.
  rewrite (run_bind_ok _ _ _ _ _ _ (cache_delete_initialized uk w m c Hi)).
  unfold removeItem. simpl.
  destruct (rejects (storage w) Remove uk); simpl; [done|].
  by intros [= <- <-].
Qed.

(** A [del] that returned left an initialized instance with neither a cache
    entry nor a stored text under the user's key. *)
Lemma del_ok (k : string) (w w1 : World) l :
  del k w = mkRes (Ok tt) w1 l ->
  str_truthy k = true
  /\ l = []
  /\ exists m c, initialized w1 m c
       /\ c !! user_key m k = None
       /\ items (storage w1) !! user_key m k = None.
Proof.
  intros E. destruct (str_truthy k) eqn:Hk; [|by unfold del in E; rewrite Hk in E].
  split; [done|].
  rewrite del_from_prelude, bind_prelude in E by done.
  destruct (prelude_spec k w) as (_ & Hok & _). cbv zeta in Hok.
  destruct (out (prelude k w)) as [uk|e] eqn:Ho; [|done].
  destruct (Hok uk eq_refl) as (m & Hi & ->).
  destruct (del_tail_ok _ _ _ _ _ _ Hi E) as (Hr & -> & ->).
  split; [done|]. exists m. eexists. split; [|split].
  - by eapply initialized_set_dbCache.
  - apply lookup_delete_eq.
  - apply lookup_delete_eq.
Qed.

(** On an initialized instance, [get] of a key that is neither cached nor
    stored returns [undefined] and changes nothing, also when the store
    cannot be read. *)
Lemma get_missing (k : string) (w : World) m c :
  str_truthy k = true -> initialized w m c ->
  c !! user_key m k = None -> items (storage w) !! user_key m k = None ->
  out (get k w) = Ok undefined /\ after (get k w) = w.
Proof.
  intros Hk Hi Hc Hs. rewrite (get_initialized k w m c Hk Hi).
  destruct (rejects (storage w) Read (user_key m k)) eqn:Hr.
  - by rewrite (get_tail_read_fails _ w m c Hi Hc Hr).
  - rewrite (get_tail_absent _ w m c Hi Hc Hr); [done|]. by rewrite Hs.
Qed.

(** X5.  After a [del(k)] that returned, neither the cache nor the store has
    an entry under the user's key, and [get(k)] returns [undefined] and
    changes nothing. *)
Theorem del_then_get_returns_undefined
    (k : string) (w w1 : World) (l : list event) :
  del k w = mkRes (Ok tt) w1 l ->
  exists m, dbMetaCache (this w1) = Some m
    /\ cached w1 (user_key m k) = None
    /\ items (storage w1) !! user_key m k = None
    /\ out (get k w1) = Ok undefined
    /\ after (get k w1) = w1.
Proof.
  intros E. destruct (del_ok _ _ _ _ E) as (Hk & _ & m & c & Hi & Hc & Hs).
  exists m. split; [by destruct Hi|]. split.
  { unfold cached. by destruct Hi as [_ ->]. }
  split; [done|]. by apply (get_missing k w1 m c).
Qed.

End Deleting.

(** ** Store accesses that are rejected *)

Section RejectedAccesses.
Context {JSON_DBInfo : JSON DBInfo} {JSON_object : JSON (gmap string value)}.

(** X6.  [put] writes the cache before the store.  With the metadata record
    cached, a [put(k, o)] whose store write is rejected throws the store's
    failure and yet leaves [o] in the cache: the store's items are as they
    were, and [get(k)] returns [o]. *)
Theorem put_rejected_by_the_store_still_caches
    (k : string) (o : object) (w : World) (m : DBInfo) :
  str_truthy k = true ->
  dbMetaCache (this w) = Some m ->
  rejects (storage w) Write (user_key m k) = true ->
  let w1 := set_dbCache
              (Some (<[user_key m k := o]> (default ∅ (dbCache (this w))))) w in
  put k (defined o) w
  = mkRes (Throw (StorageFailure Write (user_key m k))) w1 []
  /\ items (storage w1) = items (storage w)
  /\ get k w1 = mkRes (Ok (defined o)) w1 [].
Proof.
  intros Hk Hm Hr w1. split; [|split; [done|]].
  - rewrite put_from_prelude by done.
    rewrite (run_bind_quiet _ _ _ _ _ (prelude_meta_cached k w m Hm)).
    unfold put_tail.
    erewrite run_bind_ok;
      [|by eapply (cache_set_initialized _ _ _ m (default ∅ (dbCache (this w))))].
    unfold setItem. simpl. by rewrite Hr.
  - assert (Hi : initialized w1 m
                   (<[user_key m k := o]> (default ∅ (dbCache (this w)))))
      by done.
    rewrite (get_initialized k w1 m _ Hk Hi).
    eapply get_tail_hit; [done|]. apply lookup_insert_eq.
Qed.

(** X7.  [del] drops the cache entry before it asks the store.  With the
    metadata record cached, a [del(k)] whose removal is rejected throws the
    store's failure after the cache entry is gone; the store keeps its
    items, and a following [get(k)] loads again what the store holds under
    the key. *)
Theorem del_rejected_by_the_store_only_empties_the_cache
    (k : string) (w : World) (m : DBInfo) :
  str_truthy k = true ->
  dbMetaCache (this w) = Some m ->
  rejects (storage w) Remove (user_key m k) = true ->
  let w1 := set_dbCache
              (Some (delete (user_key m k) (default ∅ (dbCache (this w))))) w in
  del k w = mkRes (Throw (StorageFailure Remove (user_key m k))) w1 []
  /\ cached w1 (user_key m k) = None
  /\ items (storage w1) = items (storage w)
  /\ forall s o,
       items (storage w) !! user_key m k = Some s -> str_truthy s = true ->
       parse s = Some o ->
       rejects (storage w) Read (user_key m k) = false ->
       out (get k w1) = Ok (defined o).
Proof.
  intros Hk Hm Hr w1.
  assert (Hi : initialized w1 m
                 (delete (user_key m k) (default ∅ (dbCache (this w)))))
    by done.
  split; [|split; [|split; [done|]]].
  - rewrite del_from_prelude by done.
    rewrite (run_bind_quiet _ _ _ _ _ (prelude_meta_cached k w m Hm)).
    unfold del_tail.
    erewrite run_bind_ok;
      [|by eapply (cache_delete_initialized _ _ m
                     (default ∅ (dbCache (this w))))].
    unfold removeItem. simpl. by rewrite Hr.
  - unfold cached. simpl. apply lookup_delete_eq.
  - intros s o Hs Ht Hp Hread.
    rewrite (get_initialized k w1 m _ Hk Hi).
    by rewrite (get_tail_load _ w1 m _ s o Hi (lookup_delete_eq _ _) Hread Hs Ht Hp).
Qed.

End RejectedAccesses.

(** ** [purgeCache] *)

Section Purging.
Context {JSON_DBInfo : JSON DBInfo} {JSON_object : JSON (gmap string value)}.

(** With a cache in place and no metadata record anywhere, resolving a key
    fails: [currUser] is read off [undefined]. *)
Lemma prelude_without_metadata (k : string) (w : World) c :
  dbCache (this w) = Some c -> dbMetaCache (this w) = None ->
  opt_str_truthy (items (storage w) !! metaKey) = false ->
  rejects (storage w) Read metaKey = false ->
  prelude k w = mkRes (Throw TypeError) w [].
Proof.
  intros Hc Hm Hi Hr. unfold prelude.
  rewrite (run_bind_pure _ _ _ _ (ensure_init_cached w c Hc)).
  unfold makeUserKey.
  by rewrite (run_bind_pure _ _ _ _ (getMeta_absent w Hm Hi Hr)).
Qed.

(** X8.  [purgeCache] installs an empty cache, which the operations take
    for the sign of an initialized instance.  Called before the first use,
    over a store without metadata record, it leaves [get], [put], [update]
    and [del] throwing a [TypeError] ([currUser] read off [undefined])
    without creating the record, and [cacheGet] returning [null]. *)
Theorem purgeCache_before_first_use_disables_the_store
    (k : string) (o : object) (w : World) :
  str_truthy k = true ->
  dbMetaCache (this w) = None ->
  opt_str_truthy (items (storage w) !! metaKey) = false ->
  rejects (storage w) Read metaKey = false ->
  let w1 := after (purgeCache w) in
  get k w1 = mkRes (Throw TypeError) w1 []
  /\ put k (defined o) w1 = mkRes (Throw TypeError) w1 []
  /\ update k (defined o) w1 = mkRes (Throw TypeError) w1 []
  /\ del k w1 = mkRes (Throw TypeError) w1 []
  /\ cacheGet k w1 = mkRes (Ok null) w1 [].
Proof.
  intros Hk Hm Hi Hr w1.
  assert (E : prelude k w1 = mkRes (Throw TypeError) w1 [])
    by (by apply (prelude_without_metadata k w1 ∅)).
  rewrite get_from_prelude, put_from_prelude, update_from_prelude,
    del_from_prelude by done.
  rewrite !(run_bind_throw _ _ _ _ _ _ E).
  repeat (split; [done|]).
  unfold cacheGet. rewrite Hk. simpl. rewrite run_bind. simpl.
  unfold cacheMakeUserKey. rewrite !run_bind. simpl. by rewrite Hm.
Qed.

End Purging.

(** ** Reads on an initialized instance *)

Section Reading.
Context {JSON_DBInfo : JSON DBInfo} {JSON_object : JSON (gmap string value)}.

(** What [get] does on an initialized instance: it answers [undefined] and
    changes nothing, or answers from the cache, or loads the stored value
    into the cache. *)
Lemma get_initialized_cases (k : string) (w : World) m c :
  str_truthy k = true -> initialized w m c ->
  (exists l, get k w = mkRes (Ok undefined) w l)
  \/ (exists o, c !! user_key m k = Some o
        /\ get k w = mkRes (Ok (defined o)) w [])
  \/ (exists o, c !! user_key m k = None
        /\ get k w
           = mkRes (Ok (defined o))
               (set_dbCache (Some (<[user_key m k := o]> c)) w) []).
Proof.
  intros Hk Hi. rewrite (get_initialized k w m c Hk Hi).
  destruct (c !! user_key m k) as [o|] eqn:Ec.
  { right. left. exists o. split; [done|]. by eapply get_tail_hit. }
  destruct (rejects (storage w) Read (user_key m k)) eqn:Hr.
  { left. eexists. by eapply get_tail_read_fails. }
  destruct (items (storage w) !! user_key m k) as [s|] eqn:Es;
    [destruct (str_truthy s) eqn:Ht|].
  - destruct (parse (A := gmap string value) s) as [o|] eqn:Ep.
    + right. right. exists o. split; [done|]. by eapply get_tail_load.
    + left. eexists. by eapply get_tail_parse_fails.
  - left. eexists. eapply get_tail_absent; try done. by rewrite Es.
  - left. eexists. eapply get_tail_absent; try done. by rewrite Es.
Qed.

(** X9.  On an initialized instance (metadata record and cache in place),
    [get] of a non-empty key never throws and changes neither the store
    nor the metadata record: it returns [undefined] and changes nothing, or
    returns the object it found (in the cache, or read from the stored
    text), which the cache then holds under the user's key.  A repeated
    [get] returns the same and changes nothing more. *)
Theorem get_returns_once_initialized
    (k : string) (w : World) (m : DBInfo) (c : gmap string object) :
  str_truthy k = true -> initialized w m c ->
  let r := get k w in
  storage (after r) = storage w
  /\ dbMetaCache (this (after r)) = Some m
  /\ ((out r = Ok undefined /\ after r = w)
      \/ exists o, out r = Ok (defined o)
           /\ cached (after r) (user_key m k) = Some o)
  /\ out (get k (after r)) = out r
  /\ after (get k (after r)) = after r.
Proof.
  intros Hk Hi. cbv zeta. pose proof Hi as [Hm Hc].
  destruct (get_initialized_cases k w m c Hk Hi)
    as [(l & E)|[(o & Ec & E)|(o & Ec & E)]]; rewrite E; simpl.
  - split; [done|]. split; [done|]. split; [by left|]. by rewrite E.
  - split; [done|]. split; [done|]. split; [|by rewrite E].
    right. exists o. split; [done|]. unfold cached. by rewrite Hc.
  - split; [done|]. split; [done|].
    assert (Hi' : initialized
                    (set_dbCache (Some (<[user_key m k := o]> c)) w) m
                    (<[user_key m k := o]> c)) by done.
    split.
    + right. exists o. split; [done|]. unfold cached. simpl.
      apply lookup_insert_eq.
    + rewrite (get_initialized k _ m _ Hk Hi').
      by rewrite (get_tail_hit _ _ m _ o Hi' (lookup_insert_eq _ _ _)).
Qed.

(** X10.  After a [put(k, o)] that returned, [getCache()] is a cache that
    holds [o] under the user's key and, when the name of the current user is
    not empty, [cacheGet(k)] returns [o] without changing anything. *)
Theorem cacheGet_finds_what_put_cached
    (k : string) (o : object) (w w1 : World) (l : list event) :
  put k (defined o) w = mkRes (Ok tt) w1 l ->
  exists m c, dbMetaCache (this w1) = Some m
    /\ getCache w1 = mkRes (Ok (Some c)) w1 []
    /\ c !! user_key m k = Some o
    /\ (str_truthy (currUser m) = true ->
        cacheGet k w1 = mkRes (Ok (defined o)) w1 []).
Proof.
  intros E. destruct (put_ok _ _ _ _ _ E) as (Hk & _ & m & c & Hi & Hc & Hs).
  destruct Hi as [Hm Hcache]. exists m, c.
  split; [done|]. split; [|split; [done|]].
  - unfold getCache. rewrite run_bind. simpl. by rewrite Hcache.
  - intros Hu. unfold cacheGet. rewrite Hk. simpl. rewrite run_bind. simpl.
    rewrite Hcache. unfold cacheMakeUserKey. rewrite !run_bind. simpl.
    rewrite Hm, Hu. simpl.
    assert (str_truthy (currUser m +:+ ":" +:+ k) = true) as ->
      by (by destruct (currUser m)).
    unfold user_key in Hc. by rewrite Hc.
Qed.

End Reading.

(** ** What a computation can throw *)

Lemma throws_bind {A B} (P : exn -> Prop) (m : M A) (k : A -> M B) :
  throws_only P m -> (forall a, throws_only P (k a)) ->
  throws_only P (m ≫= k).
Proof.
  intros Hm Hk w e. rewrite run_bind. specialize (Hm w).
  destruct (m w) as [[a|e'] w' l]; simpl in *.
  - apply (Hk a w').
  - intros [= <-]. by apply Hm.
Qed.

Lemma throws_ret {A} (P : exn -> Prop) (a : A) : throws_only P (mret a).
Proof. by intros w e. Qed.

Lemma throws_throw {A} (P : exn -> Prop) (e : exn) :
  P e -> throws_only P (throw (A := A) e).
Proof. by intros He w e' [= <-]. Qed.

Lemma throws_emit (P : exn -> Prop) (e : event) : throws_only P (emit e).
Proof. by intros w e'. Qed.

Lemma throws_get_world (P : exn -> Prop) : throws_only P get_world.
Proof. by intros w e. Qed.

Lemma throws_modify (P : exn -> Prop) (f : World -> World) :
  throws_only P (modify f).
Proof. by intros w e. Qed.

(** a [try] throws what its handler throws *)
Lemma throws_try {A} (P : exn -> Prop) (body : M A) (handler : exn -> M A) :
  (forall e, throws_only P (handler e)) -> throws_only P (try_catch body handler).
Proof.
  intros Hh w e. unfold try_catch.
  destruct (body w) as [[a|e'] w' l]; simpl; [done|]. apply (Hh e' w').
Qed.

Lemma throws_if {A} (P : exn -> Prop) (b : bool) (m1 m2 : M A) :
  throws_only P m1 -> throws_only P m2 -> throws_only P (if b then m1 else m2).
Proof. by destruct b. Qed.

Lemma throws_getItem k : throws_only not_an_Error (getItem k).
Proof.
  intros w e. unfold getItem.
  destruct (rejects (storage w) Read k); simpl; [by intros [= <-]|done].
Qed.

Lemma throws_setItem k v : throws_only not_an_Error (setItem k v).
Proof.
  intros w e. unfold setItem.
  destruct (rejects (storage w) Write k); simpl; [by intros [= <-]|done].
Qed.

Lemma throws_removeItem k : throws_only not_an_Error (removeItem k).
Proof.
  intros w e. unfold removeItem.
  destruct (rejects (storage w) Remove k); simpl; [by intros [= <-]|done].
Qed.

Lemma throws_JSON_parse `{JSON A} s :
  throws_only not_an_Error (JSON_parse (A := A) s).
Proof.
  intros w e. unfold JSON_parse.
  destruct (parse s); simpl; [done|by intros [= <-]].
Qed.

Ltac throws := repeat (intros; first
  [ solve [auto]
  | apply throws_bind | apply throws_try | apply throws_if
  | apply throws_ret | apply throws_emit | apply throws_get_world
  | apply throws_modify | apply throws_getItem | apply throws_setItem
  | apply throws_removeItem | apply throws_JSON_parse
  | apply throws_throw; exact I
  | match goal with
    | |- throws_only _ (match ?x with _ => _ end) => destruct x
    end ]).

Section Refusals.
Context {JSON_DBInfo : JSON DBInfo} {JSON_object : JSON (gmap string value)}.

Lemma throws_getMeta : throws_only not_an_Error getMeta.
Proof. unfold getMeta. throws. Qed.

Lemma throws_putMeta p : throws_only not_an_Error (putMeta p).
Proof. unfold putMeta. throws. Qed.

Lemma throws_prelude k : throws_only not_an_Error (prelude k).
Proof.
  pose proof throws_getMeta. pose proof throws_putMeta.
  unfold prelude, ensure_init, init, makeUserKey. throws.
Qed.

Lemma throws_the_cache : throws_only not_an_Error the_cache.
Proof. unfold the_cache. throws. Qed.

Lemma throws_cache_set uk o : throws_only not_an_Error (cache_set uk o).
Proof. pose proof throws_the_cache. unfold cache_set. throws. Qed.

Lemma throws_cache_delete uk : throws_only not_an_Error (cache_delete uk).
Proof. pose proof throws_the_cache. unfold cache_delete. throws. Qed.

Lemma throws_get_tail uk : throws_only not_an_Error (get_tail uk).
Proof.
  pose proof throws_the_cache. pose proof throws_cache_set.
  unfold get_tail. throws.
Qed.

Lemma throws_put_tail o uk : throws_only not_an_Error (put_tail o uk).
Proof. pose proof throws_cache_set. unfold put_tail. throws. Qed.

Lemma throws_update_tail p uk : throws_only not_an_Error (update_tail p uk).
Proof.
  pose proof throws_the_cache. pose proof throws_cache_set.
  unfold update_tail. throws.
Qed.

Lemma throws_del_tail uk : throws_only not_an_Error (del_tail uk).
Proof. pose proof throws_cache_delete. unfold del_tail. throws. Qed.

Lemma throws_cacheMakeUserKey k : throws_only not_an_Error (cacheMakeUserKey k).
Proof. unfold cacheMakeUserKey. throws. Qed.

Lemma not_refused {A} (m : M A) (w : World) :
  throws_only not_an_Error m -> ~ refused w (m w).
Proof. intros Hm [msg E]. apply (Hm w (Error msg)). by rewrite E. Qed.

Lemma str_truthy_false (k : string) : str_truthy k = false <-> k = EmptyString.
Proof. by destruct k. Qed.

Lemma is_truthy_false {A} (v : nullable A) :
  is_truthy v = false <-> v = undefined \/ v = null.
Proof. destruct v; simpl; split; auto; try done; by intros [?|?]. Qed.

Lemma put_refused (k : string) (v : nullable object) (w : World) :
  refused w (put k v w) <-> str_truthy k = false \/ is_truthy v = false.
Proof.
  split.
  - intros Hr. destruct (str_truthy k) eqn:Hk; [|by left].
    destruct v as [| |o]; [by right..|]. exfalso.
    rewrite put_from_prelude in Hr by done. revert Hr. apply not_refused.
    apply throws_bind; [apply throws_prelude|intros; apply throws_put_tail].
  - intros H. unfold put.
    assert (negb (str_truthy k) || negb (is_truthy v) = true) as ->
      by (destruct H as [-> | ->]; [done|by rewrite orb_true_r]).
    by eexists.
Qed.

Lemma update_refused (k : string) (v : nullable object) (w : World) :
  refused w (update k v w) <-> str_truthy k = false \/ is_truthy v = false.
Proof.
  split.
  - intros Hr. destruct (str_truthy k) eqn:Hk; [|by left].
    destruct v as [| |o]; [by right..|]. exfalso.
    rewrite update_from_prelude in Hr by done. revert Hr. apply not_refused.
    apply throws_bind; [apply throws_prelude|intros; apply throws_update_tail].
  - intros H. unfold update.
    assert (negb (str_truthy k) || negb (is_truthy v) = true) as ->
      by (destruct H as [-> | ->]; [done|by rewrite orb_true_r]).
    by eexists.
Qed.

Lemma get_refused (k : string) (w : World) :
  refused w (get k w) <-> str_truthy k = false.
Proof.
  split.
  - intros Hr. destruct (str_truthy k) eqn:Hk; [|done]. exfalso.
    rewrite get_from_prelude in Hr by done. revert Hr. apply not_refused.
    apply throws_bind; [apply throws_prelude|intros; apply throws_get_tail].
  - intros H. unfold get. rewrite H. by eexists.
Qed.

Lemma del_refused (k : string) (w : World) :
  refused w (del k w) <-> str_truthy k = false.
Proof.
  split.
  - intros Hr. destruct (str_truthy k) eqn:Hk; [|done]. exfalso.
    rewrite del_from_prelude in Hr by done. revert Hr. apply not_refused.
    apply throws_bind; [apply throws_prelude|intros; apply throws_del_tail].
  - intros H. unfold del. rewrite H. by eexists.
Qed.

Lemma cacheGet_refused (k : string) (w : World) :
  refused w (cacheGet k w) <-> str_truthy k = false.
Proof.
  split.
  - intros Hr. destruct (str_truthy k) eqn:Hk; [|done]. exfalso.
    revert Hr. unfold cacheGet. rewrite Hk. apply not_refused.
    pose proof throws_cacheMakeUserKey. cbn [negb]. throws.
  - intros H. unfold cacheGet. rewrite H. by eexists.
Qed.

(** X11.  The argument checks.  [put] and [update] are refused (they throw
    the [Error] of their check, having changed and logged nothing) exactly
    when the key is empty or the value is [undefined] or [null]; [get],
    [del] and [cacheGet] exactly when the key is empty.  No other [throw]
    statement raises an [Error]: every other exception comes from the
    store, from [JSON.parse] or from a missing object. *)
Theorem only_empty_arguments_are_refused
    (k : string) (v : nullable object) (w : World) :
  (refused w (put k v w) <-> k = EmptyString \/ v = undefined \/ v = null)
  /\ (refused w (update k v w) <-> k = EmptyString \/ v = undefined \/ v = null)
  /\ (refused w (get k w) <-> k = EmptyString)
  /\ (refused w (del k w) <-> k = EmptyString)
  /\ (refused w (cacheGet k w) <-> k = EmptyString).
Proof.
  rewrite <- (str_truthy_false k), <- (is_truthy_false v).
  split; [apply put_refused|]. split; [apply update_refused|].
  split; [apply get_refused|]. split; [apply del_refused|].
  apply cacheGet_refused.
Qed.

End Refusals.

(** ** The install id *)

Section InstallId.
Context {JSON_DBInfo : JSON DBInfo} {JSON_object : JSON (gmap string value)}.
Variable randomUUID : nat -> string.

Lemma getInstallId_cached (w : World) (id : string) :
  dbInstallId (this w) = Some id -> str_truthy id = true ->
  getInstallId randomUUID w = mkRes (Ok id) w [].
Proof.
  intros Hi Ht. unfold getInstallId. rewrite run_bind. simpl.
  by rewrite Hi; simpl; rewrite Ht.
Qed.

Lemma getInstallId_stored (w : World) (s : string) :
  opt_str_truthy (dbInstallId (this w)) = false ->
  rejects (storage w) Read installIdKey = false ->
  items (storage w) !! installIdKey = Some s -> str_truthy s = true ->
  getInstallId randomUUID w = mkRes (Ok s) (set_dbInstallId (Some s) w) [].
Proof.
  intros Hi Hr Hs Ht. unfold getInstallId. rewrite run_bind. simpl.
  rewrite Hi. rewrite run_bind. unfold getItem. rewrite Hr. simpl.
  rewrite Hs. simpl. by rewrite Ht.
Qed.

Lemma getInstallId_fresh (w : World) :
  opt_str_truthy (dbInstallId (this w)) = false ->
  rejects (storage w) Read installIdKey = false ->
  opt_str_truthy (items (storage w) !! installIdKey) = false ->
  rejects (storage w) Write installIdKey = false ->
  let id := randomUUID (uuids_drawn w) in
  getInstallId randomUUID w
  = mkRes (Ok id)
      (set_dbInstallId (Some id)
         (set_items (<[installIdKey := id]> (items (storage w)))
            (set_uuids_drawn (S (uuids_drawn w)) w))) [].
Proof.
  intros Hi Hr Hs Hw id. unfold getInstallId. rewrite run_bind. simpl.
  rewrite Hi. rewrite run_bind. unfold getItem. rewrite Hr. simpl.
  rewrite Hs. rewrite !run_bind. simpl. unfold setItem.
  rewrite !run_bind. simpl. by rewrite Hw.
Qed.

(** What a call that returned did: it answered from the field, or from the
    store, or it drew an identifier and stored it. *)
Lemma getInstallId_ok (w w1 : World) (id : string) (l : list event) :
  getInstallId randomUUID w = mkRes (Ok id) w1 l ->
  l = []
  /\ dbInstallId (this w1) = Some id
  /\ rejects (storage w1) = rejects (storage w)
  /\ (uuids_drawn w1 <= S (uuids_drawn w))%nat
  /\ (opt_str_truthy (dbInstallId (this w)) = false ->
      rejects (storage w) Read installIdKey = false
      /\ items (storage w1) !! installIdKey = Some id).
Proof.
  intros E. destruct (opt_str_truthy (dbInstallId (this w))) eqn:Hi.
  { destruct (dbInstallId (this w)) as [i|] eqn:Hd; [|done]. simpl in Hi.
    rewrite (getInstallId_cached w i Hd Hi) in E. injection E as <- <- <-.
    repeat split; try done; simpl; lia. }
  destruct (rejects (storage w) Read installIdKey) eqn:Hr.
  { exfalso. unfold getInstallId in E. rewrite run_bind in E. simpl in E.
    rewrite Hi in E. rewrite run_bind in E. unfold getItem in E.
    by rewrite Hr in E. }
  destruct (opt_str_truthy (items (storage w) !! installIdKey)) eqn:Hs.
  { destruct (items (storage w) !! installIdKey) as [s|] eqn:Es; [|done].
    simpl in Hs. rewrite (getInstallId_stored w s Hi Hr Es Hs) in E.
    injection E as <- <- <-. repeat split; try done; simpl; lia. }
  destruct (rejects (storage w) Write installIdKey) eqn:Hw.
  { exfalso. unfold getInstallId in E. rewrite run_bind in E. simpl in E.
    rewrite Hi in E. rewrite run_bind in E. unfold getItem in E.
    rewrite Hr in E. simpl in E. rewrite Hs in E. rewrite !run_bind in E.
    simpl in E. unfold setItem in E. rewrite !run_bind in E. simpl in E.
    by rewrite Hw in E. }
  rewrite (getInstallId_fresh w Hi Hr Hs Hw) in E. injection E as <- <- <-.
  repeat split; try done; simpl; first [lia|apply lookup_insert_eq].
Qed.

(** X12.  After a [getInstallId()] that returned a non-empty id, a repeated
    call returns the same id and changes nothing, and at most one
    identifier was drawn.  If no id was cached before the call, the store
    now holds the id under the install-id key, and [getInstallId()] on a new
    instance over the same store returns the same id. *)
Theorem install_id_is_created_once
    (w w1 : World) (id : string) (l : list event) :
  getInstallId randomUUID w = mkRes (Ok id) w1 l ->
  str_truthy id = true ->
  getInstallId randomUUID w1 = mkRes (Ok id) w1 []
  /\ (uuids_drawn w1 <= S (uuids_drawn w))%nat
  /\ (opt_str_truthy (dbInstallId (this w)) = false ->
      items (storage w1) !! installIdKey = Some id
      /\ forall d, getInstallId randomUUID (restart d w1)
                   = mkRes (Ok id) (set_dbInstallId (Some id) (restart d w1)) []).
Proof.
  intros E Ht. destruct (getInstallId_ok w w1 id l E) as (_ & Hd & Hrj & Hn & Hs).
  split; [by apply getInstallId_cached|]. split; [done|].
  intros Hi. destruct (Hs Hi) as [Hr Hitem]. split; [done|]. intros d.
  apply getInstallId_stored; try done. simpl. by rewrite Hrj.
Qed.

(** *** The install id over sequences of operations *)

Lemma put_preserves {B} (proj : World -> B) k v :
  ignores_cache proj -> ignores_meta_cache proj -> ignores_item metaKey proj ->
  (forall m, ignores_item (user_key m k) proj) ->
  preserves proj (put k v).
Proof.
  intros Hc Hm Hi Hu w.
  destruct (str_truthy k) eqn:Hk; [|by unfold put; rewrite Hk].
  destruct v as [| |o]; [by unfold put; rewrite Hk..|].
  rewrite put_from_prelude by done.
  apply prelude_then_preserves; [by apply preserves_prelude|].
  intros m. by apply preserves_put_tail.
Qed.

Lemma update_preserves {B} (proj : World -> B) k v :
  ignores_cache proj -> ignores_meta_cache proj -> ignores_item metaKey proj ->
  (forall m, ignores_item (user_key m k) proj) ->
  preserves proj (update k v).
Proof.
  intros Hc Hm Hi Hu w.
  destruct (str_truthy k) eqn:Hk; [|by unfold update; rewrite Hk].
  destruct v as [| |o]; [by unfold update; rewrite Hk..|].
  rewrite update_from_prelude by done.
  apply prelude_then_preserves; [by apply preserves_prelude|].
  intros m. by apply preserves_update_tail.
Qed.

Lemma del_preserves {B} (proj : World -> B) k :
  ignores_cache proj -> ignores_meta_cache proj -> ignores_item metaKey proj ->
  (forall m, ignores_item (user_key m k) proj) ->
  preserves proj (del k).
Proof.
  intros Hc Hm Hi Hu w.
  destruct (str_truthy k) eqn:Hk; [|by unfold del; rewrite Hk].
  rewrite del_from_prelude by done.
  apply prelude_then_preserves; [by apply preserves_prelude|].
  intros m. by apply preserves_del_tail.
Qed.

Lemma get_preserves {B} (proj : World -> B) k :
  ignores_cache proj -> ignores_meta_cache proj -> ignores_item metaKey proj ->
  preserves proj (get k).
Proof.
  intros Hc Hm Hi w.
  destruct (str_truthy k) eqn:Hk; [|by unfold get; rewrite Hk].
  rewrite get_from_prelude by done.
  apply prelude_then_preserves; [by apply preserves_prelude|].
  intros m. by apply preserves_get_tail.
Qed.

(** An operation leaves an install id that is cached where it is. *)
Lemma run_op_keeps_install_id (o : op) (w : World) (id : string) :
  unobtrusive o ->
  dbInstallId (this w) = Some id -> str_truthy id = true ->
  dbInstallId (this (run_op randomUUID o w)) = Some id.
Proof.
  intros Ho Hd Ht. rewrite <- Hd.
  change (cached_install_id (run_op randomUUID o w) = cached_install_id w).
  destruct o; unfold run_op.
  - by rewrite (getInstallId_cached w id Hd Ht).
  - by apply preserves_getMeta.
  - by apply preserves_putMeta.
  - by apply put_preserves.
  - by apply get_preserves.
  - by rewrite cacheGet_keeps_world.
  - by apply del_preserves.
  - by apply update_preserves.
  - by apply preserves_migrate.
  - done.
  - done.
Qed.

(** X13.  No other operation changes the install id: once a non-empty id is
    cached, after any sequence of public operations (whose migration
    functions leave the field alone) [getInstallId()] still returns it,
    changing nothing. *)
Theorem install_id_survives_operations
    (os : list op) (w : World) (id : string) :
  dbInstallId (this w) = Some id -> str_truthy id = true ->
  Forall unobtrusive os ->
  getInstallId randomUUID (run_ops randomUUID os w)
  = mkRes (Ok id) (run_ops randomUUID os w) [].
Proof.
  intros Hd Ht Hos. apply getInstallId_cached; [|done].
  revert w Hd. induction Hos as [|o os Ho _ IH]; intros w Hd; simpl; [done|].
  apply IH. by apply run_op_keeps_install_id.
Qed.

End InstallId.

(** ** Keys of the caller and keys of the class *)

Section Keys.
Context {JSON_DBInfo : JSON DBInfo} {JSON_object : JSON (gmap string value)}.







(** *** Other keys of the same user *)

Lemma cached_cache_set uk uk' o :
  uk <> uk' -> preserves (fun w => cached w uk') (cache_set uk o).
Proof.
  intros Hne w. unfold cache_set, the_cache. rewrite !run_bind.
  unfold cached. destruct w as [[d [c|] mc i] s n]; simpl; [|done].
  by rewrite lookup_insert_ne.
Qed.

Lemma cached_cache_delete uk uk' :
  uk <> uk' -> preserves (fun w => cached w uk') (cache_delete uk).
Proof.
  intros Hne w. unfold cache_delete, the_cache. rewrite !run_bind.
  unfold cached. destruct w as [[d [c|] mc i] s n]; simpl; [|done].
  by rewrite lookup_delete_ne.
Qed.

Lemma cached_put_tail uk uk' o :
  uk <> uk' -> preserves (fun w => cached w uk') (put_tail o uk).
Proof.
  intros Hne. pose proof (cached_cache_set uk uk' o Hne).
  unfold put_tail. frames.
Qed.

Lemma cached_del_tail uk uk' :
  uk <> uk' -> preserves (fun w => cached w uk') (del_tail uk).
Proof.
  intros Hne. pose proof (cached_cache_delete uk uk' Hne).
  unfold del_tail. frames.
Qed.

Lemma cached_get_tail uk uk' :
  uk <> uk' -> preserves (fun w => cached w uk') (get_tail uk).
Proof.
  intros Hne. pose proof (fun o => cached_cache_set uk uk' o Hne).
  pose proof (preserves_the_cache (fun w => cached w uk')).
  unfold get_tail. frames.
Qed.

Lemma cached_ensure_init uk' : preserves (fun w => cached w uk') ensure_init.
Proof.
  intros w. unfold ensure_init. rewrite run_bind. simpl.
  destruct (dbCache (this w)) as [c|] eqn:Hc; simpl; [done|].
  assert (Hnone : forall w', dbCache (this w') = None -> cached w' uk' = None)
    by (by intros w'; unfold cached; intros ->).
  assert (Hempty : forall w', cached (set_dbCache (Some ∅) w') uk' = None)
    by done.
  rewrite (Hnone w Hc). unfold init.
  destruct (getMeta_cases w)
    as [(m & Em & E)|(Em & [(e & E)|[(Es & E)|(m & Es & E)]])].
  - by rewrite (run_bind_pure _ _ _ _ E).
  - rewrite (run_bind_throw _ _ _ _ _ _ E). by apply Hnone.
  - rewrite (run_bind_pure _ _ _ _ E). rewrite run_bind.
    unfold putMeta. rewrite !run_bind. simpl. rewrite Em. unfold setItem.
    simpl. destruct (rejects (storage w) Write metaKey); simpl; [|done].
    by apply Hnone.
  - by rewrite (run_bind_ok _ _ _ _ _ _ E).
Qed.

Lemma cached_prelude k uk' : preserves (fun w => cached w uk') (prelude k).
Proof.
  pose proof (cached_ensure_init uk').
  assert (preserves (fun w => cached w uk') getMeta)
    by (by apply preserves_getMeta).
  unfold prelude, makeUserKey. frames.
Qed.

(** an operation on the key of [k]: what it preserves when it begins by
    resolving the key for the user of [m] *)
Lemma keyed_op_frame {A B} (proj : World -> B) (tail : string -> M A)
    (k : string) (w : World) (m : DBInfo) :
  meta_view w = Some m ->
  preserves proj (prelude k) -> preserves proj (tail (user_key m k)) ->
  proj (after ((prelude k ≫= tail) w)) = proj w.
Proof.
  intros Hm Hp Ht. rewrite bind_prelude. specialize (Hp w).
  destruct (prelude_spec k w) as (_ & Hok & Hv). cbv zeta in *.
  destruct (Hv m Hm) as [_ Hv2].
  destruct (out (prelude k w)) as [uk|e]; [|done].
  destruct (Hok uk eq_refl) as (m' & [Hm' _] & ->).
  rewrite (Hv2 _ eq_refl) in Hm'. injection Hm' as <-.
  by rewrite Ht.
Qed.

(** X15.  An operation on one key does not touch another key of the same
    user.  For the user of the metadata record the instance works with and
    [k'] other than [k]: after [put], [del] or [get] of [k] the cache entry
    and the store entry of [k'] are the same, however the operation ends;
    after [update] of [k] the store entry of [k'] is the same.  (The cache
    entry of [k'] after an [update] of [k] is not claimed: [update] assigns
    in place, and the change shows under [k'] when the caller filed one
    object under both keys.) *)
Theorem operations_on_a_key_leave_the_other_keys_alone
    (k k' : string) (v : nullable object) (w : World) (m : DBInfo) :
  meta_view w = Some m -> k' <> k ->
  Forall (fun w' => cached w' (user_key m k') = cached w (user_key m k')
                    /\ item (user_key m k') w' = item (user_key m k') w)
    [after (put k v w); after (del k w); after (get k w)]
  /\ item (user_key m k') (after (update k v w)) = item (user_key m k') w.
Proof.
  intros Hm Hne.
  assert (Hk : user_key m k <> user_key m k')
    by (by intros ->%user_key_inj).
  assert (Hmk : metaKey <> user_key m k')
    by (intros H; by apply (user_key_not_metaKey m k')).
  pose proof (cached_prelude k (user_key m k')) as Hc.
  assert (Hi : preserves (item (user_key m k')) (prelude k)).
  { apply preserves_prelude; try done. by apply item_ignores_item. }
  pose proof (item_ignores_item _ _ Hk) as Hik.
  split.
  - repeat first [apply List.Forall_nil | apply List.Forall_cons].
    + destruct (str_truthy k) eqn:Ek; [|by unfold put; rewrite Ek].
      destruct v as [| |o]; [by unfold put; rewrite Ek..|].
      rewrite put_from_prelude by done. split.
      * apply (keyed_op_frame (fun w => cached w (user_key m k')) _ k w m);
          try done.
        by apply cached_put_tail.
      * apply (keyed_op_frame (item (user_key m k')) _ k w m); try done.
        by apply preserves_put_tail.
    + destruct (str_truthy k) eqn:Ek; [|by unfold del; rewrite Ek].
      rewrite del_from_prelude by done. split.
      * apply (keyed_op_frame (fun w => cached w (user_key m k')) _ k w m);
          try done.
        by apply cached_del_tail.
      * apply (keyed_op_frame (item (user_key m k')) _ k w m); try done.
        by apply preserves_del_tail.
    + destruct (str_truthy k) eqn:Ek; [|by unfold get; rewrite Ek].
      rewrite get_from_prelude by done. split.
      * apply (keyed_op_frame (fun w => cached w (user_key m k')) _ k w m);
          try done.
        by apply cached_get_tail.
      * apply (keyed_op_frame (item (user_key m k')) _ k w m); try done.
        by apply preserves_get_tail.
  - destruct (str_truthy k) eqn:Ek; [|by unfold update; rewrite Ek].
    destruct v as [| |o]; [by unfold update; rewrite Ek..|].
    rewrite update_from_prelude by done.
    apply (keyed_op_frame (item (user_key m k')) _ k w m); try done.
    by apply preserves_update_tail.
Qed.

End Keys.

(** ** [migrate]: what it never does *)

Section MigrateSafety.
Context {JSON_DBInfo : JSON DBInfo}.

Lemma migrate_throws_nothing (t : nullable MigrationTable) :
  throws_only (fun _ => False) (migrate t).
Proof. unfold migrate. apply throws_try. throws. Qed.

(** X16.  [migrate] never throws: whatever the table, the migration
    functions and the store do, it returns a boolean. *)
Theorem migrate_never_throws (t : nullable MigrationTable) (w : World) :
  exists b, out (migrate t w) = Ok b.
Proof.
  pose proof (migrate_throws_nothing t w) as H.
  destruct (out (migrate t w)) as [b|e]; [by exists b|].
  exfalso. by apply (H e).
Qed.

Lemma changes_bind {A B} (proj : World -> B) (m : M A) (k : A -> M bool) :
  preserves proj m -> (forall a, changes_only_on_true proj (k a)) ->
  changes_only_on_true proj (m ≫= k).
Proof.
  intros Hm Hk w. rewrite run_bind. specialize (Hm w).
  destruct (m w) as [[a|e] w' l]; simpl in *; [|done].
  intros Ho. by rewrite (Hk a w' Ho).
Qed.

Lemma changes_preserves {B} (proj : World -> B) (m : M bool) :
  preserves proj m -> changes_only_on_true proj m.
Proof. intros Hm w _. apply Hm. Qed.

Lemma changes_try {B} (proj : World -> B) (body : M bool) :
  changes_only_on_true proj body ->
  changes_only_on_true proj (try_catch body migrate_catch).
Proof.
  intros Hb w. unfold try_catch. specialize (Hb w).
  destruct (body w) as [[a|e] w' l]; simpl in *; [done|].
  intros _. by apply Hb.
Qed.

(** the last step of [migrate]: the version is in the store, or the call
    does not return [true] *)
Lemma changes_record_version (c : bool) (p : PartialDBInfo) :
  changes_only_on_true (item metaKey)
    ((if c then putMeta p else mret tt);; mret true).
Proof.
  intros w. destruct c; [|done].
  rewrite run_bind. unfold putMeta. rewrite !run_bind. simpl.
  unfold setItem. simpl.
  by destruct (rejects (storage w) Write metaKey).
Qed.

(** X17.  A [migrate] that returns [false] has not written the version:
    with migration functions that leave the store's metadata entry alone,
    that entry is the same after the call as before it. *)
Theorem migrate_that_fails_has_not_written_the_version
    (t : nullable MigrationTable) (w : World) :
  match t with
  | defined t => Forall (leaves (item metaKey)) (all_functions t)
  | _ => True
  end ->
  out (migrate t w) = Ok false ->
  item metaKey (after (migrate t w)) = item metaKey w.
Proof.
  intros Ht Ho.
  assert (H : changes_only_on_true (item metaKey) (migrate t));
    [|apply H; by rewrite Ho].
  unfold migrate. apply changes_try.
  destruct t as [| |t]; [by apply changes_preserves; frames..|].
  apply changes_bind; [by apply preserves_getMeta|].
  intros [storedMeta|]; [|by apply changes_preserves; frames].
  apply changes_bind; [apply preserves_validate|]. intros r.
  destruct (negb (passed r)); [by apply changes_preserves; frames|].
  apply changes_bind; [frames|]. intros _.
  apply changes_bind; [by apply preserves_run_versions|]. intros lmv.
  apply changes_record_version.
Qed.

(** *** A call on an instance that has not loaded the metadata record *)

(** X18.  [migrate] on an instance that has not loaded the metadata record.
    If the store has no record, it runs nothing, logs that no database
    exists and returns [false], whatever the table.  If the store holds a
    record, the call is the call on the instance with that record cached.
    If the store cannot be read, it logs the failure and returns [false]. *)
Theorem migrate_on_a_new_instance (t : MigrationTable) (w : World) :
  dbMetaCache (this w) = None ->
  (rejects (storage w) Read metaKey = false ->
   opt_str_truthy (items (storage w) !! metaKey) = false ->
   migrate (defined t) w
   = mkRes (Ok false) w
       [console_info ["No database exists. Skipping migration."]])
  /\ (rejects (storage w) Read metaKey = false ->
      forall m, stored_meta w = Some m ->
      migrate (defined t) w
      = migrate (defined t) (set_dbMetaCache (Some m) w))
  /\ (rejects (storage w) Read metaKey = true ->
      migrate (defined t) w
      = mkRes (Ok false) w [console_error_exn (StorageFailure Read metaKey)]).
Proof.
  intros Hm. split; [|split].
  - intros Hr Hi. unfold migrate. apply run_try_ok.
    by rewrite (run_bind_pure _ _ _ _ (getMeta_absent w Hm Hi Hr)).
  - intros Hr m Hs. unfold migrate, try_catch.
    rewrite (run_bind_quiet _ _ _ _ _ (getMeta_loads w m Hm Hs Hr)).
    by rewrite (run_bind_quiet _ _ _ _ _
                  (getMeta_cached (set_dbMetaCache (Some m) w) m eq_refl)).
  - intros Hr. unfold migrate.
    rewrite (run_try_throw _ _ w (StorageFailure Read metaKey) w []); [done|].
    apply run_bind_throw. by apply getMeta_unreadable.
Qed.

End MigrateSafety.

(** ** [migrate]: runs that end in an exception *)

Section MigrationFailures.
Context {JSON_DBInfo : JSON DBInfo}.

(** On a valid table and with the metadata record cached, [migrate] is its
    loop over the versions of the table in ascending order. *)
Lemma migrate_is_its_loop (t : MigrationTable) (w : World) (m : DBInfo) :
  dbMetaCache (this w) = Some m -> valid_table t ->
  exists zs1 : list Z,
    StronglySorted Z.le zs1 /\ NoDup zs1
    /\ (forall v, v ∈ zs1 <-> Int v ∈ versions t)
    /\ Forall (fun v => 0 < v) zs1
    /\ Forall (fun v => Int v ∈ versions t /\ is_Some (table_at t (Int v))) zs1
    /\ migrate (defined t) w
       = try_catch (migrate_loop t m (map Int zs1)) migrate_catch w.
Proof.
  intros Hm Hvalid.
  destruct (valid_table_versions t Hvalid) as (zs0 & Ev & Hnd & Hpos & Hat).
  destruct (Array_sort_ints zs0) as (zs1 & Es & P & S).
  exists zs1. split; [done|]. split; [by rewrite <- P|].
  assert (Hmem : forall v, v ∈ zs1 <-> Int v ∈ versions t).
  { intros v. rewrite <- P, Ev. split.
    - intros H. by apply list_elem_of_In, in_map, list_elem_of_In.
    - intros H. apply list_elem_of_In, in_map_iff in H as (v' & [= ->] & H).
      by apply list_elem_of_In. }
  split; [done|]. split; [by rewrite <- P|]. split.
  { rewrite <- P. apply Forall_forall. intros v Hv. split.
    - apply Hmem. by rewrite <- P.
    - by apply (proj1 (Forall_forall _ _) Hat). }
  unfold migrate, try_catch.
  rewrite (run_bind_quiet _ _ _ _ _ (getMeta_cached w m Hm)).
  rewrite (run_bind_quiet _ _ _ _ _
             (validate_positive (Object_keys t) zs0 w Ev Hpos)).
  cbn [passed sortedVersions negb]. by rewrite Es.
Qed.

Variable Inv : World -> Prop.
Variable m : DBInfo.
Variable N : Z.
Hypothesis Inv_meta : forall w, Inv w -> dbMetaCache (this w) = Some m.
Hypothesis m_version : lastMigrationVersion m = Int N.

Lemma call_throws (f : MigrationFunction) (w : World) (e : exn) :
  fst (mf_body f w) = Throw e ->
  call f w = mkRes (Throw e) (snd (mf_body f w)) [invoked f].
Proof. intros He. unfold call. destruct (mf_body f w). simpl in *. by subst. Qed.

(** The functions of a version run until one throws. *)
Lemma run_functions_throws (pre : list MigrationFunction)
    (f : MigrationFunction) (post : list MigrationFunction) (e : exn) :
  Forall (respects Inv) pre ->
  forall w, Inv w ->
  fst (mf_body f (thread pre w)) = Throw e ->
  exists l,
    run_functions (pre ++ f :: post) w
    = mkRes (Throw e) (snd (mf_body f (thread pre w))) l
    /\ invoked_of l = pre ++ [f]
    /\ console_of l = map failure_report (failures pre w).
Proof.
  induction 1 as [|g pre Hg _ IH]; intros w HI He.
  - cbn [app run_functions thread failures map] in *.
    rewrite (run_bind_throw _ _ _ _ _ _ (call_throws f w e He)).
    by eexists.
  - destruct (call_respects Inv g w HI Hg) as (b & Ec & Eb & HI').
    cbn [thread] in He. destruct (IH _ HI' He) as (l & E & E4 & E5).
    change ((g :: pre) ++ f :: post) with (g :: (pre ++ f :: post)).
    cbn [run_functions thread failures].
    rewrite (run_bind_ok _ _ _ _ _ _ Ec), Eb.
    destruct b; cbn [negb].
    + rewrite (run_bind_pure _ _ _ tt eq_refl), E. simpl.
      eexists. split; [reflexivity|]. simpl. by rewrite E4, E5.
    + rewrite (run_bind_ok (emit _) _ _ _ _ _ eq_refl), E. simpl.
      eexists. split; [reflexivity|]. simpl. by rewrite E4, E5.
Qed.

Variable t : MigrationTable.

(** The loop over the versions runs until a function throws. *)
Lemma run_versions_throws (storedMeta : DBInfo) (vs : list Z)
    (f : MigrationFunction) (post : list MigrationFunction) (e : exn) :
  Forall (fun v => Int v ∈ versions t /\ is_Some (table_at t (Int v))) vs ->
  forall (pre : list MigrationFunction) (w : World) (lmv : number),
  Inv w ->
  concat (map (functions_at t) (above N vs)) = pre ++ f :: post ->
  Forall (respects Inv) pre ->
  fst (mf_body f (thread pre w)) = Throw e ->
  exists l,
    run_versions t storedMeta (map Int vs) lmv w
    = mkRes (Throw e) (snd (mf_body f (thread pre w))) l
    /\ invoked_of l = pre ++ [f]
    /\ console_of l = map failure_report (failures pre w).
Proof.
  induction 1 as [|v vs [Hvt [fs Hfs]] _ IH]; intros pre w lmv HI Hcat Hpre He.
  - by destruct pre.
  - cbn [map run_versions].
    assert (Es : stored_lastMigrationVersion storedMeta w
                 = mkRes (Ok (Int N)) w []).
    { unfold stored_lastMigrationVersion. rewrite run_bind. simpl.
      rewrite (Inv_meta w HI). simpl. by rewrite m_version. }
    rewrite (run_bind_pure _ _ _ _ Es). unfold num_ge.
    change (above N (v :: vs))
      with (if N <? v then v :: above N vs else above N vs) in Hcat.
    destruct (N <? v) eqn:Hv.
    + assert ((v <=? N) = false) as -> by lia.
      assert (Hfa : functions_at t v = fs)
        by (unfold functions_at; by rewrite Hfs).
      rewrite Hfs. cbn [map concat] in Hcat. rewrite Hfa in Hcat.
      apply app_eq_app in Hcat as [l' [[H1 H2]|[H1 H2]]].
      * (* the function that throws belongs to this version, or [l'] is
           empty and it is the first of a later one *)
        destruct l' as [|g l'].
        -- rewrite app_nil_r in H1. subst pre. simpl in H2.
           destruct (run_functions_respects Inv fs w HI Hpre)
             as (l1 & E1 & HI1 & E4 & E5).
           destruct (IH [] (thread fs w) (Int v) HI1 (eq_sym H2)
                       (List.Forall_nil _) He)
             as (l2 & E2 & F4 & F5).
           rewrite (run_bind_ok _ _ _ _ _ _ E1), E2. simpl.
           eexists. split; [reflexivity|]. split.
           ++ by rewrite invoked_of_app, E4, F4.
           ++ by rewrite console_of_app, E5, F5, app_nil_r.
        -- injection H2 as <- H2. subst fs.
           destruct (run_functions_throws pre f l' e Hpre w HI He)
             as (l1 & E1 & E4 & E5).
           rewrite (run_bind_throw _ _ _ _ _ _ E1). by eexists.
      * subst pre. apply Forall_app in Hpre as [Hfs' Hl'].
        rewrite thread_app in He.
        destruct (run_functions_respects Inv fs w HI Hfs')
          as (l1 & E1 & HI1 & E4 & E5).
        destruct (IH l' (thread fs w) (Int v) HI1 H2 Hl' He)
          as (l2 & E2 & F4 & F5).
        rewrite (run_bind_ok _ _ _ _ _ _ E1), E2. simpl.
        eexists. split; [by rewrite thread_app|]. split.
        -- by rewrite invoked_of_app, E4, F4, app_assoc.
        -- by rewrite console_of_app, failures_app, E5, F5, map_app.
    + assert ((v <=? N) = true) as -> by lia.
      by apply IH.
Qed.

End MigrationFailures.

Lemma above_nonempty_length (N : Z) (zs1 : list Z) :
  above N zs1 <> [] -> (length (map Int zs1) =? 0)%nat = false.
Proof. by destruct zs1. Qed.

(** the pending versions of a run are the versions of the table above the
    stored one, in ascending order *)
Lemma pending_versions (N : Z) (t : MigrationTable) (zs zs1 : list Z) :
  StronglySorted Z.le zs1 -> NoDup zs1 ->
  (forall v, v ∈ zs1 <-> Int v ∈ versions t) ->
  StronglySorted Z.lt zs ->
  (forall v, v ∈ zs <-> N < v /\ Int v ∈ versions t) ->
  zs = above N zs1.
Proof.
  intros S1 Hnd Hmem1 S Hmem. apply StronglySorted_unique; [done| |].
  - by apply StronglySorted_filter, StronglySorted_le_lt.
  - intros v. rewrite Hmem, <- Hmem1. unfold above.
    rewrite (list_elem_of_In (List.filter _ _) v), filter_In.
    rewrite <- list_elem_of_In, Z.ltb_lt. tauto.
Qed.

(** X19.  A migration function that throws aborts the run.  In the setting
    of C3, let the functions of the pending versions, in the order they
    run, be [pre ++ f :: post], with [f] throwing [e] after the functions of
    [pre] resolved.  Then [migrate] returns [false]; it has invoked [pre]
    and [f] and nothing of [post]; its console output is the reports of
    the functions of [pre] that answered [false], then [e]; and it leaves
    the world as [f] left it: no version is recorded, not even the versions
    whose functions all ran. *)
Theorem throwing_migration_function_aborts_the_run
    {JSON_DBInfo : JSON DBInfo} (Inv : World -> Prop) (m : DBInfo) (N : Z)
    (t : MigrationTable) (w : World) (zs : list Z)
    (pre post : list MigrationFunction) (f : MigrationFunction) (e : exn) :
  (forall w', Inv w' -> dbMetaCache (this w') = Some m) ->
  lastMigrationVersion m = Int N ->
  valid_table t ->
  Inv w ->
  StronglySorted Z.lt zs ->
  (forall v, v ∈ zs <-> N < v /\ Int v ∈ versions t) ->
  concat (map (functions_at t) zs) = pre ++ f :: post ->
  Forall (respects Inv) pre ->
  fst (mf_body f (thread pre w)) = Throw e ->
  let r := migrate (defined t) w in
  out r = Ok false
  /\ after r = snd (mf_body f (thread pre w))
  /\ invoked_of (log r) = pre ++ [f]
  /\ console_of (log r)
     = map failure_report (failures pre w) ++ [console_error_exn e].
Proof.
  intros Hmeta Hm Hvalid HI Hs Hmem Hcat Hpre He r. subst r.
  destruct (migrate_is_its_loop t w m (Hmeta w HI) Hvalid)
    as (zs1 & S1 & Hnd & Hmem1 & Hpos & Hat & E).
  pose proof (pending_versions N t zs zs1 S1 Hnd Hmem1 Hs Hmem) as ->.
  destruct (run_versions_throws Inv m N Hmeta Hm t m zs1 f post e Hat
              pre w (Int 0) HI Hcat Hpre He) as (l & Er & E4 & E5).
  assert (Hne : above N zs1 <> []).
  { intros H0. rewrite H0 in Hcat. by destruct pre. }
  rewrite E. unfold migrate_loop.
  rewrite (above_nonempty_length N zs1 Hne).
  rewrite (run_try_throw _ _ w e (snd (mf_body f (thread pre w))) l).
  - simpl. split; [done|]. split; [done|].
    rewrite invoked_of_app, console_of_app, E4, E5. simpl.
    by rewrite app_nil_r.
  - rewrite (run_bind_pure _ _ _ tt eq_refl).
    by rewrite (run_bind_throw _ _ _ _ _ _ Er).
Qed.

(** X20.  When the store rejects the write of the version at the end of a
    run (setting of C3, with [top] the highest pending version), [migrate]
    returns [false] after invoking every pending function, and logs the
    failure last; the version [top] is then cached and not stored, and a
    repeated [migrate] of the same table on that instance returns [true]
    without running, logging or writing anything. *)
Theorem migrate_whose_version_write_is_rejected
    {JSON_DBInfo : JSON DBInfo} (Inv : World -> Prop) (m : DBInfo) (N : Z)
    (t : MigrationTable) (w : World) (zs : list Z) (top : Z) :
  (forall w', Inv w' -> dbMetaCache (this w') = Some m) ->
  lastMigrationVersion m = Int N ->
  valid_table t ->
  Forall (respects Inv) (all_functions t) ->
  Inv w ->
  StronglySorted Z.lt zs ->
  (forall v, v ∈ zs <-> N < v /\ Int v ∈ versions t) ->
  last zs = Some top ->
  let w' := thread (concat (map (functions_at t) zs)) w in
  rejects (storage w') Write metaKey = true ->
  let r := migrate (defined t) w in
  out r = Ok false
  /\ invoked_of (log r) = concat (map (functions_at t) zs)
  /\ after r = set_dbMetaCache (Some (advanced m top)) w'
  /\ last (log r) = Some (console_error_exn (StorageFailure Write metaKey))
  /\ migrate (defined t) (after r) = mkRes (Ok true) (after r) [].
Proof.
  intros Hmeta Hm Hvalid Hfs HI Hs Hmem Hlast w' Hrej r. subst r.
  destruct (migrate_is_its_loop t w m (Hmeta w HI) Hvalid)
    as (zs1 & S1 & Hnd & Hmem1 & Hpos & Hat & E).
  pose proof (pending_versions N t zs zs1 S1 Hnd Hmem1 Hs Hmem) as ->.
  assert (Hresp : forall v f, N < v -> Int v ∈ versions t ->
                    f ∈ functions_at t v -> respects Inv f).
  { intros v f _ _ Hf. apply (proj1 (Forall_forall _ _) Hfs).
    by eapply functions_at_all. }
  destruct (run_versions_respects Inv m N Hmeta Hm t Hresp m zs1 Hat w (Int 0) HI)
    as (l & Er & HI' & E4 & _).
  rewrite Hlast in Er. cbn [from_option] in Er. fold w' in Er, HI'.
  destruct (StronglySorted_last _ _ Hs Hlast) as [Hin Hle].
  pose proof (proj1 (Hmem top) Hin) as [Hgt Hv].
  assert (0 < top).
  { apply (proj1 (Forall_forall _ _) Hpos), Hmem1, Hv. }
  assert (Hne : above N zs1 <> []) by (intros H0; by rewrite H0 in Hlast).
  assert (Ew : putMeta {| lastMigrationVersion_opt := Some (Int top);
                          currUser_opt := None |} w'
               = mkRes (Throw (StorageFailure Write metaKey))
                   (set_dbMetaCache (Some (advanced m top)) w') []).
  { unfold putMeta. rewrite run_bind. simpl. rewrite (Hmeta w' HI').
    unfold setItem. simpl. fold w'. by rewrite Hrej. }
  assert (Eloop : migrate_loop t m (map Int zs1) w
                  = mkRes (Throw (StorageFailure Write metaKey))
                      (set_dbMetaCache (Some (advanced m top)) w') (l ++ [])).
  { unfold migrate_loop. rewrite (above_nonempty_length N zs1 Hne).
    rewrite (run_bind_pure _ _ _ tt eq_refl).
    rewrite (run_bind_ok _ _ _ _ _ _ Er).
    assert (num_truthy (Int top) = true) as ->
      by (simpl; destruct (top =? 0) eqn:?; [lia|done]).
    by rewrite (run_bind_throw _ _ _ _ _ _ Ew). }
  rewrite E, (run_try_throw _ _ _ _ _ _ Eloop). simpl.
  split; [done|]. split; [by rewrite app_nil_r, invoked_of_app, E4, app_nil_r|].
  split; [done|]. split; [by rewrite last_snoc|].
  (* the repeated call *)
  set (w2 := set_dbMetaCache (Some (advanced m top)) w').
  destruct (migrate_run (fun w0 => w0 = w2) (advanced m top) top)
    with (t := t) (w := w2) as (zs' & l' & _ & Hmem' & E' & _ & F4 & F5);
    try done.
  { by intros w0 ->. }
  { intros v f Hv' Hin' _. exfalso.
    assert (Hin2 : v ∈ above N zs1) by (apply Hmem; split; [lia|done]).
    pose proof (proj1 (Forall_forall _ _) Hle v Hin2) as Hle2. simpl in Hle2.
    lia. }
  { intros w0 _ (v & Hv' & Hin'). exfalso.
    assert (Hin2 : v ∈ above N zs1) by (apply Hmem; split; [lia|done]).
    pose proof (proj1 (Forall_forall _ _) Hle v Hin2) as Hle2. simpl in Hle2.
    lia. }
  assert (zs' = []) as ->.
  { destruct zs' as [|v zs']; [done|]. exfalso.
    assert (Hv' : v ∈ v :: zs') by (by apply elem_of_cons; left).
    apply Hmem' in Hv' as [Hv' Hin'].
    assert (Hin2 : v ∈ above N zs1) by (apply Hmem; split; [lia|done]).
    pose proof (proj1 (Forall_forall _ _) Hle v Hin2) as Hle2. simpl in Hle2.
    lia. }
  simpl in *. rewrite E'. f_equal.
  rewrite <- (invoked_of_nil_console l' F4), F5.
  unfold empty_note. destruct t; [|done]. by apply elem_of_nil in Hv.
Qed.

(** ** The validation on well-formed keys *)

Lemma version_keys_parse (ks : list string) :
  Forall (fun k => exists v, version_key k v) ks ->
  exists zs, map parseInt ks = map Int zs /\ Forall (fun z => 0 < z) zs.
Proof.
  induction 1 as [|k ks (v & -> & Hv) _ (zs & E & Hpos)].
  - by exists [].
  - exists (v :: zs). cbn [map]. rewrite parseInt_number_to_string, E.
    split; [done|]. constructor; [lia|done].
Qed.

(** X21.  On keys that are numerals of positive integers the validation
    passes, logs nothing, and returns the version numbers sorted
    numerically: an ascending rearrangement of the parsed keys. *)
Theorem validation_sorts_the_versions_numerically
    (ks : list string) (w : World) :
  Forall (fun k => exists v, version_key k v) ks ->
  exists zs,
    validateMigrationVersionNumbers ks w
    = mkRes (Ok {| passed := true; sortedVersions := map Int zs |}) w []
    /\ Permutation (map parseInt ks) (map Int zs)
    /\ StronglySorted Z.le zs.
Proof.
  intros Hks. destruct (version_keys_parse ks Hks) as (zs0 & E & Hpos).
  destruct (Array_sort_ints zs0) as (zs & Es & P & S).
  exists zs. rewrite (validate_positive ks zs0 w E Hpos), Es, E.
  split; [done|]. split; [by apply Permutation_map|done].
Qed.

(** ** The user of the store over sequences of operations *)

Section CurrentUser.
Context {JSON_DBInfo : JSON DBInfo} {JSON_object : JSON (gmap string value)}.
Variable randomUUID : nat -> string.


End CurrentUser.

(** ** Invariants *)










Section InStep.
Context {JSON_DBInfo : JSON DBInfo} {JSON_object : JSON (gmap string value)}.
Variable randomUUID : nat -> string.


Lemma metadata_state_ignores_cache : ignores_cache metadata_state.
Proof. done. Qed.

















End InStep.

(** ** Values over a restart *)

Section Restart.
Context {JSON_DBInfo : JSON DBInfo} {JSON_object : JSON (gmap string value)}.

(** X24.  A value survives a restart.  After a [put(k, o)] that returned, if
    the stored metadata text reads back as the cached record, the text of
    [o] reads back as [o] and the store can be read, then on a new instance
    over the same store, whatever its default metadata, [get(k)] returns
    [o] and caches it. *)
Theorem put_survives_a_restart
    (k : string) (o : object) (w w1 : World) (l : list event) (m : DBInfo) :
  put k (defined o) w = mkRes (Ok tt) w1 l ->
  dbMetaCache (this w1) = Some m -> stored_meta w1 = Some m ->
  parse (stringify o) = Some o -> str_truthy (stringify o) = true ->
  rejects (storage w1) Read metaKey = false ->
  rejects (storage w1) Read (user_key m k) = false ->
  forall d,
    get k (restart d w1)
    = mkRes (Ok (defined o))
        (set_dbCache (Some {[user_key m k := o]})
           (set_dbMetaCache (Some m) (restart d w1))) [].
Proof.
  intros E Hm Hs Hp Ht Hr Hru d.
  destruct (put_ok _ _ _ _ _ E) as (Hk & _ & m' & c & [Hm' Hc] & _ & Hitem).
  rewrite Hm in Hm'. injection Hm' as <-.
  rewrite get_from_prelude by done.
  rewrite (run_bind_quiet _ _ _ _ _ (prelude_loads k (restart d w1) m
                                       eq_refl Hs Hr)).
  by rewrite (get_tail_load _ _ m ∅ (stringify o) o).
Qed.

End Restart.

(** ** [migrate] and the data of the callers *)

Section MigrateAndData.
Context {JSON_DBInfo : JSON DBInfo}.

Lemma user_data_ignores_meta_cache k : ignores_meta_cache (user_data k).
Proof. done. Qed.

Lemma user_data_ignores_item k k' : k' <> k -> ignores_item k' (user_data k).
Proof.
  intros Hk. split; intros; unfold user_data, item; simpl.
  - by rewrite lookup_insert_ne.
  - by rewrite lookup_delete_ne.
Qed.

(** X25.  [migrate] itself touches only the metadata record: with migration
    functions that leave the cache of values and the store's entry for a
    key other than the metadata key alone, so does the call, however it
    ends. *)
Theorem migrate_itself_touches_only_the_metadata_record
    (t : nullable MigrationTable) (k : string) (w : World) :
  k <> metaKey ->
  match t with
  | defined t => Forall (leaves (user_data k)) (all_functions t)
  | _ => True
  end ->
  dbCache (this (after (migrate t w))) = dbCache (this w)
  /\ item k (after (migrate t w)) = item k w.
Proof.
  intros Hk Ht.
  assert (H : user_data k (after (migrate t w)) = user_data k w).
  { apply preserves_migrate; [done| |done].
    apply user_data_ignores_item. intros H. by apply Hk. }
  by injection H.
Qed.

End MigrateAndData.

(** ** A cached value and the operations on other keys *)

Section StableValues.
Context {JSON_DBInfo : JSON DBInfo} {JSON_object : JSON (gmap string value)}.
Variable randomUUID : nat -> string.

Lemma filed_prelude m uk o k w :
  filed m uk o w ->
  prelude k w = mkRes (Ok (user_key m k)) w [].
Proof.
  intros [Hm Hc]. unfold cached in Hc.
  destruct (dbCache (this w)) as [c|] eqn:Ec; [|done].
  by apply (prelude_initialized k w m c).
Qed.

Lemma filed_tail {A} (tail : M A) m uk o w :
  preserves cached_meta tail -> preserves (fun w => cached w uk) tail ->
  filed m uk o w -> filed m uk o (after (tail w)).
Proof.
  intros H1 H2 [Hm Hc]. split.
  - fold (cached_meta (after (tail w))). by rewrite H1.
  - by rewrite H2.
Qed.

Lemma run_op_filed (k : string) (o : object) (op0 : op) (w : World) m :
  away_from k op0 ->
  filed m (user_key m k) o w ->
  filed m (user_key m k) o (run_op randomUUID op0 w).
Proof.
  intros Ha HJ. pose proof HJ as [Hm Hc].
  assert (Hne : forall k', k' <> k -> user_key m k' <> user_key m k)
    by (by intros k' Hk' ->%user_key_inj).
  destruct op0 as [| |p|k' v|k'|k'|k'|k' v|t| |]; unfold run_op;
    simpl in Ha; try done.
  - apply filed_tail; [| |done]; unfold getInstallId; frames.
  - by rewrite (getMeta_cached w m Hm).
  - destruct (str_truthy k') eqn:Hk; [|by unfold put; rewrite Hk].
    destruct v as [| |o']; [by unfold put; rewrite Hk..|].
    rewrite put_from_prelude by done.
    rewrite (run_bind_quiet _ _ _ _ _ (filed_prelude m _ o k' w HJ)).
    apply filed_tail; [apply keeps_put_tail|by apply cached_put_tail, Hne|done].
  - destruct (str_truthy k') eqn:Hk; [|by unfold get; rewrite Hk].
    rewrite get_from_prelude by done.
    rewrite (run_bind_quiet _ _ _ _ _ (filed_prelude m _ o k' w HJ)).
    destruct (decide (k' = k)) as [->|Hk'].
    + unfold cached in Hc. destruct (dbCache (this w)) as [c|] eqn:Ec; [|done].
      by rewrite (get_tail_hit _ w m c o (conj Hm Ec) Hc).
    + apply filed_tail;
        [apply keeps_get_tail|by apply cached_get_tail, Hne|done].
  - by rewrite cacheGet_keeps_world.
  - destruct (str_truthy k') eqn:Hk; [|by unfold del; rewrite Hk].
    rewrite del_from_prelude by done.
    rewrite (run_bind_quiet _ _ _ _ _ (filed_prelude m _ o k' w HJ)).
    apply filed_tail; [apply keeps_del_tail|by apply cached_del_tail, Hne|done].
Qed.

(** X26.  A cached value stays.  With the metadata record cached and [o] in
    the cache under the user's key for [k], after any sequence of
    operations that neither write nor delete [k], nor update a value, nor
    switch the user, nor empty the cache, nor run migration functions (so:
    [get] of any key; [put] and [del] of other keys; [getMeta],
    [getInstallId], [cacheGet], [getCache]), [get(k)] still returns [o] and
    changes nothing.  ([update] is left out for every key: it assigns in
    place, into an object that the caller may have filed under [k] as
    well.) *)
Theorem cached_value_is_stable
    (k : string) (o : object) (os : list op) (w : World) (m : DBInfo) :
  str_truthy k = true ->
  dbMetaCache (this w) = Some m ->
  cached w (user_key m k) = Some o ->
  Forall (away_from k) os ->
  get k (run_ops randomUUID os w)
  = mkRes (Ok (defined o)) (run_ops randomUUID os w) [].
Proof.
  intros Hk Hm Hc Hos.
  assert (HJ : filed m (user_key m k) o (run_ops randomUUID os w)).
  { assert (HJ : filed m (user_key m k) o w) by done.
    clear Hm Hc. revert w HJ.
    induction Hos as [|op0 os Ho _ IH]; intros w HJ; simpl; [done|].
    apply IH. by apply run_op_filed. }
  destruct HJ as [Hm' Hc']. unfold cached in Hc'.
  destruct (dbCache (this (run_ops randomUUID os w))) as [c|] eqn:Ec; [|done].
  rewrite (get_initialized k _ m c Hk (conj Hm' Ec)).
  by apply (get_tail_hit _ _ m c o).
Qed.

End StableValues.

(** ** Values are filed per user *)

Section PerUser.
Context {JSON_DBInfo : JSON DBInfo} {JSON_object : JSON (gmap string value)}.

(** X27.  Values are filed per user.  After a [put(k, o)] that returned,
    switching the current user with [putMeta] to a user [u] for whom
    neither the cache nor the store holds anything under [k] makes
    [get(k)] return [undefined] and change nothing; switching back to the
    former user makes [get(k)] return [o] again. *)
Theorem values_are_filed_per_user
    (k u : string) (o : object) (w w1 w2 w3 : World) (l l2 l3 : list event)
    (m : DBInfo) :
  put k (defined o) w = mkRes (Ok tt) w1 l ->
  dbMetaCache (this w1) = Some m ->
  cached w1 (u +:+ ":" +:+ k) = None ->
  items (storage w1) !! (u +:+ ":" +:+ k) = None ->
  putMeta (switch_user u) w1 = mkRes (Ok tt) w2 l2 ->
  putMeta (switch_user (currUser m)) w2 = mkRes (Ok tt) w3 l3 ->
  out (get k w2) = Ok undefined
  /\ after (get k w2) = w2
  /\ get k w3 = mkRes (Ok (defined o)) w3 [].
Proof.
  intros E Hm Hc Hs E2 E3.
  destruct (put_ok _ _ _ _ _ E) as (Hk & _ & m' & c & [Hm' Hcache] & Ho & _).
  rewrite Hm in Hm'. injection Hm' as <-.
  destruct (putMeta_ok _ _ _ _ E2) as (_ & _ & ->). cbv zeta in *.
  rewrite Hm in *. simpl in *.
  set (m2 := assign_meta m (switch_user u)) in *.
  pose proof (get_missing k
                (set_items (<[metaKey := stringify m2]> (items (storage w1)))
                   (set_dbMetaCache (Some m2) w1)) m2 c Hk) as Hget.
  destruct Hget as [H1 H2].
  { by split. }
  { unfold cached in Hc. rewrite Hcache in Hc. exact Hc. }
  { simpl. rewrite lookup_insert_ne; [done|].
    intros H. by apply (user_key_not_metaKey m2 k). }
  split; [done|]. split; [done|].
  destruct (putMeta_ok _ _ _ _ E3) as (_ & _ & ->). cbv zeta. simpl.
  assert (Em : assign_meta m2 (switch_user (currUser m)) = m) by done.
  rewrite Em.
  rewrite (get_initialized k _ m c Hk); [|by split].
  by apply (get_tail_hit _ _ m c o).
Qed.

End PerUser.

(** ** C6: the persisted version over sequences of operations *)

Section PersistedVersion.
Context {JSON_DBInfo : JSON DBInfo} {JSON_object : JSON (gmap string value)}.
Variable randomUUID : nat -> string.


Lemma metadata_record_ignores_cache : ignores_cache metadata_record.
Proof. done. Qed.














(** *** [migrate] *)













End PersistedVersion.

(** *** The JSON of the examples *)












(** the run of the example goes from version 0 to version 2, in the store *)
Example store_ops_persisted_version :
  demo_persisted world1 = Some (Int 0)
  /\ demo_persisted (demo_run_ops store_ops world1) = Some (Int 2).
Proof. vm_compute. split; reflexivity. Qed.

(** ** Examples for the further properties *)

Lemma putMeta_then_getMeta_witness :
  let w1 := after (demo_putMeta version3 world1) in
  let merged := {| lastMigrationVersion := Int 3; currUser := "guest" |} in
  holds_metadata (JSON_DBInfo := demo_JSON_DBInfo) w1 merged
  /\ demo_getMeta w1 = mkRes (Ok (Some merged)) w1 []
  /\ forall d, out (demo_getMeta (restart d w1)) = Ok (Some merged).
Proof.
  destruct (putMeta_then_getMeta (JSON_DBInfo := demo_JSON_DBInfo)
              version3 world1 (after (demo_putMeta version3 world1)) []
              eq_refl)
    as (H1 & H2 & H3).
  split; [exact H1|]. split; [exact H2|]. apply H3; reflexivity.
Defined.

Lemma first_use_creates_the_metadata_record_witness :
  holds_metadata (JSON_DBInfo := demo_JSON_DBInfo)
    (after (demo_get "testing" fresh_world)) guest
  /\ holds_metadata (JSON_DBInfo := demo_JSON_DBInfo)
       (after (demo_put "testing" (defined ver3) fresh_world)) guest
  /\ holds_metadata (JSON_DBInfo := demo_JSON_DBInfo)
       (after (demo_update "testing" (defined ver3) fresh_world)) guest
  /\ holds_metadata (JSON_DBInfo := demo_JSON_DBInfo)
       (after (demo_del "testing" fresh_world)) guest.
Proof.
  apply (first_use_creates_the_metadata_record
           (JSON_DBInfo := demo_JSON_DBInfo) (JSON_object := demo_JSON_object)
           "testing" ver3 fresh_world); reflexivity.
Defined.

Lemma stored_metadata_wins_over_the_default_witness :
  exists w1,
    demo_put "bigobj" (defined bigobj) (restart nobody world1)
    = mkRes (Ok tt) w1 []
    /\ dbMetaCache (this w1) = Some guest
    /\ cached w1 "guest:bigobj" = Some bigobj
    /\ items (storage w1) !! "guest:bigobj" = Some "ver=1"
    /\ items (storage w1) !! metaKey
       = items (storage (restart nobody world1)) !! metaKey.
Proof.
  apply (stored_metadata_wins_over_the_default
           (JSON_DBInfo := demo_JSON_DBInfo) (JSON_object := demo_JSON_object)
           "bigobj" bigobj (restart nobody world1) guest); reflexivity.
Defined.

Lemma del_then_get_returns_undefined_witness :
  let w1 := after (demo_del "testing" world1) in
  exists m, dbMetaCache (this w1) = Some m
    /\ cached w1 (user_key m "testing") = None
    /\ items (storage w1) !! user_key m "testing" = None
    /\ out (demo_get "testing" w1) = Ok undefined
    /\ after (demo_get "testing" w1) = w1.
Proof.
  apply (del_then_get_returns_undefined
           (JSON_DBInfo := demo_JSON_DBInfo) (JSON_object := demo_JSON_object)
           "testing" world1 (after (demo_del "testing" world1)) []).
  reflexivity.
Defined.

Lemma put_rejected_by_the_store_still_caches_witness :
  let w1 := set_dbCache
              (Some (<["guest:other" := fragment]>
                       (default ∅ (dbCache (this world_locked)))))
              world_locked in
  demo_put "other" (defined fragment) world_locked
  = mkRes (Throw (StorageFailure Write "guest:other")) w1 []
  /\ items (storage w1) = items (storage world_locked)
  /\ demo_get "other" w1 = mkRes (Ok (defined fragment)) w1 [].
Proof.
  apply (put_rejected_by_the_store_still_caches
           (JSON_DBInfo := demo_JSON_DBInfo) (JSON_object := demo_JSON_object)
           "other" fragment world_locked guest); reflexivity.
Defined.

Lemma del_rejected_by_the_store_only_empties_the_cache_witness :
  let w1 := set_dbCache
              (Some (delete "guest:testing"
                       (default ∅ (dbCache (this world_locked)))))
              world_locked in
  demo_del "testing" world_locked
  = mkRes (Throw (StorageFailure Remove "guest:testing")) w1 []
  /\ cached w1 "guest:testing" = None
  /\ out (demo_get "testing" w1) = Ok (defined ver3).
Proof.
  destruct (del_rejected_by_the_store_only_empties_the_cache
              (JSON_DBInfo := demo_JSON_DBInfo)
              (JSON_object := demo_JSON_object)
              "testing" world_locked guest eq_refl eq_refl eq_refl)
    as (H1 & H2 & _ & H4).
  split; [exact H1|]. split; [exact H2|].
  apply (H4 "ver=3" ver3); reflexivity.
Defined.

Lemma purgeCache_before_first_use_disables_the_store_witness :
  let w1 := after (purgeCache fresh_world) in
  demo_get "testing" w1 = mkRes (Throw TypeError) w1 []
  /\ demo_put "testing" (defined ver3) w1 = mkRes (Throw TypeError) w1 []
  /\ demo_update "testing" (defined ver3) w1 = mkRes (Throw TypeError) w1 []
  /\ demo_del "testing" w1 = mkRes (Throw TypeError) w1 []
  /\ cacheGet "testing" w1 = mkRes (Ok null) w1 [].
Proof.
  apply (purgeCache_before_first_use_disables_the_store
           (JSON_DBInfo := demo_JSON_DBInfo) (JSON_object := demo_JSON_object)
           "testing" ver3 fresh_world); reflexivity.
Defined.

Lemma get_returns_once_initialized_witness :
  let r := demo_get "testing" (after (purgeCache world1)) in
  storage (after r) = storage (after (purgeCache world1))
  /\ dbMetaCache (this (after r)) = Some guest
  /\ ((out r = Ok undefined /\ after r = after (purgeCache world1))
      \/ exists o, out r = Ok (defined o)
           /\ cached (after r) (user_key guest "testing") = Some o)
  /\ out (demo_get "testing" (after r)) = out r
  /\ after (demo_get "testing" (after r)) = after r.
Proof.
  apply (get_returns_once_initialized
           (JSON_DBInfo := demo_JSON_DBInfo) (JSON_object := demo_JSON_object)
           "testing" (after (purgeCache world1)) guest ∅).
  - reflexivity.
  - split; vm_compute; reflexivity.
Defined.

Lemma cacheGet_finds_what_put_cached_witness :
  exists m c, dbMetaCache (this world1) = Some m
    /\ getCache world1 = mkRes (Ok (Some c)) world1 []
    /\ c !! user_key m "testing" = Some ver3
    /\ (str_truthy (currUser m) = true ->
        cacheGet "testing" world1 = mkRes (Ok (defined ver3)) world1 []).
Proof.
  apply (cacheGet_finds_what_put_cached
           (JSON_DBInfo := demo_JSON_DBInfo) (JSON_object := demo_JSON_object)
           "testing" ver3 fresh_world world1 []).
  reflexivity.
Defined.

Lemma install_id_is_created_once_witness :
  getInstallId demo_uuid world_installed
  = mkRes (Ok "uuid-0") world_installed []
  /\ (uuids_drawn world_installed <= S (uuids_drawn fresh_world))%nat
  /\ (opt_str_truthy (dbInstallId (this fresh_world)) = false ->
      items (storage world_installed) !! installIdKey = Some "uuid-0"
      /\ forall d, getInstallId demo_uuid (restart d world_installed)
                   = mkRes (Ok "uuid-0")
                       (set_dbInstallId (Some "uuid-0")
                          (restart d world_installed)) []).
Proof.
  apply (install_id_is_created_once demo_uuid fresh_world world_installed
           "uuid-0" []); reflexivity.
Defined.

Lemma install_id_survives_operations_witness :
  getInstallId demo_uuid (demo_run_ops demo_ops world_installed)
  = mkRes (Ok "uuid-0") (demo_run_ops demo_ops world_installed) [].
Proof.
  apply (install_id_survives_operations
           (JSON_DBInfo := demo_JSON_DBInfo) (JSON_object := demo_JSON_object)
           demo_uuid demo_ops world_installed "uuid-0").
  - reflexivity.
  - reflexivity.
  - repeat (apply List.Forall_cons;
            [first [exact I
                   |repeat (apply List.Forall_cons; [intros w; reflexivity|]);
                    apply List.Forall_nil]|]).
    apply List.Forall_nil.
Defined.

Lemma operations_on_a_key_leave_the_other_keys_alone_witness :
  Forall (fun w' => cached w' (user_key guest "testing")
                    = cached world1 (user_key guest "testing")
                    /\ item (user_key guest "testing") w'
                       = item (user_key guest "testing") world1)
    [after (demo_put "bigobj" (defined bigobj) world1);
     after (demo_del "bigobj" world1);
     after (demo_get "bigobj" world1)]
  /\ item (user_key guest "testing")
       (after (demo_update "bigobj" (defined bigobj) world1))
     = item (user_key guest "testing") world1.
Proof.
  apply (operations_on_a_key_leave_the_other_keys_alone
           (JSON_DBInfo := demo_JSON_DBInfo) (JSON_object := demo_JSON_object)
           "bigobj" "testing" (defined bigobj) world1 guest).
  - vm_compute. reflexivity.
  - discriminate.
Defined.

Lemma migrate_that_fails_has_not_written_the_version_witness :
  out (demo_migrate (defined migTable2) world_locked) = Ok false
  /\ item metaKey (after (demo_migrate (defined migTable2) world_locked))
     = item metaKey world_locked.
Proof.
  split; [vm_compute; reflexivity|].
  apply (migrate_that_fails_has_not_written_the_version
           (JSON_DBInfo := demo_JSON_DBInfo) (defined migTable2) world_locked).
  - repeat (apply List.Forall_cons; [intros w; reflexivity|]).
    apply List.Forall_nil.
  - vm_compute. reflexivity.
Defined.

Lemma migrate_on_a_new_instance_witness :
  demo_migrate (defined migTable2) fresh_world
  = mkRes (Ok false) fresh_world
      [console_info ["No database exists. Skipping migration."]]
  /\ demo_migrate (defined migTable2) (restart nobody world1)
     = demo_migrate (defined migTable2)
         (set_dbMetaCache (Some guest) (restart nobody world1))
  /\ demo_migrate (defined migTable2) unreadable_world
     = mkRes (Ok false) unreadable_world
         [console_error_exn (StorageFailure Read metaKey)].
Proof.
  split; [|split].
  - apply (proj1 (migrate_on_a_new_instance (JSON_DBInfo := demo_JSON_DBInfo)
                    migTable2 fresh_world eq_refl)); reflexivity.
  - apply (proj1 (proj2 (migrate_on_a_new_instance
                           (JSON_DBInfo := demo_JSON_DBInfo)
                           migTable2 (restart nobody world1) eq_refl)));
      reflexivity.
  - apply (proj2 (proj2 (migrate_on_a_new_instance
                           (JSON_DBInfo := demo_JSON_DBInfo)
                           migTable2 unreadable_world eq_refl)));
      reflexivity.
Defined.

Lemma migTableT_valid : valid_table migTableT.
Proof.
  split.
  - apply (bool_decide_unpack _). vm_compute. exact I.
  - repeat constructor.
    + exists 1. split; [reflexivity|]. unfold MAX_SAFE_INTEGER. lia.
    + exists 2. split; [reflexivity|]. unfold MAX_SAFE_INTEGER. lia.
Qed.

Lemma versions_1_2 (N : Z) (t : MigrationTable) :
  versions t = [Int 1; Int 2] -> N = 0 ->
  forall v, v ∈ [1; 2] <-> N < v /\ Int v ∈ versions t.
Proof.
  intros -> -> v. rewrite !elem_of_cons, !elem_of_nil. split.
  - intros [->|[->|[]]]; (split; [lia|]); auto.
  - intros [_ [[= ->]|[[= ->]|[]]]]; auto.
Qed.

Lemma throwing_migration_function_aborts_the_run_witness :
  let r := demo_migrate (defined migTableT) world1 in
  out r = Ok false
  /\ after r = world1
  /\ invoked_of (log r) = [migration1; throwing]
  /\ console_of (log r)
     = map failure_report (failures [migration1] world1)
       ++ [console_error_exn (Error "boom")].
Proof.
  apply (throwing_migration_function_aborts_the_run
           (JSON_DBInfo := demo_JSON_DBInfo) (fun w => w = world1) guest 0
           migTableT world1 [1; 2] [migration1] [migration2; migration3]
           throwing (Error "boom")).
  - intros w' ->. vm_compute. reflexivity.
  - reflexivity.
  - exact migTableT_valid.
  - reflexivity.
  - repeat constructor; lia.
  - by apply versions_1_2.
  - reflexivity.
  - apply List.Forall_cons;
      [intros w' ->; split; [by exists true|reflexivity]|].
    apply List.Forall_nil.
  - reflexivity.
Defined.

Lemma migrate_whose_version_write_is_rejected_witness :
  let r := demo_migrate (defined migTable2) world_locked in
  out r = Ok false
  /\ invoked_of (log r) = concat (map (functions_at migTable2) [1; 2])
  /\ after r = set_dbMetaCache (Some (advanced guest 2)) world_locked
  /\ last (log r) = Some (console_error_exn (StorageFailure Write metaKey))
  /\ demo_migrate (defined migTable2) (after r) = mkRes (Ok true) (after r) [].
Proof.
  apply (migrate_whose_version_write_is_rejected
           (JSON_DBInfo := demo_JSON_DBInfo) (fun w => w = world_locked)
           guest 0 migTable2 world_locked [1; 2] 2).
  - intros w' ->. vm_compute. reflexivity.
  - reflexivity.
  - exact migTable2_valid.
  - repeat (apply List.Forall_cons;
            [intros w' ->; split; [by exists true|reflexivity]|]).
    apply List.Forall_nil.
  - reflexivity.
  - repeat constructor; lia.
  - by apply versions_1_2.
  - reflexivity.
  - reflexivity.
Defined.

Lemma validation_sorts_the_versions_numerically_witness :
  exists zs,
    validateMigrationVersionNumbers ["10"; "9"; "2"] world1
    = mkRes (Ok {| passed := true; sortedVersions := map Int zs |}) world1 []
    /\ Permutation (map parseInt ["10"; "9"; "2"]) (map Int zs)
    /\ StronglySorted Z.le zs.
Proof.
  apply (validation_sorts_the_versions_numerically ["10"; "9"; "2"] world1).
  repeat constructor.
  - exists 10. split; [reflexivity|]. unfold MAX_SAFE_INTEGER. lia.
  - exists 9. split; [reflexivity|]. unfold MAX_SAFE_INTEGER. lia.
  - exists 2. split; [reflexivity|]. unfold MAX_SAFE_INTEGER. lia.
Defined.

(** numerically, not as the property names are ordered *)
Example validation_sorting_example :
  sortedVersions
    <$> out_value (validateMigrationVersionNumbers ["10"; "9"; "2"] world1)
  = Some [Int 2; Int 9; Int 10].
Proof. vm_compute. reflexivity. Qed.



Lemma put_survives_a_restart_witness :
  demo_get "testing" (restart nobody world1)
  = mkRes (Ok (defined ver3))
      (set_dbCache (Some {[user_key guest "testing" := ver3]})
         (set_dbMetaCache (Some guest) (restart nobody world1))) [].
Proof.
  apply (put_survives_a_restart
           (JSON_DBInfo := demo_JSON_DBInfo) (JSON_object := demo_JSON_object)
           "testing" ver3 fresh_world world1 [] guest); reflexivity.
Defined.

Lemma migrate_itself_touches_only_the_metadata_record_witness :
  dbCache (this (after (demo_migrate (defined migTable2) world1)))
  = dbCache (this world1)
  /\ item "guest:testing" (after (demo_migrate (defined migTable2) world1))
     = item "guest:testing" world1.
Proof.
  apply (migrate_itself_touches_only_the_metadata_record
           (JSON_DBInfo := demo_JSON_DBInfo) (defined migTable2)
           "guest:testing" world1).
  - discriminate.
  - repeat (apply List.Forall_cons; [intros w; reflexivity|]).
    apply List.Forall_nil.
Defined.

Lemma cached_value_is_stable_witness :
  demo_get "testing" (demo_run_ops other_ops world1)
  = mkRes (Ok (defined ver3)) (demo_run_ops other_ops world1) [].
Proof.
  apply (cached_value_is_stable
           (JSON_DBInfo := demo_JSON_DBInfo) (JSON_object := demo_JSON_object)
           demo_uuid "testing" ver3 other_ops world1 guest).
  - reflexivity.
  - vm_compute. reflexivity.
  - vm_compute. reflexivity.
  - repeat (apply List.Forall_cons; [first [exact I|discriminate]|]).
    apply List.Forall_nil.
Defined.

Lemma values_are_filed_per_user_witness :
  out (demo_get "testing" world_alice) = Ok undefined
  /\ after (demo_get "testing" world_alice) = world_alice
  /\ demo_get "testing" world_guest_again
     = mkRes (Ok (defined ver3)) world_guest_again [].
Proof.
  apply (values_are_filed_per_user
           (JSON_DBInfo := demo_JSON_DBInfo) (JSON_object := demo_JSON_object)
           "testing" "alice" ver3 fresh_world world1 world_alice
           world_guest_again [] [] [] guest); reflexivity.
Defined.
